(** * Preference memory engine: [user_profile/user_profile.py]

    A shallow embedding of the class [UserProfile] and of its four methods
    ([has_memory], [get_memory_view], [ingest_extracted_preferences],
    [apply_actions]), followed by the properties of the memory engine.
    The grouping of a conversation by user
    ([sessions/conversation_parser.py]) and the search for the JSON text in
    the output of the language model ([LLM/preferance_extractor.py],
    [LLM/suggest_memory_action.py]) are embedded after the engine.

    Modelling choices.
    - A Python [dict] is a finite map ([gmap]); keys are unique as in Python.
      The insertion order of a dict is not represented: [get_memory_view]
      lists the keys of a bucket in the order of [map_to_list].
    - A Python [str] is a [string] of 8-bit characters; [str.lower] is the
      ASCII lower-casing of every character.
    - A Python [int] is a [Z].
    - A Python [float] is a rational number ([Q]): [0.6] is [3#5], [0.05] is
      [1#20].  The comparison, [max] and the product of [weaken] are the
      exact operations.  The weighted mean of [reinforce] (lines 61-63),
      where the rounding of binary64 shows in the result, is computed as
      the interpreter computes it: a number [q] stands for the binary64
      value nearest to it ([B64.round q]), and each of [*], [+], [/] is
      the exact operation followed by rounding to nearest, ties to even.
      Results beyond the binary64 range (infinities, NaN, the
      [OverflowError] of converting a huge [int]) and the sign of zero are
      not represented.
    - [datetime.now(timezone.utc)] reads a clock: the n-th reading made by
      the program returns [utcnow n], and the number of readings made so far
      is part of the state.
    - The methods mutate [self.memory] in place and may raise; a computation
      is a function from the state to an outcome that carries the state
      reached, also when an exception is raised.
    - An action record, and an item of an extraction payload, is a dict
      from strings to strings (the JSON objects that the two clients are
      asked for); a payload is a dict from group names to lists of items.
    - [config/aspects.py] and [config/confidence.py] are not part of the
      sources at hand: [ASPECTS] and [STRENGTH_TO_CONF] are parameters. *)

From Stdlib Require Import Ascii String QArith Qabs Qround Qpower Qminmax Lqa.
From Stdlib Require Import PrimFloat SpecFloat FloatOps.
From stdpp Require Import gmap strings list fin_maps.

Local Open Scope string_scope.

(** ** Python values *)

Module Py.

(** [str.lower()], on ASCII. *)
Definition lower_ascii (c : ascii) : ascii :=
  let n := nat_of_ascii c in
  if (65 <=? n)%nat && (n <=? 90)%nat then ascii_of_nat (n + 32) else c.

Fixpoint lower (s : string) : string :=
  match s with
  | EmptyString => EmptyString
  | String c s' => String (lower_ascii c) (lower s')
  end.

(** Truth value of the result of [d.get(k)] for string values: [None] and
    the empty string are falsy.  [truthy o] is the string when it is
    truthy. *)
Definition truthy (o : option string) : option string :=
  match o with
  | Some s => if String.eqb s "" then None else Some s
  | None => None
  end.

(** [a < b] on floats. *)
Definition ltb (a b : Q) : bool := negb (Qle_bool b a).

(** The builtin [max(a, b)]: the first argument unless the second is
    strictly greater. *)
Definition max (a b : Q) : Q := if ltb a b then b else a.

End Py.

(** ** Binary64 arithmetic

    The finite binary64 numbers are rationals, and an operation of the
    interpreter on finite floats is the exact operation followed by
    rounding to the nearest binary64 number, ties to the one with an even
    significand. *)

Module B64.

(** [2^k] for an integer exponent. *)
Definition pow2 (k : Z) : Q := Qpower 2 k.

(** The binary exponent of a positive rational:
    [2^(ilog2 x) <= x < 2^(ilog2 x + 1)]. *)
Definition ilog2 (x : Q) : Z :=
  let k := (Z.log2 (Qnum x) - Z.log2 (Zpos (Qden x)))%Z in
  if Qle_bool (pow2 k) x then k else (k - 1)%Z.

(** The integer nearest to [y], the even one of the two when [y] lies half
    way between them. *)
Definition nearest_even (y : Q) : Z :=
  let f := Qfloor y in
  match ((y - inject_Z f) ?= (1#2))%Q with
  | Lt => f
  | Gt => (f + 1)%Z
  | Eq => if Z.even f then f else (f + 1)%Z
  end.

(** The exponent of the unit in the last place of [x]: 53 significant bits,
    and no unit below [2^-1074]. *)
Definition ulp_exponent (x : Q) : Z := Z.max (ilog2 (Qabs x) - 52) (-1074).

(** Rounding to the nearest binary64 number. *)
Definition round (x : Q) : Q :=
  if Qeq_bool x 0 then 0%Q
  else let q := ulp_exponent x in
       Qred (inject_Z (nearest_even (x / pow2 q)) * pow2 q).

(** [float(n)], and the three operations on floats. *)
Definition of_int (n : Z) : Q := round (inject_Z n).
Definition mul (a b : Q) : Q := round (a * b).
Definition add (a b : Q) : Q := round (a + b).
Definition div (a b : Q) : Q := round (a / b).

(** The unit roundoff, [2^-53]. *)
Definition u : Q := pow2 (-53).

(** The rational that a finite float of the proof assistant's own binary64
    arithmetic is, for comparing [round] with the hardware. *)
Definition of_float (f : float) : option Q :=
  match Prim2SF f with
  | S754_zero _ => Some 0%Q
  | S754_finite s m e =>
      Some (Qred ((if s then -1 else 1) * inject_Z (Zpos m) * pow2 e))
  | _ => None
  end.

End B64.

(** ** Data model *)

(** The exceptions that the two mutating methods can raise. *)
Inductive exn := KeyError | ZeroDivisionError.

(** A memory entry, [{"confidence": _, "evidence": _, "last_seen": _}]. *)
Record MemoryEntry := {
  confidence : Q;
  evidence : Z;
  last_seen : Z
}.

Definition set_confidence (c : Q) (e : MemoryEntry) : MemoryEntry :=
  {| confidence := c; evidence := evidence e; last_seen := last_seen e |}.
Definition set_evidence (n : Z) (e : MemoryEntry) : MemoryEntry :=
  {| confidence := confidence e; evidence := n; last_seen := last_seen e |}.
Definition set_last_seen (t : Z) (e : MemoryEntry) : MemoryEntry :=
  {| confidence := confidence e; evidence := evidence e; last_seen := t |}.

(** [self.user_id] and [self.memory]: aspect -> value -> entry. *)
Record UserProfile := {
  user_id : string;
  memory : gmap string (gmap string MemoryEntry)
}.

(** [UserProfile.__init__]. *)
Definition init (uid : string) : UserProfile :=
  {| user_id := uid; memory := ∅ |}.

(** The state a method runs in: the profile object and the number of clock
    readings made so far. *)
Record State := {
  self : UserProfile;
  ticks : nat
}.

Definition with_memory (f : gmap string (gmap string MemoryEntry) →
                            gmap string (gmap string MemoryEntry))
    (st : State) : State :=
  {| self := {| user_id := user_id (self st); memory := f (memory (self st)) |};
     ticks := ticks st |}.

(** The state after one more clock reading. *)
Definition tick (st : State) : State :=
  {| self := self st; ticks := S (ticks st) |}.

(** ** Computations: state and exceptions *)

Inductive outcome (A : Type) :=
| Done (a : A) (st : State)
| Raised (e : exn) (st : State).
Arguments Done {A} a st.
Arguments Raised {A} e st.

Definition M (A : Type) := State → outcome A.

Definition ret {A} (a : A) : M A := λ st, Done a st.
Definition raise {A} (e : exn) : M A := λ st, Raised e st.
Definition bind {A B} (c : M A) (k : A → M B) : M B :=
  λ st, match c st with
        | Done a st' => k a st'
        | Raised e st' => Raised e st'
        end.

#[global] Instance M_ret : MRet M := @ret.
#[global] Instance M_bind : MBind M := λ A B k c, bind c k.

(** The state an outcome carries. *)
Definition final {A} (o : outcome A) : State :=
  match o with Done _ st => st | Raised _ st => st end.

(** [for x in l: body(x)]. *)
Fixpoint for_each {A} (body : A → M unit) (l : list A) : M unit :=
  match l with
  | [] => ret tt
  | x :: l' => body x ;; for_each body l'
  end.

(** *** Statements on [self.memory] *)

(** A write to [self.memory]. *)
Definition modify (f : gmap string (gmap string MemoryEntry) →
                       gmap string (gmap string MemoryEntry)) : M unit :=
  λ st, Done tt (with_memory f st).

(** [self.memory.setdefault(aspect, {})]. *)
Definition setdefault (aspect : string) : M unit :=
  modify (λ m, match m !! aspect with
               | Some _ => m
               | None => <[aspect := ∅]> m
               end).

(** [self.memory[aspect]]. *)
Definition bucket (aspect : string) : M (gmap string MemoryEntry) :=
  λ st, match memory (self st) !! aspect with
        | Some b => Done b st
        | None => Raised KeyError st
        end.

(** [value in self.memory[aspect]]. *)
Definition contains (aspect value : string) : M bool :=
  b ← bucket aspect; ret (bool_decide (is_Some (b !! value))).

(** [self.memory[aspect][value]]. *)
Definition getitem (aspect value : string) : M MemoryEntry :=
  b ← bucket aspect;
  match b !! value with
  | Some e => ret e
  | None => raise KeyError
  end.

(** [self.memory[aspect][value] = e]. *)
Definition setitem (aspect value : string) (e : MemoryEntry) : M unit :=
  b ← bucket aspect;
  modify (insert aspect (<[value := e]> b)).

(** [del self.memory[aspect][value]]. *)
Definition delitem (aspect value : string) : M unit :=
  b ← bucket aspect;
  match b !! value with
  | Some _ => modify (insert aspect (delete value b))
  | None => raise KeyError
  end.

(** [self.memory[aspect][value][field] = x]: the entry object is looked up,
    then updated in place. *)
Definition update (aspect value : string) (f : MemoryEntry → MemoryEntry)
    : M unit :=
  e ← getitem aspect value; setitem aspect value (f e).

(** [d[k]] on a dict of strings. *)
Definition subscript {V} (d : gmap string V) (k : string) : M V :=
  match d !! k with
  | Some v => ret v
  | None => raise KeyError
  end.

Section Engine.

(** [config.aspects.ASPECTS] and [config.confidence.STRENGTH_TO_CONF]. *)
Variable ASPECTS : list string.
Variable STRENGTH_TO_CONF : gmap string Q.

(** The wall clock: [utcnow n] is the n-th reading. *)
Variable utcnow : nat → Z.

(** [datetime.now(timezone.utc)]. *)
Definition datetime_now : M Z :=
  λ st, Done (utcnow (ticks st)) (tick st).

(** *** [has_memory] and [get_memory_view] *)

Definition has_memory (p : UserProfile) : bool :=
  negb (bool_decide (memory p = ∅)).

(** [list(values.keys())]. *)
Definition keys (values : gmap string MemoryEntry) : list string :=
  (map_to_list values).*1.

Definition get_memory_view (p : UserProfile) : gmap string (list string) :=
  omap (λ values, if decide (values = ∅) then None else Some (keys values))
       (memory p).

(** *** [ingest_extracted_preferences] *)

(** The body of the inner loop, for one [pref]. *)
Definition ingest_pref (pref : gmap string string) : M unit :=
  aspect ← subscript pref "aspect";
  value ← subscript pref "value";
  let value := Py.lower value in
  strength ← subscript pref "strength";
  setdefault aspect ;;
  conf ← subscript STRENGTH_TO_CONF strength;
  now ← datetime_now;
  setitem aspect value
    {| confidence := conf; evidence := 1; last_seen := now |}.

Definition ingest_extracted_preferences
    (extracted_prefs : gmap string (list (gmap string string))) : M unit :=
  for_each
    (λ group, for_each ingest_pref (default [] (extracted_prefs !! group)))
    ["hard_preferences"; "soft_preferences"].

(** *** [apply_actions] *)

(** Line 49: [STRENGTH_TO_CONF.get(act.get("strength", "medium"), 0.6)]. *)
Definition resolve_strength (act : gmap string string) : Q :=
  default (3#5)%Q
    (STRENGTH_TO_CONF !! default "medium" (act !! "strength")).

(** The new confidence of a reinforced entry (lines 61-63),
    [(entry["confidence"] * entry["evidence"] + strength) /
     (entry["evidence"] + 1)], in binary64: [c] and [strength] are read as
    the floats they stand for, the two [int] operands are converted to
    floats, and the product, the sum and the quotient are each rounded. *)
Definition reinforced (c : Q) (e : Z) (strength : Q) : Q :=
  B64.div
    (B64.add (B64.mul (B64.round c) (B64.of_int e)) (B64.round strength))
    (B64.of_int (e + 1)).

(** The same expression in exact arithmetic. *)
Definition weighted_mean (c : Q) (e : Z) (strength : Q) : Q :=
  ((c * inject_Z e + strength) / inject_Z (e + 1))%Q.

(** The new confidence of a weakened entry (lines 68-71). *)
Definition weakened (c : Q) : Q := Py.max (1#20)%Q (c * (3#5))%Q.

(** Lines 85-92: [value] is absorbed into [target]. *)
Definition absorb (aspect value target : string) : M unit :=
  t ← getitem aspect target;
  v ← getitem aspect value;
  update aspect target
    (set_confidence (Py.max (confidence t) (confidence v))) ;;
  t ← getitem aspect target;
  v ← getitem aspect value;
  update aspect target (set_evidence (evidence t + evidence v)) ;;
  delitem aspect value.

(** The [merge] branch (lines 75-94), after [target] was found truthy. *)
Definition merge (now : Z) (aspect value target : string) : M unit :=
  let target := Py.lower target in
  target_present ← contains aspect target;
  if negb target_present then ret tt else
  value_present ← contains aspect value;
  (if value_present : bool
   then absorb aspect value target
   else ret tt) ;;
  update aspect target (set_last_seen now).

(** Lines 52-94: the dispatch on [action], once the record has passed the
    checks and the bucket of [aspect] exists.  The membership test of lines
    52, 59 and 67 is made once: nothing changes the bucket between them. *)
Definition dispatch (now : Z) (act : gmap string string)
    (action aspect value : string) (strength : Q) : M unit :=
  present ← contains aspect value;
  if String.eqb action "add" && negb present then
    setitem aspect value
      {| confidence := strength; evidence := 1; last_seen := now |}
  else if String.eqb action "reinforce" && present then
    entry ← getitem aspect value;
    (if (evidence entry + 1 =? 0)%Z
     then raise ZeroDivisionError
     else update aspect value
            (set_confidence
               (reinforced (confidence entry) (evidence entry) strength))) ;;
    entry ← getitem aspect value;
    update aspect value (set_evidence (evidence entry + 1)) ;;
    update aspect value (set_last_seen now)
  else if String.eqb action "weaken" && present then
    entry ← getitem aspect value;
    update aspect value (set_confidence (weakened (confidence entry))) ;;
    update aspect value (set_last_seen now)
  else if String.eqb action "merge" then
    match Py.truthy (act !! "target") with
    | Some target => merge now aspect value target
    | None => ret tt
    end
  else ret tt.

(** The body of the loop of [apply_actions], for one [act] (lines 38-94). *)
Definition apply_action (now : Z) (act : gmap string string) : M unit :=
  match Py.truthy (act !! "action"), Py.truthy (act !! "aspect"),
        Py.truthy (act !! "value") with
  | Some action, Some aspect, Some value =>
    if negb (bool_decide (aspect ∈ ASPECTS)) then ret tt else
    let value := Py.lower value in
    let strength := resolve_strength act in
    setdefault aspect ;;
    dispatch now act action aspect value strength
  | _, _, _ => ret tt
  end.

Definition apply_actions (actions : list (gmap string string)) : M unit :=
  now ← datetime_now;
  for_each (apply_action now) actions.

(** *** Vocabulary of the statements *)

(** [act] is a record for [(action, aspect, value)] that passes the checks
    of lines 42-46: its three keys are truthy, the aspect is in the
    vocabulary, and [value] is the lower-cased value of the record. *)
Definition is_record (act : gmap string string)
    (action aspect value : string) : Prop :=
  Py.truthy (act !! "action") = Some action ∧
  Py.truthy (act !! "aspect") = Some aspect ∧
  aspect ∈ ASPECTS ∧
  ∃ v0, Py.truthy (act !! "value") = Some v0 ∧ Py.lower v0 = value.

(** The items of a payload, in the order in which they are ingested. *)
Definition items (extracted_prefs : gmap string (list (gmap string string)))
    : list (gmap string string) :=
  default [] (extracted_prefs !! "hard_preferences") ++
  default [] (extracted_prefs !! "soft_preferences").

(** A well-formed item has the three keys and a strength label of the
    table; it then stands for an aspect, a lower-cased value and a
    confidence. *)
Definition parse_pref (pref : gmap string string)
    : option (string * string * Q) :=
  aspect ← pref !! "aspect";
  value ← pref !! "value";
  strength ← pref !! "strength";
  q ← STRENGTH_TO_CONF !! strength;
  Some (aspect, Py.lower value, q).

Definition well_formed
    (extracted_prefs : gmap string (list (gmap string string))) : Prop :=
  Forall (λ pref, is_Some (parse_pref pref)) (items extracted_prefs).

(** [act] is a [merge] record for [(aspect, value)] whose truthy target
    lower-cases to [target]. *)
Definition is_merge (act : gmap string string)
    (aspect value target : string) : Prop :=
  is_record act "merge" aspect value ∧
  ∃ t0, Py.truthy (act !! "target") = Some t0 ∧ Py.lower t0 = target.

(** The effect of [dispatch] on the bucket [b] of the aspect, as a function:
    the exception raised, if any, and the bucket reached ([dispatch_run]
    proves that [dispatch] computes exactly this). *)
Definition bucket_step (now : Z) (act : gmap string string)
    (action value : string) (strength : Q) (b : gmap string MemoryEntry)
    : option exn * gmap string MemoryEntry :=
  if String.eqb action "add" && negb (bool_decide (is_Some (b !! value))) then
    (None, <[value := {| confidence := strength; evidence := 1;
                         last_seen := now |}]> b)
  else if String.eqb action "reinforce"
          && bool_decide (is_Some (b !! value)) then
    match b !! value with
    | Some e =>
        if (evidence e + 1 =? 0)%Z then (Some ZeroDivisionError, b)
        else (None,
              <[value := {| confidence :=
                              reinforced (confidence e) (evidence e) strength;
                            evidence := evidence e + 1;
                            last_seen := now |}]> b)
    | None => (None, b)
    end
  else if String.eqb action "weaken"
          && bool_decide (is_Some (b !! value)) then
    match b !! value with
    | Some e =>
        (None, <[value := {| confidence := weakened (confidence e);
                             evidence := evidence e;
                             last_seen := now |}]> b)
    | None => (None, b)
    end
  else if String.eqb action "merge" then
    match Py.truthy (act !! "target") with
    | Some target =>
        let target := Py.lower target in
        match b !! target, b !! value with
        | None, _ => (None, b)
        | Some t, None => (None, <[target := set_last_seen now t]> b)
        | Some t, Some v =>
            if decide (value = target)
            then (Some KeyError, delete value b)
            else (None,
                  <[target := {| confidence :=
                                   Py.max (confidence t) (confidence v);
                                 evidence := evidence t + evidence v;
                                 last_seen := now |}]> (delete value b))
        end
    | None => (None, b)
    end
  else (None, b).

(** The outcome that stores bucket [b] under [aspect]. *)
Definition store (aspect : string) (r : option exn * gmap string MemoryEntry)
    (st : State) : outcome unit :=
  match r.1 with
  | None => Done tt (with_memory (insert aspect r.2) st)
  | Some x => Raised x (with_memory (insert aspect r.2) st)
  end.

End Engine.

(** ** Observations of a state *)

(** [self.memory[aspect][value]], when both keys exist. *)
Definition entry_at (st : State) (aspect value : string)
    : option MemoryEntry :=
  memory (self st) !! aspect ≫= λ b, b !! value.

(** [len(self.memory[aspect])], 0 when the aspect has no bucket. *)
Definition value_count (st : State) (aspect : string) : nat :=
  size (default ∅ (memory (self st) !! aspect)).

(** The data model asks for [evidence >= 1] in every entry. *)
Definition valid (st : State) : Prop :=
  ∀ aspect value e, entry_at st aspect value = Some e → (1 ≤ evidence e)%Z.

(** The memory without its timestamps: the confidence and the evidence of
    every entry. *)
Definition beliefs (st : State) : gmap string (gmap string (Q * Z)) :=
  fmap (M := gmap string)
    (fmap (M := gmap string) (λ e, (confidence e, evidence e)))
    (memory (self st)).

(** Overwriting the belief about [(aspect, value)] with confidence [q] and
    evidence 1, what ingesting one item does to [beliefs]. *)
Definition learn (bm : gmap string (gmap string (Q * Z)))
    (item : string * string * Q) : gmap string (gmap string (Q * Z)) :=
  let '(aspect, value, q) := item in
  <[aspect := <[value := (q, 1%Z)]> (default ∅ (bm !! aspect))]> bm.

(** The belief about [(aspect, value)]. *)
Definition belief_at (bm : gmap string (gmap string (Q * Z)))
    (aspect value : string) : option (Q * Z) :=
  bm !! aspect ≫= λ b, b !! value.

(** [valid], for one bucket. *)
Definition bucket_valid (b : gmap string MemoryEntry) : Prop :=
  ∀ value e, b !! value = Some e → (1 ≤ evidence e)%Z.

(** ** An auxiliary bound *)

(** [ceiling k] bounds the confidences that reach the floor 0.05 within
    [S k] weakenings: 1/12 at first, 5/3 times more with each step. *)
Fixpoint ceiling (k : nat) : Q :=
  match k with O => 1#12 | S k' => ceiling k' * (5#3) end.

(** ** More observations of a state *)

(** Confidences between 0 and 1, in a bucket. *)
Definition bucket_bounded (b : gmap string MemoryEntry) : Prop :=
  ∀ value e, b !! value = Some e → (0 <= confidence e)%Q ∧ (confidence e <= 1)%Q.

(** Confidences between 0 and 1, in the whole memory. *)
Definition bounded (st : State) : Prop :=
  ∀ aspect value e, entry_at st aspect value = Some e →
    (0 <= confidence e)%Q ∧ (confidence e <= 1)%Q.

(** The sum of the evidence counts of a bucket, and of the memory. *)
Definition bucket_evidence (b : gmap string MemoryEntry) : Z :=
  map_fold (λ _ e k, (evidence e + k)%Z) 0%Z b.

Definition total_evidence (st : State) : Z :=
  map_fold (λ _ b n, (bucket_evidence b + n)%Z) 0%Z (memory (self st)).

(** Two outcomes of the same kind whose states have the same beliefs. *)
Definition alike (o1 o2 : outcome unit) : Prop :=
  match o1, o2 with
  | Done _ st1, Done _ st2 => beliefs st1 = beliefs st2
  | Raised x st1, Raised y st2 => x = y ∧ beliefs st1 = beliefs st2
  | _, _ => False
  end.

(** ** [sessions/conversation_parser.py] *)

(** What a function that may raise returns. *)
Inductive result (A : Type) :=
| Returned (a : A)
| Failed (e : exn).
Arguments Returned {A} a.
Arguments Failed {A} e.

(** Line 7, [combined[turn["user_id"]].append(turn["text"])], on the
    [defaultdict(list)]: the list of the user is created when missing.  A
    turn is a dict from strings to strings. *)
Definition combine_turn (combined : gmap string (list string))
    (turn : gmap string string) : result (gmap string (list string)) :=
  match turn !! "user_id" with
  | None => Failed KeyError
  | Some user_id =>
      let texts := default [] (combined !! user_id) in
      match turn !! "text" with
      | None => Failed KeyError
      | Some text => Returned (<[user_id := (texts ++ [text])%list]> combined)
      end
  end.

(** The loop of lines 6-7. *)
Fixpoint combine_turns (combined : gmap string (list string))
    (conversation : list (gmap string string))
    : result (gmap string (list string)) :=
  match conversation with
  | [] => Returned combined
  | turn :: rest =>
      match combine_turn combined turn with
      | Returned combined' => combine_turns combined' rest
      | Failed e => Failed e
      end
  end.

Definition parse_and_combine_by_user
    (conversation : list (gmap string string))
    : result (gmap string (list string)) :=
  combine_turns ∅ conversation.

(** The texts of the turns of [user_id], in the order of the
    conversation. *)
Definition texts_of (user_id : string)
    (conversation : list (gmap string string)) : list string :=
  omap (λ turn, if decide (turn !! "user_id" = Some user_id)
                then turn !! "text" else None) conversation.

(** A turn with both keys. *)
Definition complete_turn (turn : gmap string string) : Prop :=
  is_Some (turn !! "user_id") ∧ is_Some (turn !! "text").

(** ** The search for the JSON text in the output of the model

    [re.search(r"\{[\s\S]*\}", text)] in [extract_preferences] and
    [re.search(r"\[[\s\S]*\]", text)] in [suggest_memory_actions], followed
    by [match.group()].  [[\s\S]*] matches any run of characters, as long as
    possible; the search returns the leftmost match. *)

(** The text after the first [c]. *)
Fixpoint after_first (c : ascii) (s : string) : option string :=
  match s with
  | EmptyString => None
  | String x s' => if Ascii.eqb x c then Some s' else after_first c s'
  end.

(** The text up to the last [c], included. *)
Fixpoint upto_last (c : ascii) (s : string) : option string :=
  match s with
  | EmptyString => None
  | String x s' =>
      match upto_last c s' with
      | Some r => Some (String x r)
      | None => if Ascii.eqb x c then Some (String x EmptyString) else None
      end
  end.

(** [re.search(opening [\s\S]* closing, text)], and [.group()] of the
    match. *)
Definition search_span (opening closing : ascii) (text : string)
    : option string :=
  rest ← after_first opening text;
  body ← upto_last closing rest;
  Some (String opening body).

(** The errors of the two clients before [json.loads]. *)
Inductive client_error := ValueError.

(** Lines 19-23 of [extract_preferences]: the text handed to
    [json.loads]. *)
Definition json_object_text (text : string) : client_error + string :=
  match search_span "{" "}" text with
  | Some m => inr m
  | None => inl ValueError
  end.

(** Lines 19-23 of [suggest_memory_actions]. *)
Definition json_array_text (text : string) : client_error + string :=
  match search_span "[" "]" text with
  | Some m => inr m
  | None => inl ValueError
  end.

(** [c in s]. *)
Fixpoint occurs (c : ascii) (s : string) : bool :=
  match s with
  | EmptyString => false
  | String x s' => Ascii.eqb x c || occurs c s'
  end.


(** ** A sample configuration

    A vocabulary, a strength table and a clock on which the general
    statements below are instantiated. *)

Module Sample.

Definition ASPECTS : list string := ["cuisine"; "price"; "dietary"].

Definition STRENGTH_TO_CONF : gmap string Q :=
  {[ "weak" := (3#10)%Q; "medium" := (3#5)%Q; "strong" := (9#10)%Q ]}.

Definition utcnow (n : nat) : Z := 1700000000 + Z.of_nat n.

(** A fresh profile, before any clock reading. *)
Definition fresh : State := {| self := init "u1"; ticks := 0 |}.

(** A state whose memory is [m]. *)
Definition state_of (m : gmap string (gmap string MemoryEntry)) : State :=
  {| self := {| user_id := "u1"; memory := m |}; ticks := 0 |}.

Definition entry (c : Q) (n : Z) : MemoryEntry :=
  {| confidence := c; evidence := n; last_seen := 0 |}.

(** Action records and payloads. *)
Definition record (action aspect value : string) : gmap string string :=
  {[ "action" := action; "aspect" := aspect; "value" := value ]}.

Definition record_with (action aspect value key x : string)
    : gmap string string :=
  <[key := x]> (record action aspect value).

Definition pref (aspect value strength : string) : gmap string string :=
  {[ "aspect" := aspect; "value" := value; "strength" := strength ]}.

Definition hard (prefs : list (gmap string string))
    : gmap string (list (gmap string string)) :=
  {[ "hard_preferences" := prefs ]}.

(** Memories of the scenarios. *)
Definition italian_only : gmap string (gmap string MemoryEntry) :=
  {[ "cuisine" := {[ "italian" := entry (3#5) 1 ]} ]}.

Definition two_cuisines : gmap string (gmap string MemoryEntry) :=
  {[ "cuisine" := {[ "mediterranean" := entry (1#2) 2;
                     "italian" := entry (4#5) 1 ]} ]}.

Definition well_known : gmap string (gmap string MemoryEntry) :=
  {[ "cuisine" := {[ "mediterranean" := entry (1#2) 2;
                     "italian" := entry (4#5) 3 ]} ]}.

Definition faint : gmap string (gmap string MemoryEntry) :=
  {[ "cuisine" := {[ "italian" := entry (1#10) 1 ]} ]}.

(** A strength table whose entry for "medium" is not 0.6. *)
Definition HALF_MEDIUM : gmap string Q := {[ "medium" := (1#2)%Q ]}.

End Sample.

(** ** More sample data *)

Module Cases.

(** Records that are dropped at line 42. *)
Definition no_value : gmap string string :=
  {[ "action" := "add"; "aspect" := "cuisine" ]}.
Definition empty_action : gmap string string :=
  {[ "action" := ""; "aspect" := "cuisine"; "value" := "Sushi" ]}.

(** A payload with one good item, one item without "strength", one more
    good item. *)
Definition broken_payload : gmap string (list (gmap string string)) :=
  {[ "hard_preferences" :=
       [ Sample.pref "cuisine" "Italian" "strong";
         {[ "aspect" := "price"; "value" := "Cheap" ]} ];
     "soft_preferences" := [ Sample.pref "dietary" "Vegan" "weak" ] ]}.

(** A payload that names "italian" twice. *)
Definition twice_italian : gmap string (list (gmap string string)) :=
  {[ "hard_preferences" := [ Sample.pref "cuisine" "Italian" "weak" ];
     "soft_preferences" := [ Sample.pref "price" "Cheap" "medium";
                             Sample.pref "cuisine" "ITALIAN" "strong" ] ]}.

(** A conversation of three turns by two users. *)
Definition turn (user_id text : string) : gmap string string :=
  {[ "user_id" := user_id; "text" := text ]}.
Definition dinner : list (gmap string string) :=
  [ turn "ann" "I love sushi"; turn "bob" "Nothing spicy";
    turn "ann" "Not too expensive" ].

(** The output of a model around its JSON object. *)
Definition chatty : string := "Here: {a} and {b}, done.".

End Cases.

(** ** Running the statements *)

Section Statements.

Implicit Types (st : State) (m : gmap string (gmap string MemoryEntry))
  (b : gmap string MemoryEntry) (e : MemoryEntry) (a v : string).

Lemma bind_Done {A B} (c : M A) (k : A → M B) st x st' :
  c st = Done x st' → (c ≫= k) st = k x st'.
Proof. intros H. unfold mbind, M_bind, bind. by rewrite H. Qed.

Lemma bind_Raised {A B} (c : M A) (k : A → M B) st x st' :
  c st = Raised x st' → (c ≫= k) st = Raised x st'.
Proof. intros H. unfold mbind, M_bind, bind. by rewrite H. Qed.

Lemma with_memory_id f st :
  f (memory (self st)) = memory (self st) → with_memory f st = st.
Proof. destruct st as [[u m] t]. unfold with_memory. simpl. by intros ->. Qed.

Lemma bucket_run a b st :
  memory (self st) !! a = Some b → bucket a st = Done b st.
Proof. intros H. unfold bucket. by rewrite H. Qed.

Lemma contains_run a v b st :
  memory (self st) !! a = Some b →
  contains a v st = Done (bool_decide (is_Some (b !! v))) st.
Proof. intros H. unfold contains. by rewrite (bind_Done _ _ _ _ _ (bucket_run _ _ _ H)). Qed.

Lemma getitem_run a v b e st :
  memory (self st) !! a = Some b → b !! v = Some e →
  getitem a v st = Done e st.
Proof.
  intros H Hv. unfold getitem.
  rewrite (bind_Done _ _ _ _ _ (bucket_run _ _ _ H)). by rewrite Hv.
Qed.

Lemma getitem_missing a v b st :
  memory (self st) !! a = Some b → b !! v = None →
  getitem a v st = Raised KeyError st.
Proof.
  intros H Hv. unfold getitem.
  rewrite (bind_Done _ _ _ _ _ (bucket_run _ _ _ H)). by rewrite Hv.
Qed.

Lemma setitem_run a v b e st :
  memory (self st) !! a = Some b →
  setitem a v e st = Done tt (with_memory (insert a (<[v := e]> b)) st).
Proof.
  intros H. unfold setitem.
  by rewrite (bind_Done _ _ _ _ _ (bucket_run _ _ _ H)).
Qed.

Lemma delitem_run a v b e st :
  memory (self st) !! a = Some b → b !! v = Some e →
  delitem a v st = Done tt (with_memory (insert a (delete v b)) st).
Proof.
  intros H Hv. unfold delitem.
  rewrite (bind_Done _ _ _ _ _ (bucket_run _ _ _ H)). by rewrite Hv.
Qed.

Lemma update_run a v b e f st :
  memory (self st) !! a = Some b → b !! v = Some e →
  update a v f st = Done tt (with_memory (insert a (<[v := f e]> b)) st).
Proof.
  intros H Hv. unfold update.
  rewrite (bind_Done _ _ _ _ _ (getitem_run _ _ _ _ _ H Hv)).
  by apply setitem_run.
Qed.

Lemma update_missing a v b f st :
  memory (self st) !! a = Some b → b !! v = None →
  update a v f st = Raised KeyError st.
Proof.
  intros H Hv. unfold update.
  by rewrite (bind_Raised _ _ _ _ _ (getitem_missing _ _ _ _ H Hv)).
Qed.

(** After [setdefault], the bucket of the aspect exists: it is the old one,
    or a new empty one. *)
Lemma setdefault_run a st :
  setdefault a st =
  Done tt (with_memory
             (insert a (default ∅ (memory (self st) !! a))) st).
Proof.
  unfold setdefault, modify. f_equal. unfold with_memory. do 2 f_equal.
  destruct (memory (self st) !! a) as [b|] eqn:H; simpl; [|done].
  by rewrite insert_id.
Qed.

Lemma lookup_stored a b st :
  memory (self (with_memory (insert a b) st)) !! a = Some b.
Proof. simpl. apply lookup_insert_eq. Qed.

Lemma stored_stored a b b' st :
  with_memory (insert a b') (with_memory (insert a b) st) =
  with_memory (insert a b') st.
Proof. unfold with_memory. simpl. by rewrite insert_insert_eq. Qed.

Lemma stored_id a b st :
  memory (self st) !! a = Some b → with_memory (insert a b) st = st.
Proof. intros H. apply with_memory_id. by apply insert_id. Qed.

(** One step of a computation, by the lemma [lem] that runs its first
    statement. *)
Ltac run lem :=
  first [ erewrite bind_Done by (eapply lem; eauto using lookup_stored)
        | erewrite bind_Raised by (eapply lem; eauto using lookup_stored) ];
  cbn beta.

Lemma absorb_run a v tg b t e st :
  memory (self st) !! a = Some b → b !! tg = Some t → b !! v = Some e →
  absorb a v tg st =
  Done tt
    (with_memory
       (insert a
          (delete v
             (<[tg := {| confidence := Py.max (confidence t) (confidence e);
                         evidence := evidence t + evidence e;
                         last_seen := last_seen t |}]> b))) st).
Proof.
  intros Hb Ht Hv. unfold absorb.
  run getitem_run. run getitem_run. run update_run.
  set (t1 := set_confidence _ t).
  assert (∃ e1, <[tg:=t1]> b !! v = Some e1 ∧ evidence e1 = evidence e)
    as (e1 & Hv1 & He1).
  { destruct (decide (tg = v)) as [->|Hne].
    - rewrite lookup_insert_eq. exists t1. split; [done|]. simpl. congruence.
    - rewrite lookup_insert_ne by done. eauto. }
  erewrite bind_Done
    by (eapply getitem_run; [apply lookup_stored | apply lookup_insert_eq]).
  erewrite bind_Done by (eapply getitem_run; [apply lookup_stored | apply Hv1]).
  erewrite bind_Done
    by (eapply update_run; [apply lookup_stored | apply lookup_insert_eq]).
  rewrite stored_stored, insert_insert_eq.
  assert (is_Some (<[tg:=set_evidence (evidence t1 + evidence e1) t1]> b !! v))
    as [e2 Hv2].
  { destruct (decide (tg = v)) as [->|Hne].
    - rewrite lookup_insert_eq. eauto.
    - rewrite lookup_insert_ne by done. eauto. }
  erewrite delitem_run; [| apply lookup_stored | apply Hv2].
  rewrite stored_stored. unfold set_evidence, t1. simpl. by rewrite He1.
Qed.

Lemma merge_run now a v target b st :
  memory (self st) !! a = Some b →
  merge now a v target st =
  store a
    (match b !! Py.lower target, b !! v with
     | None, _ => (None, b)
     | Some t, None => (None, <[Py.lower target := set_last_seen now t]> b)
     | Some t, Some e =>
         if decide (v = Py.lower target)
         then (Some KeyError, delete v b)
         else (None,
               <[Py.lower target :=
                   {| confidence := Py.max (confidence t) (confidence e);
                      evidence := evidence t + evidence e;
                      last_seen := now |}]> (delete v b))
     end) st.
Proof.
  intros Hb. unfold merge, store. set (tg := Py.lower target).
  run contains_run.
  destruct (b !! tg) as [t|] eqn:Ht; simpl.
  2:{ by rewrite stored_id. }
  run contains_run.
  destruct (b !! v) as [e|] eqn:Hv; simpl.
  2:{ erewrite bind_Done by reflexivity. by erewrite update_run. }
  erewrite bind_Done by (by eapply absorb_run).
  destruct (decide (v = tg)) as [->|Hne]; simpl.
  - rewrite delete_insert_eq.
    erewrite update_missing; [done | apply lookup_stored | apply lookup_delete_eq].
  - rewrite delete_insert_ne by done.
    erewrite update_run; [| apply lookup_stored | apply lookup_insert_eq].
    by rewrite stored_stored, insert_insert_eq.
Qed.

(** [dispatch] computes [bucket_step] on the bucket of the aspect. *)
Lemma dispatch_run now act action a v s b st :
  memory (self st) !! a = Some b →
  dispatch now act action a v s st =
  store a (bucket_step now act action v s b) st.
Proof.
  intros Hb. unfold dispatch, bucket_step.
  run contains_run.
  destruct (String.eqb action "add" && negb (bool_decide (is_Some (b !! v)))).
  { by erewrite setitem_run. }
  destruct (String.eqb action "reinforce" && bool_decide (is_Some (b !! v)))
    eqn:Hre.
  { apply andb_true_iff in Hre as [_ [e He]%bool_decide_eq_true].
    rewrite He. run getitem_run.
    destruct (evidence e + 1 =? 0)%Z.
    { unfold store. simpl. erewrite bind_Raised by reflexivity.
      by rewrite stored_id. }
    run update_run.
    erewrite bind_Done
      by (eapply getitem_run; [apply lookup_stored | apply lookup_insert_eq]).
    erewrite bind_Done
      by (eapply update_run; [apply lookup_stored | apply lookup_insert_eq]).
    erewrite update_run; [| apply lookup_stored | apply lookup_insert_eq].
    by rewrite !stored_stored, !insert_insert_eq. }
  destruct (String.eqb action "weaken" && bool_decide (is_Some (b !! v)))
    eqn:Hwe.
  { apply andb_true_iff in Hwe as [_ [e He]%bool_decide_eq_true].
    rewrite He. run getitem_run. run update_run.
    erewrite update_run; [| apply lookup_stored | apply lookup_insert_eq].
    by rewrite !stored_stored, !insert_insert_eq. }
  destruct (String.eqb action "merge").
  2:{ unfold store. simpl. by rewrite stored_id. }
  destruct (Py.truthy (act !! "target")) as [target|].
  2:{ unfold store. simpl. by rewrite stored_id. }
  by apply merge_run.
Qed.

Lemma size_delete_present b v e :
  b !! v = Some e → S (size (delete v b)) = size b.
Proof.
  intros H. rewrite <- (insert_delete_id b v e H) at 2.
  by rewrite map_size_insert_None by apply lookup_delete_eq.
Qed.

Lemma store_stored a r b st :
  store a r (with_memory (insert a b) st) = store a r st.
Proof. unfold store. destruct r.1; by rewrite stored_stored. Qed.

End Statements.

(** ** Python values: basic facts *)

Section PyFacts.

Lemma truthy_Some o s : Py.truthy o = Some s ↔ o = Some s ∧ s ≠ "".
Proof.
  unfold Py.truthy. destruct o as [s'|].
  - destruct (String.eqb_spec s' "") as [->|Hne]; split.
    + discriminate.
    + intros [[= ->] Hs]. by destruct Hs.
    + by intros [= ->].
    + by intros [-> _].
  - split; [discriminate | by intros [? _]].
Qed.

Lemma ltb_lt a b : Py.ltb a b = true ↔ (a < b)%Q.
Proof.
  unfold Py.ltb. rewrite negb_true_iff, <- not_true_iff_false, Qle_bool_iff.
  split; [apply Qnot_le_lt | apply Qlt_not_le].
Qed.

Lemma max_ge_l a b : (a <= Py.max a b)%Q.
Proof.
  unfold Py.max. destruct (Py.ltb a b) eqn:H.
  - apply Qlt_le_weak. by apply ltb_lt.
  - apply Qle_refl.
Qed.

Lemma max_ge_r a b : (b <= Py.max a b)%Q.
Proof.
  unfold Py.max. destruct (Py.ltb a b) eqn:H.
  - apply Qle_refl.
  - apply Qnot_lt_le. intros Hlt. apply ltb_lt in Hlt. congruence.
Qed.

Lemma max_cases a b : Py.max a b = a ∨ Py.max a b = b.
Proof. unfold Py.max. destruct (Py.ltb a b); auto. Qed.

(** Python's [max] is the mathematical maximum. *)
Lemma max_Qmax a b : (Py.max a b == Qmax a b)%Q.
Proof.
  apply Qle_antisym.
  - destruct (max_cases a b) as [-> | ->];
      [apply Q.le_max_l | apply Q.le_max_r].
  - apply Q.max_lub; [apply max_ge_l | apply max_ge_r].
Qed.

End PyFacts.

(** ** Rounding to binary64 *)

Section Binary64.

Import B64.

Lemma pow2_pos k : (0 < pow2 k)%Q.
Proof. apply Qpower_0_lt. reflexivity. Qed.

Lemma pow2_add j k : (pow2 (j + k) == pow2 j * pow2 k)%Q.
Proof. apply Qpower_plus. discriminate. Qed.

Lemma pow2_succ k : (pow2 (k + 1) == 2 * pow2 k)%Q.
Proof. rewrite pow2_add. change (pow2 1) with 2%Q. ring. Qed.

Lemma pow2_inject k : (0 ≤ k)%Z → (inject_Z (2 ^ k) == pow2 k)%Q.
Proof. intros H. by rewrite Zpower_Qpower. Qed.

Lemma pow2_lt_inv j k : (pow2 j < pow2 k)%Q → (j < k)%Z.
Proof. intros H. by apply (Qpower_lt_compat_l_inv 2). Qed.

Lemma Q_as_fraction x : (x * inject_Z (Zpos (Qden x)) == inject_Z (Qnum x))%Q.
Proof. destruct x as [n d]. unfold Qeq. simpl. lia. Qed.

(** [ilog2] is the binary exponent. *)
Lemma ilog2_spec x :
  (0 < x)%Q → (pow2 (ilog2 x) <= x)%Q ∧ (x < pow2 (ilog2 x + 1))%Q.
Proof.
  intros Hx.
  assert (0 < Qnum x)%Z as Hn.
  { destruct x as [n d]. unfold Qlt in Hx. simpl in *. lia. }
  pose proof (Z.log2_spec _ Hn) as [Ha1 Ha2].
  pose proof (Z.log2_spec (Zpos (Qden x)) eq_refl) as [Hb1 Hb2].
  pose proof (Z.log2_nonneg (Qnum x)) as Ha0.
  pose proof (Z.log2_nonneg (Zpos (Qden x))) as Hb0.
  set (a := Z.log2 (Qnum x)) in *. set (b := Z.log2 (Zpos (Qden x))) in *.
  pose proof (Q_as_fraction x) as Hfrac.
  assert (pow2 a <= inject_Z (Qnum x))%Q as HA1.
  { rewrite <- pow2_inject by done. by rewrite <- Zle_Qle. }
  assert (inject_Z (Qnum x) < pow2 (a + 1))%Q as HA2.
  { rewrite <- pow2_inject by lia. rewrite <- Zlt_Qlt.
    by replace (a + 1)%Z with (Z.succ a) by lia. }
  assert (pow2 b <= inject_Z (Zpos (Qden x)))%Q as HB1.
  { rewrite <- pow2_inject by done. by rewrite <- Zle_Qle. }
  assert (inject_Z (Zpos (Qden x)) < pow2 (b + 1))%Q as HB2.
  { rewrite <- pow2_inject by lia. rewrite <- Zlt_Qlt.
    by replace (b + 1)%Z with (Z.succ b) by lia. }
  pose proof (pow2_pos b) as Hpb. pose proof (pow2_pos (a - b)) as Hpk.
  pose proof (pow2_pos (a - b - 1)) as Hpk1.
  assert (pow2 (a + 1) == pow2 (a - b) * (2 * pow2 b))%Q as E1.
  { rewrite <- pow2_succ, <- pow2_add.
    by replace (a - b + (b + 1))%Z with (a + 1)%Z by lia. }
  assert (pow2 a == pow2 (a - b - 1) * pow2 (b + 1))%Q as E2.
  { rewrite <- pow2_add. by replace (a - b - 1 + (b + 1))%Z with a by lia. }
  assert (pow2 (a - b) == 2 * pow2 (a - b - 1))%Q as E3.
  { rewrite <- pow2_succ. by replace (a - b - 1 + 1)%Z with (a - b)%Z by lia. }
  set (d := inject_Z (Zpos (Qden x))) in *. set (n := inject_Z (Qnum x)) in *.
  assert (0 < d)%Q as Hd by lra.
  assert (pow2 (a - b - 1) < x)%Q as Hlow.
  { destruct (Qlt_le_dec (pow2 (a - b - 1)) x) as [|Hc]; [done|]. exfalso.
    assert (x * d <= pow2 (a - b - 1) * d)%Q by nra.
    assert (pow2 (a - b - 1) * d < pow2 (a - b - 1) * pow2 (b + 1))%Q by nra.
    lra. }
  assert (x < 2 * pow2 (a - b))%Q as Hhigh.
  { destruct (Qlt_le_dec x (2 * pow2 (a - b))) as [|Hc]; [done|]. exfalso.
    assert (2 * pow2 (a - b) * d <= x * d)%Q by nra.
    assert (pow2 (a - b) * (2 * pow2 b) <= 2 * pow2 (a - b) * d)%Q by nra.
    lra. }
  unfold ilog2. fold a b.
  destruct (Qle_bool (pow2 (a - b)) x) eqn:Hle.
  - apply Qle_bool_iff in Hle. split; [done|]. by rewrite pow2_succ.
  - assert (x < pow2 (a - b))%Q as Hlt.
    { apply Qnot_le_lt. intros Hc. apply Qle_bool_iff in Hc. congruence. }
    split; [lra|]. by replace (a - b - 1 + 1)%Z with (a - b)%Z by lia.
Qed.

Lemma nearest_even_spec y :
  (Qabs (inject_Z (nearest_even y) - y) <= 1#2)%Q.
Proof.
  pose proof (Qfloor_le y) as H1. pose proof (Qlt_floor y) as H2.
  rewrite inject_Z_plus in H2. change (inject_Z 1) with 1%Q in H2.
  apply Qabs_Qle_condition. unfold nearest_even.
  destruct (Qcompare_spec (y - inject_Z (Qfloor y)) (1#2)) as [H|H|H].
  - destruct (Z.even (Qfloor y)).
    + lra.
    + rewrite inject_Z_plus. change (inject_Z 1) with 1%Q. lra.
  - lra.
  - rewrite inject_Z_plus. change (inject_Z 1) with 1%Q. lra.
Qed.

Lemma round_zero x : (x == 0)%Q → round x = 0%Q.
Proof. intros H. unfold round. apply Qeq_bool_iff in H. by rewrite H. Qed.

(** The rounding error is at most half a unit in the last place. *)
Lemma round_error x :
  ¬ (x == 0)%Q →
  (Qabs (round x - x) <= pow2 (ulp_exponent x) * (1#2))%Q.
Proof.
  intros Hx. unfold round.
  destruct (Qeq_bool x 0) eqn:H0; [by apply Qeq_bool_iff in H0|].
  set (q := ulp_exponent x). rewrite Qred_correct.
  pose proof (pow2_pos q) as Hq.
  pose proof (nearest_even_spec (x / pow2 q)) as Hn.
  set (m := inject_Z (nearest_even (x / pow2 q))) in *.
  assert (m * pow2 q - x == (m - x / pow2 q) * pow2 q)%Q as ->.
  { field. lra. }
  rewrite Qabs_Qmult, (Qabs_pos (pow2 q)) by lra.
  rewrite (Qmult_comm (pow2 q)). apply Qmult_le_compat_r; [done | lra].
Qed.

(** In the normal range, from [2^-1022] on, the error is relative. *)
Lemma round_relative x :
  (pow2 (-1022) <= Qabs x)%Q →
  (Qabs (round x - x) <= u * Qabs x)%Q.
Proof.
  intros Hx. pose proof (pow2_pos (-1022)) as Hp.
  assert (0 < Qabs x)%Q as Hpos by lra.
  assert (¬ (x == 0)%Q) as Hne.
  { intros E. rewrite E in Hpos. by vm_compute in Hpos. }
  eapply Qle_trans; [by apply round_error|].
  destruct (ilog2_spec _ Hpos) as [Hk1 Hk2].
  unfold ulp_exponent. set (k := ilog2 (Qabs x)) in *.
  assert (-1022 < k + 1)%Z as Hk by (apply pow2_lt_inv; lra).
  rewrite Z.max_l by lia.
  assert (pow2 (k - 52) * (1#2) == u * pow2 k)%Q as ->.
  { unfold u. rewrite <- pow2_add.
    replace (k - 52)%Z with (-53 + k + 1)%Z by lia.
    rewrite pow2_succ. ring. }
  apply Qmult_le_l; [apply pow2_pos | done].
Qed.

(** [round] and the operations agree with the binary64 arithmetic of the
    processor: on the literal 0.6, on a product, a quotient and a sum that
    are not exact, on the two ties at the smallest subnormal numbers and on
    the two ties above [2^53]. *)
Lemma round_matches_hardware :
  of_float 0x1.3333333333333p-1%float = Some (round (3#5)) ∧
  of_float (0x1.3333333333333p-1 * 6)%float
    = Some (mul (round (3#5)) (of_int 6)) ∧
  of_float (1 / 3)%float = Some (div 1 3) ∧
  of_float (0x1.999999999999ap-4 + 0x1.999999999999ap-3)%float
    = Some (add (round (1#10)) (round (1#5))) ∧
  of_float (0x1p-1074 / 2)%float = Some (div (pow2 (-1074)) 2) ∧
  of_float (0x3p-1074 / 2)%float = Some (div (3 * pow2 (-1074)) 2) ∧
  of_float (0x1p53 + 1)%float = Some (add (pow2 53) 1) ∧
  of_float (0x1p53 + 3)%float = Some (add (pow2 53) 3).
Proof. split_and!; vm_compute; reflexivity. Qed.

Lemma u_small : (0 < u)%Q ∧ (u <= 1#100)%Q.
Proof. by vm_compute. Qed.

(** A nonnegative number that is zero or in the normal range is rounded
    with a relative error of at most [u]. *)
Lemma round_between x :
  (x == 0)%Q ∨ (pow2 (-1022) <= x)%Q →
  (x * (1 - u) <= round x)%Q ∧ (round x <= x * (1 + u))%Q.
Proof.
  intros [H0|Hx].
  - rewrite (round_zero _ H0), H0. lra.
  - pose proof (pow2_pos (-1022)) as Hp.
    assert (Qabs x == x)%Q as Habs by (apply Qabs_pos; lra).
    pose proof (round_relative x) as H. rewrite Habs in H.
    specialize (H Hx). apply Qabs_Qle_condition in H. lra.
Qed.

Lemma of_int_between n :
  (0 ≤ n)%Z →
  (inject_Z n * (1 - u) <= of_int n)%Q ∧ (of_int n <= inject_Z n * (1 + u))%Q.
Proof.
  intros Hn. apply round_between.
  destruct (decide (n = 0%Z)) as [->|Hne]; [by left | right].
  apply Qle_trans with 1%Q; [by vm_compute|].
  change 1%Q with (inject_Z 1). rewrite <- Zle_Qle. lia.
Qed.

(** The stored weighted mean is within a few roundings of the interval of
    its operands: three operations and two conversions, each with a
    relative error of at most [u], and [2^-50 = 8 u]. *)
Lemma reinforced_near_bounds c e s :
  (pow2 (-900) <= round c)%Q →
  (pow2 (-900) <= round s)%Q →
  (0 ≤ e < 2 ^ 53)%Z →
  (Qmin (round c) (round s) * (1 - pow2 (-50)) <= reinforced c e s)%Q ∧
  (reinforced c e s <= Qmax (round c) (round s) * (1 + pow2 (-50)))%Q.
Proof.
  intros Hc Hs [He0 He1]. unfold reinforced, div, add, mul.
  destruct u_small as [Hu0 Hu1].
  assert (pow2 (-50) == 8 * u)%Q as -> by (by vm_compute).
  assert (0 < pow2 (-900))%Q as Hp900 by apply pow2_pos.
  assert (pow2 (-1022) <= pow2 (-900) * (1#4))%Q as Hp1 by (by vm_compute).
  assert (pow2 (-1022) * inject_Z (2 ^ 54) <= pow2 (-900) * (1#4))%Q as Hp2
    by (by vm_compute).
  pose proof (Q.le_min_l (round c) (round s)) as Hm1.
  pose proof (Q.le_min_r (round c) (round s)) as Hm2.
  pose proof (Q.le_max_l (round c) (round s)) as HM1.
  pose proof (Q.le_max_r (round c) (round s)) as HM2.
  assert (pow2 (-900) <= Qmin (round c) (round s))%Q as Hm0
    by (by apply Q.min_glb).
  set (m := Qmin (round c) (round s)) in *.
  set (M := Qmax (round c) (round s)) in *.
  set (c' := round c) in *. set (s' := round s) in *.
  (* the two conversions *)
  pose proof (of_int_between e He0) as [HE1 HE2].
  pose proof (of_int_between (e + 1) ltac:(lia)) as [HD1 HD2].
  rewrite inject_Z_plus in HD1, HD2. change (inject_Z 1) with 1%Q in HD1, HD2.
  assert (0 <= inject_Z e)%Q as HE0.
  { change 0%Q with (inject_Z 0). rewrite <- Zle_Qle. lia. }
  assert (inject_Z e + 1 <= inject_Z (2 ^ 53))%Q as HEmax.
  { change 1%Q with (inject_Z 1). rewrite <- inject_Z_plus, <- Zle_Qle. lia. }
  assert (inject_Z (2 ^ 54) == 2 * inject_Z (2 ^ 53))%Q as H54
    by (by vm_compute).
  assert (0 < inject_Z (2 ^ 53))%Q as H53 by (by vm_compute).
  set (E := inject_Z e) in *. set (E' := of_int e) in *.
  set (D := of_int (e + 1)) in *.
  set (B := inject_Z (2 ^ 53)) in *. set (B2 := inject_Z (2 ^ 54)) in *.
  (* the product *)
  assert ((c' * E' == 0)%Q ∨ (pow2 (-1022) <= c' * E')%Q) as HPn.
  { destruct (decide (e = 0%Z)) as [->|Hne].
    - left. subst E'. unfold of_int.
      rewrite (round_zero (inject_Z 0)) by done. ring.
    - right. assert (1 <= E)%Q.
      { subst E. change 1%Q with (inject_Z 1). rewrite <- Zle_Qle. lia. }
      assert ((1#2) <= E')%Q by nra. nra. }
  pose proof (round_between _ HPn) as [HP1 HP2].
  set (P := round (c' * E')) in *.
  assert (c' * E * ((1 - u) * (1 - u)) <= P)%Q as HP1'.
  { assert (c' * (E * (1 - u)) <= c' * E')%Q by (apply Qmult_le_l; lra).
    assert (c' * E' * (1 - u) <= P)%Q by lra.
    assert (c' * (E * (1 - u)) * (1 - u) <= c' * E' * (1 - u))%Q
      by (apply Qmult_le_compat_r; lra).
    lra. }
  assert (P <= c' * E * ((1 + u) * (1 + u)))%Q as HP2'.
  { assert (c' * E' <= c' * (E * (1 + u)))%Q by (apply Qmult_le_l; lra).
    assert (c' * E' * (1 + u) <= c' * (E * (1 + u)) * (1 + u))%Q
      by (apply Qmult_le_compat_r; lra).
    lra. }
  assert (0 <= c' * E)%Q as HcE by (apply Qmult_le_0_compat; lra).
  assert (0 <= P)%Q as HP0.
  { assert (0 <= (1 - u) * (1 - u))%Q by nra.
    assert (0 <= c' * E * ((1 - u) * (1 - u)))%Q
      by (by apply Qmult_le_0_compat).
    lra. }
  clearbody P. clear HPn HP1 HP2.
  (* the sum *)
  pose proof (round_between (P + s') ltac:(right; lra)) as [HN1 HN2].
  set (N := round (P + s')) in *. clearbody N.
  (* the quotient *)
  assert (0 < D)%Q as HD0 by nra.
  assert (D <= B2)%Q as HDmax by nra.
  assert (pow2 (-900) * (1#2) <= N)%Q as HNmin by nra.
  assert (pow2 (-1022) <= N / D)%Q as HQn.
  { apply Qle_shift_div_l; [done|].
    apply Qle_trans with (pow2 (-1022) * B2)%Q; [|lra].
    apply Qmult_le_l; [apply pow2_pos | done]. }
  pose proof (round_between (N / D) ltac:(by right)) as [HR1 HR2].
  set (R := round (N / D)) in *. clearbody R.
  set (x := (N / D)%Q) in *.
  assert (x * D == N)%Q as Hx by (subst x; field; lra).
  assert (0 < x)%Q as Hx0 by (pose proof (pow2_pos (-1022)); lra).
  clearbody x. clear HQn.
  (* the weighted mean of the operands *)
  set (W := (c' * E + s')%Q) in *.
  assert (m * (E + 1) <= W)%Q as HW1.
  { subst W. assert (m * E <= c' * E)%Q by (apply Qmult_le_compat_r; lra).
    lra. }
  assert (W <= M * (E + 1))%Q as HW2.
  { subst W. assert (c' * E <= M * E)%Q by (apply Qmult_le_compat_r; lra).
    lra. }
  assert (0 < m)%Q as Hmpos by lra.
  assert (0 < M)%Q as HMpos by lra.
  set (lo := (1 - u)%Q) in *. set (hi := (1 + u)%Q) in *.
  assert (0 < lo)%Q as Hlo by (subst lo; lra).
  assert (lo <= 1)%Q as Hlo1 by (subst lo; lra).
  assert (1 <= hi)%Q as Hhi by (subst hi; lra).
  assert (W * (lo * lo * lo) <= N)%Q as HNlo.
  { assert (W * (lo * lo) <= P + s')%Q.
    { subst W. assert (lo * lo <= 1)%Q by (clear -Hlo Hlo1; nra).
      assert (s' * (lo * lo) <= s' * 1)%Q by (apply Qmult_le_l; lra). lra. }
    assert (W * (lo * lo) * lo <= (P + s') * lo)%Q
      by (apply Qmult_le_compat_r; lra).
    lra. }
  assert (N <= W * (hi * hi * hi))%Q as HNhi.
  { assert (P + s' <= W * (hi * hi))%Q.
    { subst W. assert (1 <= hi * hi)%Q by (clear -Hhi; nra).
      assert (s' * 1 <= s' * (hi * hi))%Q by (apply Qmult_le_l; lra). lra. }
    assert ((P + s') * hi <= W * (hi * hi) * hi)%Q
      by (apply Qmult_le_compat_r; lra).
    lra. }
  assert (0 < E + 1)%Q as HE1pos by lra.
  set (F := (E + 1)%Q) in *.
  assert (m * (lo * lo * lo) <= x * hi)%Q as Hxlo.
  { assert (m * F * (lo * lo * lo) <= W * (lo * lo * lo))%Q
      by (apply Qmult_le_compat_r; [lra | nra]).
    assert (x * D <= x * (F * hi))%Q by (apply Qmult_le_l; lra).
    assert (m * (lo * lo * lo) * F <= x * hi * F)%Q as Hfin by lra.
    by apply Qmult_le_r in Hfin. }
  assert (x * lo <= M * (hi * hi * hi))%Q as Hxhi.
  { assert (W * (hi * hi * hi) <= M * F * (hi * hi * hi))%Q
      by (apply Qmult_le_compat_r; [lra | nra]).
    assert (x * (F * lo) <= x * D)%Q by (apply Qmult_le_l; lra).
    assert (x * lo * F <= M * (hi * hi * hi) * F)%Q as Hfin by lra.
    by apply Qmult_le_r in Hfin. }
  clear HNlo HNhi HW1 HW2 Hx HD1 HD2 HN1 HN2 HP1' HP2'.
  assert ((1 - 8 * u) * hi <= lo * lo * lo * lo)%Q as Hfac1.
  { assert (1 - 2 * u <= lo * lo)%Q by (subst lo; nra).
    assert (0 <= lo * lo)%Q by nra.
    assert ((1 - 2 * u) * (1 - 2 * u) <= lo * lo * (lo * lo))%Q by nra.
    subst hi. nra. }
  assert (hi * hi * hi * hi <= (1 + 8 * u) * lo)%Q as Hfac2.
  { assert (hi * hi <= 1 + 3 * u)%Q by (subst hi; nra).
    assert (0 <= hi * hi)%Q by nra.
    assert (hi * hi * (hi * hi) <= (1 + 3 * u) * (1 + 3 * u))%Q by nra.
    subst lo. nra. }
  split.
  - assert (m * (lo * lo * lo) * lo <= x * hi * lo)%Q
      by (apply Qmult_le_compat_r; lra).
    assert (x * lo * hi <= R * hi)%Q by (apply Qmult_le_compat_r; lra).
    assert (m * ((1 - 8 * u) * hi) <= m * (lo * lo * lo * lo))%Q
      by (apply Qmult_le_l; lra).
    assert (m * (1 - 8 * u) * hi <= R * hi)%Q as Hfin by lra.
    apply Qmult_le_r in Hfin; lra.
  - assert (x * lo * hi <= M * (hi * hi * hi) * hi)%Q
      by (apply Qmult_le_compat_r; lra).
    assert (R * lo <= x * hi * lo)%Q by (apply Qmult_le_compat_r; lra).
    assert (M * (hi * hi * hi * hi) <= M * ((1 + 8 * u) * lo))%Q
      by (apply Qmult_le_l; lra).
    assert (R * lo <= M * (1 + 8 * u) * lo)%Q as Hfin by lra.
    apply Qmult_le_r in Hfin; lra.
Qed.

End Binary64.

(** ** Arithmetic of confidences *)

Section Confidence.

Lemma inject_Z_nonneg z : (0 ≤ z)%Z → (0 <= inject_Z z)%Q.
Proof. intros H. unfold Qle. simpl. lia. Qed.

(** The exact weighted mean lies between its two operands. *)
Lemma weighted_mean_bounds c e s :
  (0 ≤ e)%Z →
  (Qmin c s <= weighted_mean c e s)%Q ∧ (weighted_mean c e s <= Qmax c s)%Q.
Proof.
  intros He. unfold weighted_mean.
  pose proof (inject_Z_nonneg e He) as Hn.
  assert (inject_Z (e + 1) == inject_Z e + 1)%Q as Hd by (by rewrite inject_Z_plus).
  assert (0 < inject_Z (e + 1))%Q as Hpos by (rewrite Hd; lra).
  pose proof (Q.le_min_l c s). pose proof (Q.le_min_r c s).
  pose proof (Q.le_max_l c s). pose proof (Q.le_max_r c s).
  split.
  - apply Qle_shift_div_l; [done|]. rewrite Hd. nra.
  - apply Qle_shift_div_r; [done|]. rewrite Hd. nra.
Qed.

Lemma weakened_floor c : (1#20 <= weakened c)%Q.
Proof. apply max_ge_l. Qed.

Lemma weakened_decreases c : (1#20 < c)%Q → (weakened c < c)%Q.
Proof.
  intros H. unfold weakened.
  destruct (max_cases (1#20) (c * (3#5))) as [-> | ->]; lra.
Qed.

Lemma weakened_small c : (c * (3#5) <= 1#20)%Q → weakened c = (1#20)%Q.
Proof.
  intros H. unfold weakened, Py.max.
  destruct (Py.ltb _ _) eqn:Hlt; [|done].
  apply ltb_lt in Hlt. lra.
Qed.

Lemma weakened_large c : (1#20 < c * (3#5))%Q → weakened c = (c * (3#5))%Q.
Proof.
  intros H. unfold weakened, Py.max.
  destruct (Py.ltb _ _) eqn:Hlt; [done|].
  apply not_true_iff_false in Hlt. destruct Hlt. by apply ltb_lt.
Qed.

Lemma iter_weakened_floor n c : (1#20 <= Nat.iter (S n) weakened c)%Q.
Proof. simpl. apply weakened_floor. Qed.

Lemma iter_weakened_fixed n : Nat.iter n weakened (1#20)%Q = (1#20)%Q.
Proof. induction n as [|n IH]; [done|]. simpl. rewrite IH. reflexivity. Qed.

Lemma iter_weakened_reaches k c :
  (c <= ceiling k)%Q → Nat.iter (S k) weakened c = (1#20)%Q.
Proof.
  revert c. induction k as [|k IH]; intros c Hc.
  - simpl in *. apply weakened_small. lra.
  - rewrite Nat.iter_succ_r.
    destruct (Qlt_le_dec (1#20) (c * (3#5))) as [Hl|Hs].
    + rewrite (weakened_large _ Hl). apply IH. simpl in Hc. lra.
    + rewrite (weakened_small _ Hs).
      change (Nat.iter (S k) weakened (1#20)%Q = (1#20)%Q).
      apply iter_weakened_fixed.
Qed.

Lemma ceiling_linear k :
  ((1#12) + inject_Z (Z.of_nat k) * (1#18) <= ceiling k)%Q.
Proof.
  induction k as [|k IH].
  - by vm_compute.
  - rewrite Nat2Z.inj_succ. unfold Z.succ. rewrite inject_Z_plus.
    simpl ceiling.
    assert (0 <= inject_Z (Z.of_nat k))%Q by (apply inject_Z_nonneg; lia).
    change (inject_Z 1) with 1%Q. lra.
Qed.

Lemma below_numerator c : (c <= inject_Z (Z.max 0 (Qnum c)))%Q.
Proof.
  destruct c as [p q]. unfold Qle. simpl. nia.
Qed.

Lemma ceiling_unbounded c : ∃ k, (c <= ceiling k)%Q.
Proof.
  exists (Z.to_nat (18 * Z.max 0 (Qnum c))).
  eapply Qle_trans; [apply below_numerator|].
  eapply Qle_trans; [|apply ceiling_linear].
  rewrite Z2Nat.id by lia. rewrite inject_Z_mult.
  assert (0 <= inject_Z (Z.max 0 (Qnum c)))%Q by (apply inject_Z_nonneg; lia).
  change (inject_Z 18) with (18#1)%Q. lra.
Qed.

Lemma iter_weakened_eventually c :
  ∃ N, ∀ n, (N ≤ n)%nat → Nat.iter n weakened c = (1#20)%Q.
Proof.
  destruct (ceiling_unbounded c) as [k Hk]. exists (S k). intros n Hn.
  replace n with ((n - S k) + S k)%nat by lia.
  rewrite Nat.iter_add, (iter_weakened_reaches _ _ Hk).
  apply iter_weakened_fixed.
Qed.

End Confidence.

(** ** Overwriting beliefs *)

Section Learn.

Implicit Types (bm : gmap string (gmap string (Q * Z)))
  (item : string * string * Q) (l : list (string * string * Q)).

Lemma learn_same_key bm a v q q' :
  learn (learn bm (a, v, q)) (a, v, q') = learn bm (a, v, q').
Proof.
  unfold learn. rewrite lookup_insert_eq. simpl.
  by rewrite insert_insert_eq, insert_insert_eq.
Qed.

Lemma learn_commute bm a v q a' v' q' :
  (a, v) ≠ (a', v') →
  learn (learn bm (a, v, q)) (a', v', q') =
  learn (learn bm (a', v', q')) (a, v, q).
Proof.
  intros Hne. unfold learn.
  destruct (decide (a = a')) as [<-|Ha].
  - rewrite !lookup_insert_eq. simpl. rewrite !insert_insert_eq.
    f_equal. apply insert_insert_ne. congruence.
  - rewrite !lookup_insert_ne by done. by apply insert_insert_ne.
Qed.

(** A belief that is overwritten at the end does not depend on an earlier
    overwrite of the same key. *)
Lemma learn_absorbs l : ∀ bm a v q q',
  learn (foldl learn (learn bm (a, v, q')) l) (a, v, q) =
  learn (foldl learn bm l) (a, v, q).
Proof.
  induction l as [|[[a' v'] q''] l IH]; intros bm a v q q'; cbn [foldl].
  - apply learn_same_key.
  - destruct (decide ((a, v) = (a', v'))) as [[= <- <-]|Hne].
    + by rewrite learn_same_key.
    + rewrite learn_commute by done. apply IH.
Qed.

Lemma learn_twice l : ∀ bm, foldl learn (foldl learn bm l) l = foldl learn bm l.
Proof.
  induction l as [|[[a v] q] l IH] using rev_ind; intros bm; [done|].
  rewrite !foldl_app. cbn [foldl]. by rewrite learn_absorbs, IH.
Qed.

Lemma belief_at_learn bm a v q a' v' :
  belief_at (learn bm (a, v, q)) a' v' =
  if decide ((a, v) = (a', v')) then Some (q, 1%Z) else belief_at bm a' v'.
Proof.
  unfold belief_at, learn.
  destruct (decide (a = a')) as [<-|Ha].
  - rewrite lookup_insert_eq. simpl.
    destruct (decide (v = v')) as [<-|Hv].
    + rewrite lookup_insert_eq. by rewrite decide_True.
    + rewrite lookup_insert_ne by done. rewrite decide_False by congruence.
      by destruct (bm !! a).
  - rewrite lookup_insert_ne by done. by rewrite decide_False by congruence.
Qed.

(** After a run of overwrites, the belief about every key of the run has
    evidence 1. *)
Lemma learnt_evidence l : ∀ bm a v q,
  (a, v, q) ∈ l → ∃ q', belief_at (foldl learn bm l) a v = Some (q', 1%Z).
Proof.
  induction l as [|[[a' v'] q''] l IH] using rev_ind; intros bm a v q Hin.
  - by apply elem_of_nil in Hin.
  - rewrite foldl_app. cbn [foldl]. rewrite belief_at_learn.
    case_decide as Hk; [eauto|].
    apply elem_of_app in Hin as [Hin|Hin]; [by eapply IH|].
    apply list_elem_of_singleton in Hin. congruence.
Qed.

End Learn.

(** ** The step on a bucket and the evidence counts *)

Section BucketStep.

(** The shapes of the bucket that [bucket_step] can reach. *)
Lemma bucket_step_cases now act action v s b :
  let r := bucket_step now act action v s b in
  r.2 = b ∨
  (b !! v = None ∧
   r.2 = <[v := {| confidence := s; evidence := 1; last_seen := now |}]> b) ∨
  (∃ e c t, b !! v = Some e ∧
     r.2 = <[v := {| confidence := c; evidence := evidence e + 1;
                     last_seen := t |}]> b) ∨
  (∃ e c t, b !! v = Some e ∧
     r.2 = <[v := {| confidence := c; evidence := evidence e;
                     last_seen := t |}]> b) ∨
  (∃ tg e c t, b !! tg = Some e ∧
     r.2 = <[tg := {| confidence := c; evidence := evidence e;
                      last_seen := t |}]> b) ∨
  (∃ e, b !! v = Some e ∧ r.2 = delete v b) ∨
  (∃ tg et e c t, v ≠ tg ∧ b !! tg = Some et ∧ b !! v = Some e ∧
     r.2 = <[tg := {| confidence := c; evidence := evidence et + evidence e;
                      last_seen := t |}]> (delete v b)).
Proof.
  unfold bucket_step.
  destruct (b !! v) as [e|] eqn:Hv; simpl.
  - rewrite andb_false_r. 
    destruct (String.eqb action "reinforce"); simpl.
    { destruct (evidence e + 1 =? 0)%Z; simpl; [by left|].
      right; right; left. by eexists _, _, _. }
    destruct (String.eqb action "weaken"); simpl.
    { right; right; right; left. by eexists _, _, _. }
    destruct (String.eqb action "merge"); [|by left].
    destruct (Py.truthy (act !! "target")) as [target|]; [|by left].
    simpl. destruct (b !! Py.lower target) as [t|] eqn:Ht; [|by left].
    case_decide as Heq; simpl.
    + do 5 right; left. eauto.
    + do 6 right. by eexists _, _, _, _, _.
  - rewrite !andb_false_r, andb_true_r.
    destruct (String.eqb action "add"); simpl; [right; left; done|].
    destruct (String.eqb action "merge"); [|by left].
    destruct (Py.truthy (act !! "target")) as [target|]; [|by left].
    simpl. destruct (b !! Py.lower target) as [t|] eqn:Ht; [|by left].
    simpl. do 4 right; left. by eexists _, _, _, _.
Qed.

Lemma bucket_step_valid now act action v s b :
  bucket_valid b → bucket_valid (bucket_step now act action v s b).2.
Proof.
  intros Hb.
  destruct (bucket_step_cases now act action v s b)
    as [-> | [[_ ->] | [(e & c & t & He & ->) | [(e & c & t & He & ->) |
        [(tg & e & c & t & He & ->) | [(e & He & ->) |
         (tg & et & e & c & t & Hne & Ht & He & ->)]]]]]];
    [done|..]; intros v' e' H.
  - apply lookup_insert_Some in H as [[_ <-]|[_ H]]; [done | eauto].
  - apply Hb in He.
    apply lookup_insert_Some in H as [[_ <-]|[_ H]]; [simpl; lia | eauto].
  - apply Hb in He.
    apply lookup_insert_Some in H as [[_ <-]|[_ H]]; [done | eauto].
  - apply Hb in He.
    apply lookup_insert_Some in H as [[_ <-]|[_ H]]; [done | eauto].
  - apply lookup_delete_Some in H as [_ H]. eauto.
  - apply Hb in He, Ht.
    apply lookup_insert_Some in H as [[_ <-]|[_ H]]; [simpl; lia|].
    apply lookup_delete_Some in H as [_ H]. eauto.
Qed.

Lemma bucket_step_evidence now act action v s b v' e e' :
  bucket_valid b →
  b !! v' = Some e →
  (bucket_step now act action v s b).2 !! v' = Some e' →
  (evidence e ≤ evidence e')%Z.
Proof.
  intros Hb Hv'.
  destruct (bucket_step_cases now act action v s b)
    as [-> | [[Hv ->] | [(e0 & c & t & He & ->) | [(e0 & c & t & He & ->) |
        [(tg & e0 & c & t & He & ->) | [(e0 & He & ->) |
         (tg & et & e0 & c & t & Hne & Ht & He & ->)]]]]]]; intros H.
  - replace e' with e by congruence. lia.
  - apply lookup_insert_Some in H as [[-> _]|[_ H]]; [congruence|].
    replace e' with e by congruence. lia.
  - apply lookup_insert_Some in H as [[-> <-]|[_ H]]; simpl.
    + replace e0 with e by congruence. lia.
    + replace e' with e by congruence. lia.
  - apply lookup_insert_Some in H as [[-> <-]|[_ H]]; simpl.
    + replace e0 with e by congruence. lia.
    + replace e' with e by congruence. lia.
  - apply lookup_insert_Some in H as [[-> <-]|[_ H]]; simpl.
    + replace e0 with e by congruence. lia.
    + replace e' with e by congruence. lia.
  - apply lookup_delete_Some in H as [_ H].
    replace e' with e by congruence. lia.
  - apply Hb in He.
    apply lookup_insert_Some in H as [[-> <-]|[_ H]]; simpl.
    + replace et with e by congruence. lia.
    + apply lookup_delete_Some in H as [_ H].
      replace e' with e by congruence. lia.
Qed.

End BucketStep.

(** ** Properties of the engine *)

Section Properties.

Variable ASPECTS : list string.
Variable STRENGTH_TO_CONF : gmap string Q.
Variable utcnow : nat → Z.

Local Abbreviation apply_action := (apply_action ASPECTS STRENGTH_TO_CONF).
Local Abbreviation apply_actions := (apply_actions ASPECTS STRENGTH_TO_CONF utcnow).
Local Abbreviation resolve_strength := (resolve_strength STRENGTH_TO_CONF).
Local Abbreviation is_record := (is_record ASPECTS).
Local Abbreviation is_merge := (is_merge ASPECTS).
Local Abbreviation parse_pref := (parse_pref STRENGTH_TO_CONF).
Local Abbreviation well_formed := (well_formed STRENGTH_TO_CONF).
Local Abbreviation ingest_pref := (ingest_pref STRENGTH_TO_CONF utcnow).
Local Abbreviation ingest_extracted_preferences :=
  (ingest_extracted_preferences STRENGTH_TO_CONF utcnow).

Implicit Types (st : State) (m : gmap string (gmap string MemoryEntry))
  (b : gmap string MemoryEntry) (e : MemoryEntry) (a v : string)
  (act : gmap string string) (actions : list (gmap string string)).

Lemma apply_actions_unfold actions st :
  apply_actions actions st =
  for_each (apply_action (utcnow (ticks st))) actions (tick st).
Proof. reflexivity. Qed.

(** *** Records that are skipped *)

(** A record whose aspect is not in the vocabulary is skipped. *)
Lemma apply_action_foreign now act st :
  (∀ a, act !! "aspect" = Some a → a ∉ ASPECTS) →
  apply_action now act st = Done tt st.
Proof.
  intros Hasp. unfold apply_action.
  destruct (Py.truthy (act !! "action")) as [action|]; [|done].
  destruct (Py.truthy (act !! "aspect")) as [aspect|] eqn:Ha; [|done].
  destruct (Py.truthy (act !! "value")) as [value|]; [|done].
  apply truthy_Some in Ha as [Ha _].
  by rewrite (bool_decide_eq_false_2 _ (Hasp _ Ha)).
Qed.

Lemma for_each_skip {A} (body : A → M unit) (l : list A) st :
  (∀ x, x ∈ l → body x st = Done tt st) →
  for_each body l st = Done tt st.
Proof.
  induction l as [|x l IH]; intros H; [done|]. simpl.
  rewrite (bind_Done _ _ _ _ _ (H x (list_elem_of_here _ _))).
  apply IH. intros y Hy. apply H. by apply list_elem_of_further.
Qed.

(** C6. When the aspect of every record of the list is outside the
    vocabulary (or missing), [apply_actions] returns normally and leaves
    the profile, hence [profile.memory], exactly as it was: no entry is
    changed and no bucket is created.  Only the clock has been read. *)
Theorem apply_actions_foreign_aspects actions st :
  (∀ act a, act ∈ actions → act !! "aspect" = Some a → a ∉ ASPECTS) →
  apply_actions actions st = Done tt (tick st) ∧
  memory (self (final (apply_actions actions st))) = memory (self st).
Proof.
  intros H.
  assert (apply_actions actions st = Done tt (tick st)) as Hrun.
  { rewrite apply_actions_unfold. apply for_each_skip.
    intros act Hact. apply apply_action_foreign. eauto. }
  split; [done|]. by rewrite Hrun.
Qed.

(** *** Strength resolution *)

(** C8 (amended). The strength used for a record is the table entry of its
    strength label when the label is a key of the table, and 0.6 when the
    label is not a key.  A record without a strength key is treated as
    labelled "medium": it gets the table entry of "medium", and 0.6 only
    when the table has no such entry. *)
Theorem resolve_strength_cases act :
  resolve_strength act =
  match act !! "strength" with
  | Some label =>
      match STRENGTH_TO_CONF !! label with Some q => q | None => (3#5)%Q end
  | None =>
      match STRENGTH_TO_CONF !! "medium" with Some q => q | None => (3#5)%Q end
  end.
Proof.
  unfold resolve_strength.
  destruct (act !! "strength") as [label|]; simpl;
    by destruct (STRENGTH_TO_CONF !! _).
Qed.

(** *** A record that passes the checks *)

(** A record that passes the checks acts on the bucket of its aspect (an
    empty one when the aspect had none) by [bucket_step]. *)
Lemma apply_action_record now act action a v st :
  is_record act action a v →
  apply_action now act st =
  store a
    (bucket_step now act action v (resolve_strength act)
       (default ∅ (memory (self st) !! a))) st.
Proof.
  intros (Hact & Ha & Hin & v0 & Hv & <-). unfold apply_action.
  rewrite Hact, Ha, Hv, (bool_decide_eq_true_2 _ Hin). simpl.
  rewrite (bind_Done _ _ _ _ _ (setdefault_run _ _)).
  erewrite dispatch_run by apply lookup_stored.
  apply store_stored.
Qed.

Lemma apply_actions_single act st :
  apply_actions [act] st = apply_action (utcnow (ticks st)) act (tick st).
Proof.
  rewrite apply_actions_unfold. simpl.
  unfold mbind, M_bind, bind. by destruct (apply_action _ _ _) as [[]|].
Qed.

(** *** Records that change no entry *)

(** In an empty bucket, only [add] has an effect. *)
Lemma bucket_step_empty now act action v s :
  action ≠ "add" → bucket_step now act action v s ∅ = (None, ∅).
Proof.
  intros Hadd%String.eqb_neq. unfold bucket_step.
  rewrite Hadd, !lookup_empty. simpl. rewrite !andb_false_r.
  destruct (String.eqb action "merge"); [|done].
  by destruct (Py.truthy (act !! "target")).
Qed.

(** C9. A record that passes the checks (action, aspect and value truthy,
    aspect in the vocabulary) for an aspect that has no bucket yet, and whose
    action is not [add] (so that it changes no entry: [ignore], [reinforce],
    [weaken] or [merge] of a value that is absent, an unrecognised tag),
    still leaves an empty bucket behind for that aspect.  Afterwards
    [has_memory] is true, and [get_memory_view] has no key for that
    aspect. *)
Theorem noop_record_creates_bucket act action a v st :
  is_record act action a v →
  action ≠ "add" →
  memory (self st) !! a = None →
  apply_actions [act] st = Done tt (with_memory (insert a ∅) (tick st)) ∧
  memory (self (final (apply_actions [act] st))) !! a = Some ∅ ∧
  has_memory (self (final (apply_actions [act] st))) = true ∧
  get_memory_view (self (final (apply_actions [act] st))) !! a = None.
Proof.
  intros Hrec Hadd Hnone.
  assert (apply_actions [act] st = Done tt (with_memory (insert a ∅) (tick st)))
    as Hrun.
  { rewrite apply_actions_single, (apply_action_record _ _ _ _ _ _ Hrec).
    simpl. rewrite Hnone. simpl. by rewrite bucket_step_empty. }
  rewrite Hrun. simpl. split_and!.
  - done.
  - apply lookup_insert_eq.
  - unfold has_memory. simpl.
    rewrite bool_decide_eq_false_2; [done | apply insert_non_empty].
  - unfold get_memory_view. simpl.
    rewrite lookup_omap, lookup_insert_eq. simpl. by case_decide.
Qed.

(** *** One record on an existing bucket *)

Lemma apply_actions_record act action a v b st :
  is_record act action a v →
  memory (self st) !! a = Some b →
  apply_actions [act] st =
  store a (bucket_step (utcnow (ticks st)) act action v
             (resolve_strength act) b) (tick st).
Proof.
  intros Hrec Hb.
  rewrite apply_actions_single, (apply_action_record _ _ _ _ _ _ Hrec).
  simpl. by rewrite Hb.
Qed.

Lemma entry_at_stored a b v st :
  entry_at (with_memory (insert a b) st) a v = b !! v.
Proof. unfold entry_at. simpl. by rewrite lookup_insert_eq. Qed.

Lemma value_count_stored a b st :
  value_count (with_memory (insert a b) st) a = size b.
Proof. unfold value_count. simpl. by rewrite lookup_insert_eq. Qed.

(** *** Add *)

Lemma bucket_step_add now act v s b :
  b !! v = None →
  bucket_step now act "add" v s b =
  (None, <[v := {| confidence := s; evidence := 1; last_seen := now |}]> b).
Proof. intros Hv. unfold bucket_step. simpl. by rewrite Hv. Qed.

(** The strength of a record is what [add] stores as the confidence of a
    new entry. *)
Lemma add_stores_strength act a v st :
  is_record act "add" a v →
  entry_at st a v = None →
  ∃ st',
    apply_actions [act] st = Done tt st' ∧
    entry_at st' a v =
      Some {| confidence := resolve_strength act; evidence := 1;
              last_seen := utcnow (ticks st) |}.
Proof.
  intros Hrec Hv.
  rewrite apply_actions_single, (apply_action_record _ _ _ _ _ _ Hrec).
  rewrite bucket_step_add.
  - unfold store. simpl. eexists. split; [done|].
    by rewrite entry_at_stored, lookup_insert_eq.
  - unfold entry_at in Hv. simpl.
    by destruct (memory (self st) !! a).
Qed.

(** *** Merge *)

Lemma bucket_step_merge now act a v tg s b :
  is_merge act a v tg →
  bucket_step now act "merge" v s b =
  match b !! tg, b !! v with
  | None, _ => (None, b)
  | Some t, None => (None, <[tg := set_last_seen now t]> b)
  | Some t, Some e =>
      if decide (v = tg)
      then (Some KeyError, delete v b)
      else (None,
            <[tg := {| confidence := Py.max (confidence t) (confidence e);
                       evidence := evidence t + evidence e;
                       last_seen := now |}]> (delete v b))
  end.
Proof.
  intros [_ (t0 & Ht0 & <-)]. unfold bucket_step. simpl.
  by rewrite Ht0.
Qed.

(** C1 (amended). When the bucket of the aspect holds a target entry
    [(ct, et)] and, under a different key, a value entry [(cv, ev)], a merge
    record for that aspect, value and target is applied without error;
    afterwards the target entry has confidence [max(ct, cv)] and evidence
    [et + ev], and the value key is gone from the bucket. *)
Theorem merge_absorbs_value act a v tg t e st :
  is_merge act a v tg →
  entry_at st a tg = Some t →
  entry_at st a v = Some e →
  v ≠ tg →
  ∃ st',
    apply_actions [act] st = Done tt st' ∧
    entry_at st' a tg =
      Some {| confidence := Py.max (confidence t) (confidence e);
              evidence := evidence t + evidence e;
              last_seen := utcnow (ticks st) |} ∧
    (Py.max (confidence t) (confidence e)
       == Qmax (confidence t) (confidence e))%Q ∧
    entry_at st' a v = None.
Proof.
  intros Hm Ht He Hne. pose proof Hm as [Hrec _].
  unfold entry_at in Ht, He.
  destruct (memory (self st) !! a) as [b|] eqn:Hb; [|done]. simpl in Ht, He.
  rewrite (apply_actions_record _ _ _ _ _ _ Hrec Hb).
  rewrite (bucket_step_merge _ _ _ _ _ _ _ Hm), Ht, He.
  rewrite decide_False by done. unfold store. simpl.
  eexists. split; [done|]. rewrite !entry_at_stored. split_and!.
  - apply lookup_insert_eq.
  - apply max_Qmax.
  - rewrite lookup_insert_ne by done. apply lookup_delete_eq.
Qed.

(** What a merge does to the number of values, when value and target are
    different keys: it drops by exactly one, and the target is kept. *)
Lemma merge_value_count act a v tg t e st :
  is_merge act a v tg →
  entry_at st a tg = Some t →
  entry_at st a v = Some e →
  v ≠ tg →
  S (value_count (final (apply_actions [act] st)) a) = value_count st a ∧
  is_Some (entry_at (final (apply_actions [act] st)) a tg).
Proof.
  intros Hm Ht He Hne. pose proof Hm as [Hrec _].
  unfold entry_at in Ht, He. unfold value_count at 2.
  destruct (memory (self st) !! a) as [b|] eqn:Hb; [|done]. simpl in Ht, He.
  rewrite (apply_actions_record _ _ _ _ _ _ Hrec Hb).
  rewrite (bucket_step_merge _ _ _ _ _ _ _ Hm), Ht, He.
  rewrite decide_False by done. unfold store. simpl.
  rewrite value_count_stored, entry_at_stored, lookup_insert_eq.
  split; [|eauto].
  rewrite map_size_insert_Some
    by (rewrite lookup_delete_ne by done; eauto).
  apply (size_delete_present _ _ _ He).
Qed.

(** C2 (what the code does on the failing input). A merge record whose
    value and target are the same key of the bucket deletes that entry and
    then raises [KeyError] at line 94: the target does not survive the
    merge. *)
Theorem self_merge_deletes_target act a v e st :
  is_merge act a v v →
  entry_at st a v = Some e →
  ∃ st',
    apply_actions [act] st = Raised KeyError st' ∧
    entry_at st' a v = None ∧
    S (value_count st' a) = value_count st a.
Proof.
  intros Hm He. pose proof Hm as [Hrec _].
  unfold entry_at in He. unfold value_count at 2.
  destruct (memory (self st) !! a) as [b|] eqn:Hb; [|done]. simpl in He.
  rewrite (apply_actions_record _ _ _ _ _ _ Hrec Hb).
  rewrite (bucket_step_merge _ _ _ _ _ _ _ Hm), He.
  rewrite decide_True by done. unfold store. simpl.
  eexists. split; [done|].
  rewrite value_count_stored, entry_at_stored, lookup_delete_eq.
  split; [done|]. apply (size_delete_present _ _ _ He).
Qed.

(** *** Reinforce *)

Lemma bucket_step_reinforce now act v s b e :
  b !! v = Some e →
  (0 ≤ evidence e)%Z →
  bucket_step now act "reinforce" v s b =
  (None, <[v := {| confidence := reinforced (confidence e) (evidence e) s;
                   evidence := evidence e + 1;
                   last_seen := now |}]> b).
Proof.
  intros He Hev. unfold bucket_step. simpl. rewrite He. simpl.
  destruct (Z.eqb_spec (evidence e + 1) 0); [lia | done].
Qed.

(** C4 (amended). Reinforcing an entry whose confidence is the float [c],
    between 0 and 1, and whose evidence is [e], a count below [2^53], with
    a record whose strength resolves to the float [s], between 0 and 1,
    succeeds; it sets the evidence to [e+1] and the confidence to the
    binary64 value of [(c*e + s)/(e+1)], product, sum and quotient each
    rounded.  The exact value of [(c*e + s)/(e+1)] lies between
    [min(c, s)] and [max(c, s)].  The stored value lies between
    [min(c, s) * (1 - 2^-50)] and [max(c, s) * (1 + 2^-50)] when [c] and
    [s] are at least [2^-900]. *)
Theorem reinforce_weighted_mean act a v e st :
  is_record act "reinforce" a v →
  entry_at st a v = Some e →
  (0 ≤ evidence e < 2 ^ 53)%Z →
  (0 <= B64.round (confidence e))%Q →
  (B64.round (confidence e) <= 1)%Q →
  (0 <= B64.round (resolve_strength act))%Q →
  (B64.round (resolve_strength act) <= 1)%Q →
  ∃ st' e',
    apply_actions [act] st = Done tt st' ∧
    entry_at st' a v = Some e' ∧
    confidence e' =
      B64.div
        (B64.add (B64.mul (B64.round (confidence e))
                          (B64.of_int (evidence e)))
                 (B64.round (resolve_strength act)))
        (B64.of_int (evidence e + 1)) ∧
    evidence e' = (evidence e + 1)%Z ∧
    (Qmin (B64.round (confidence e)) (B64.round (resolve_strength act))
     <= weighted_mean (B64.round (confidence e)) (evidence e)
          (B64.round (resolve_strength act)))%Q ∧
    (weighted_mean (B64.round (confidence e)) (evidence e)
       (B64.round (resolve_strength act))
     <= Qmax (B64.round (confidence e)) (B64.round (resolve_strength act)))%Q ∧
    ((B64.pow2 (-900) <= B64.round (confidence e))%Q →
     (B64.pow2 (-900) <= B64.round (resolve_strength act))%Q →
     (Qmin (B64.round (confidence e)) (B64.round (resolve_strength act))
      * (1 - B64.pow2 (-50)) <= confidence e')%Q ∧
     (confidence e'
      <= Qmax (B64.round (confidence e)) (B64.round (resolve_strength act))
         * (1 + B64.pow2 (-50)))%Q).
Proof.
  intros Hrec He Hev _ _ _ _. unfold entry_at in He.
  destruct (memory (self st) !! a) as [b|] eqn:Hb; [|done]. simpl in He.
  rewrite (apply_actions_record _ _ _ _ _ _ Hrec Hb).
  rewrite (bucket_step_reinforce _ _ _ _ _ _ He (proj1 Hev)).
  unfold store. simpl.
  do 2 eexists. split; [done|]. rewrite entry_at_stored, lookup_insert_eq.
  split; [done|]. simpl.
  destruct (weighted_mean_bounds (B64.round (confidence e)) (evidence e)
              (B64.round (resolve_strength act)) (proj1 Hev)).
  split_and!; [done..|].
  intros Hc Hs. by apply reinforced_near_bounds.
Qed.

(** *** Weaken *)

Lemma bucket_step_weaken now act v s b e :
  b !! v = Some e →
  bucket_step now act "weaken" v s b =
  (None, <[v := {| confidence := weakened (confidence e);
                   evidence := evidence e;
                   last_seen := now |}]> b).
Proof. intros He. unfold bucket_step. simpl. by rewrite He. Qed.

Lemma apply_action_weaken now act a v b e st :
  is_record act "weaken" a v →
  memory (self st) !! a = Some b →
  b !! v = Some e →
  apply_action now act st =
  Done tt
    (with_memory
       (insert a (<[v := {| confidence := weakened (confidence e);
                            evidence := evidence e;
                            last_seen := now |}]> b)) st).
Proof.
  intros Hrec Hb He.
  rewrite (apply_action_record _ _ _ _ _ _ Hrec), Hb. simpl.
  by rewrite (bucket_step_weaken _ _ _ _ _ _ He).
Qed.

(** The same [weaken] record applied [S n] times in a row. *)
Lemma weaken_repeat now act a v n :
  is_record act "weaken" a v →
  ∀ b e st,
    memory (self st) !! a = Some b →
    b !! v = Some e →
    for_each (apply_action now) (repeat act (S n)) st =
    Done tt
      (with_memory
         (insert a
            (<[v := {| confidence := Nat.iter (S n) weakened (confidence e);
                       evidence := evidence e;
                       last_seen := now |}]> b)) st).
Proof.
  intros Hrec. induction n as [|n IH]; intros b e st Hb He.
  - simpl.
    by rewrite (bind_Done _ _ _ _ _ (apply_action_weaken _ _ _ _ _ _ _ Hrec Hb He)).
  - change (repeat act (S (S n))) with (act :: repeat act (S n)).
    cbn [for_each].
    rewrite (bind_Done _ _ _ _ _ (apply_action_weaken _ _ _ _ _ _ _ Hrec Hb He)).
    erewrite IH; [| apply lookup_stored | apply lookup_insert_eq].
    rewrite stored_stored, insert_insert_eq. cbn [confidence evidence].
    by rewrite <- Nat.iter_succ_r.
Qed.

(** C5. A [weaken] record sets the confidence [c] of its entry to
    [max(0.05, c * 0.6)] and leaves the evidence as it is, and so does every
    further application.  One weakening strictly decreases a confidence
    above 0.05; the confidences after one or more weakenings never fall
    below 0.05; and they converge to 0.05 (from some point on they are
    0.05). *)
Theorem weaken_floor act a v e st :
  is_record act "weaken" a v →
  entry_at st a v = Some e →
  (∀ n, ∃ st' e',
     apply_actions (repeat act (S n)) st = Done tt st' ∧
     entry_at st' a v = Some e' ∧
     confidence e' = Nat.iter (S n) weakened (confidence e) ∧
     evidence e' = evidence e) ∧
  weakened (confidence e) = Py.max (1#20)%Q (confidence e * (3#5))%Q ∧
  ((1#20 < confidence e)%Q → (weakened (confidence e) < confidence e)%Q) ∧
  (∀ n, (1#20 <= Nat.iter (S n) weakened (confidence e))%Q) ∧
  (∃ N, ∀ n, (N ≤ n)%nat → Nat.iter n weakened (confidence e) = (1#20)%Q) ∧
  (∀ eps, (0 < eps)%Q →
     ∃ N, ∀ n, (N ≤ n)%nat →
       (Qabs (Nat.iter n weakened (confidence e) - (1#20)) < eps)%Q).
Proof.
  intros Hrec He. unfold entry_at in He.
  destruct (memory (self st) !! a) as [b|] eqn:Hb; [|done]. simpl in He.
  split_and!.
  - intros n. rewrite apply_actions_unfold.
    erewrite weaken_repeat by done.
    do 2 eexists. split; [done|].
    by rewrite entry_at_stored, lookup_insert_eq.
  - done.
  - apply weakened_decreases.
  - intros n. apply iter_weakened_floor.
  - apply iter_weakened_eventually.
  - intros eps Heps.
    destruct (iter_weakened_eventually (confidence e)) as [N HN].
    exists N. intros n Hn. rewrite (HN n Hn).
    eapply Qle_lt_trans; [|exact Heps]. by vm_compute.
Qed.

(** *** Ingestion *)

Lemma for_each_app {A} (body : A → M unit) (l1 l2 : list A) st :
  for_each body (l1 ++ l2) st = (for_each body l1 ;; for_each body l2) st.
Proof.
  revert st. induction l1 as [|x l1 IH]; intros st; [done|]. simpl.
  unfold mbind, M_bind, bind in *. destruct (body x st); [apply IH | done].
Qed.

Lemma ingest_items payload st :
  ingest_extracted_preferences payload st =
  for_each ingest_pref (items payload) st.
Proof.
  unfold ingest_extracted_preferences, items. rewrite for_each_app. simpl.
  unfold mbind, M_bind, bind.
  destruct (for_each _ (default [] (payload !! "hard_preferences")) st)
    as [[] st1|]; [|done].
  by destruct (for_each _ _ st1) as [[]|].
Qed.

Lemma ingest_pref_run pref a v q st :
  parse_pref pref = Some (a, v, q) →
  ingest_pref pref st =
  Done tt
    (with_memory
       (insert a (<[v := {| confidence := q; evidence := 1;
                            last_seen := utcnow (ticks st) |}]>
                    (default ∅ (memory (self st) !! a)))) (tick st)).
Proof.
  unfold parse_pref, ingest_pref, subscript. intros H.
  destruct (pref !! "aspect") as [a0|]; [|done]. simpl in H.
  destruct (pref !! "value") as [v0|]; [|done]. simpl in H.
  destruct (pref !! "strength") as [l|]; [|done]. simpl in H.
  destruct (STRENGTH_TO_CONF !! l) as [q0|] eqn:Hq; [|done]. simpl in H.
  injection H as -> <- ->.
  do 3 (erewrite bind_Done by reflexivity).
  rewrite (bind_Done _ _ _ _ _ (setdefault_run _ _)), Hq.
  do 2 (erewrite bind_Done by reflexivity).
  erewrite setitem_run by apply lookup_insert_eq.
  unfold with_memory, tick. simpl. by rewrite insert_insert_eq.
Qed.

Lemma beliefs_stored a b st :
  beliefs (with_memory (insert a b) st) =
  <[a := (λ e, (confidence e, evidence e)) <$> b]> (beliefs st).
Proof. unfold beliefs. simpl. by rewrite fmap_insert. Qed.

Lemma ingest_pref_learns pref item st :
  parse_pref pref = Some item →
  ∃ st', ingest_pref pref st = Done tt st' ∧
         beliefs st' = learn (beliefs st) item.
Proof.
  destruct item as [[a v] q]. intros H.
  rewrite (ingest_pref_run _ _ _ _ _ H). eexists. split; [done|].
  rewrite beliefs_stored. unfold learn, beliefs. simpl.
  rewrite fmap_insert, lookup_fmap. simpl.
  by destruct (memory (self st) !! a).
Qed.

Lemma ingest_learns prefs l :
  Forall2 (λ pref item, parse_pref pref = Some item) prefs l →
  ∀ st, ∃ st', for_each ingest_pref prefs st = Done tt st' ∧
               beliefs st' = foldl learn (beliefs st) l.
Proof.
  induction 1 as [|pref item prefs l Hp _ IH]; intros st; simpl.
  - by eexists.
  - destruct (ingest_pref_learns _ _ st Hp) as (st1 & Hrun & Hb).
    rewrite (bind_Done _ _ _ _ _ Hrun).
    destruct (IH st1) as (st' & Hrun' & Hb'). exists st'.
    by rewrite Hrun', Hb', Hb.
Qed.

Lemma well_formed_parsed payload :
  well_formed payload →
  ∃ l, Forall2 (λ pref item, parse_pref pref = Some item) (items payload) l.
Proof.
  unfold well_formed. induction 1 as [|pref prefs [item Hp] _ [l IH]].
  - by exists [].
  - exists (item :: l). by constructor.
Qed.

Lemma belief_at_beliefs st a v :
  belief_at (beliefs st) a v =
  (λ e, (confidence e, evidence e)) <$> entry_at st a v.
Proof.
  unfold belief_at, beliefs, entry_at. rewrite lookup_fmap.
  destruct (memory (self st) !! a) as [b|]; simpl; [|done].
  by rewrite lookup_fmap.
Qed.

Lemma parsed_item prefs l pref a v :
  Forall2 (λ pref item, parse_pref pref = Some item) prefs l →
  pref ∈ prefs →
  pref !! "aspect" = Some a →
  pref !! "value" = Some v →
  ∃ q, (a, Py.lower v, q) ∈ l.
Proof.
  intros Hl Hin Ha Hv.
  induction Hl as [|pref' item prefs l Hp _ IH].
  - by apply elem_of_nil in Hin.
  - apply elem_of_cons in Hin as [<-|Hin].
    + unfold parse_pref in Hp. rewrite Ha, Hv in Hp. simpl in Hp.
      destruct (pref !! "strength") as [label|]; [|done]. simpl in Hp.
      destruct (STRENGTH_TO_CONF !! label) as [q|]; [|done].
      injection Hp as <-. exists q. apply list_elem_of_here.
    + destruct (IH Hin) as [q Hq]. exists q. by apply list_elem_of_further.
Qed.

Lemma evidence_of_belief st a v q n :
  belief_at (beliefs st) a v = Some (q, n) →
  evidence <$> entry_at st a v = Some n.
Proof.
  rewrite belief_at_beliefs. destruct (entry_at st a v); [|done].
  simpl. by intros [= _ ->].
Qed.

(** C7. Ingesting a well-formed payload (every item has its three keys and
    a strength label of the table) twice in a row succeeds both times.
    Every entry the payload names, under its aspect and lower-cased value,
    has evidence 1 after the first call and after the second.  The second
    call changes no confidence and no evidence count, and the memory has
    the same aspects, with the same value keys, as after the first. *)
Theorem ingest_twice_overwrites payload st :
  well_formed payload →
  ∃ st1 st2,
    ingest_extracted_preferences payload st = Done tt st1 ∧
    ingest_extracted_preferences payload st1 = Done tt st2 ∧
    (∀ pref a v,
       pref ∈ items payload →
       pref !! "aspect" = Some a →
       pref !! "value" = Some v →
       evidence <$> entry_at st1 a (Py.lower v) = Some 1%Z ∧
       evidence <$> entry_at st2 a (Py.lower v) = Some 1%Z) ∧
    beliefs st2 = beliefs st1 ∧
    (∀ a v,
       confidence <$> entry_at st2 a v = confidence <$> entry_at st1 a v) ∧
    (∀ a,
       dom <$> memory (self st2) !! a = dom <$> memory (self st1) !! a).
Proof.
  intros Hwf. destruct (well_formed_parsed _ Hwf) as [l Hl].
  destruct (ingest_learns _ _ Hl st) as (st1 & Hrun1 & Hb1).
  destruct (ingest_learns _ _ Hl st1) as (st2 & Hrun2 & Hb2).
  assert (beliefs st2 = beliefs st1) as Hsame.
  { rewrite Hb2, Hb1. apply learn_twice. }
  exists st1, st2. rewrite !ingest_items. split_and!; [done..| | done | |].
  - intros pref a v Hin Ha Hv.
    destruct (parsed_item _ _ _ _ _ Hl Hin Ha Hv) as [q Hq].
    destruct (learnt_evidence l (beliefs st) _ _ _ Hq) as [q1 H1].
    destruct (learnt_evidence l (beliefs st1) _ _ _ Hq) as [q2 H2].
    rewrite <- Hb1 in H1. rewrite <- Hb2 in H2.
    split; by eapply evidence_of_belief.
  - intros a v.
    assert (belief_at (beliefs st2) a v = belief_at (beliefs st1) a v) as H
      by (by rewrite Hsame).
    rewrite !belief_at_beliefs in H.
    destruct (entry_at st2 a v), (entry_at st1 a v); simpl in *; congruence.
  - intros a.
    assert (beliefs st2 !! a = beliefs st1 !! a) as H by (by rewrite Hsame).
    unfold beliefs in H. rewrite !lookup_fmap in H.
    destruct (memory (self st2) !! a) as [b2|],
             (memory (self st1) !! a) as [b1|]; simpl in *; try done.
    injection H as H. f_equal.
    apply (f_equal dom) in H. by rewrite !dom_fmap_L in H.
Qed.

(** An item whose strength label is not in the table makes
    [ingest_extracted_preferences] raise: the lookup of line 29 has no
    default. *)
Lemma ingest_pref_unknown_label pref a v label st :
  pref !! "aspect" = Some a →
  pref !! "value" = Some v →
  pref !! "strength" = Some label →
  STRENGTH_TO_CONF !! label = None →
  ingest_pref pref st =
  Raised KeyError
    (with_memory (insert a (default ∅ (memory (self st) !! a))) st).
Proof.
  intros Ha Hv Hl Hq. unfold ingest_pref, subscript. rewrite Ha, Hv, Hl.
  do 3 (erewrite bind_Done by reflexivity).
  rewrite (bind_Done _ _ _ _ _ (setdefault_run _ _)), Hq.
  by erewrite bind_Raised by reflexivity.
Qed.

(** *** Evidence counts *)

Lemma entry_at_stored_ne a a' b v st :
  a ≠ a' → entry_at (with_memory (insert a b) st) a' v = entry_at st a' v.
Proof. intros H. unfold entry_at. simpl. by rewrite lookup_insert_ne. Qed.

Lemma valid_default st a :
  valid st → bucket_valid (default ∅ (memory (self st) !! a)).
Proof.
  intros Hst v e Hv. apply (Hst a v). unfold entry_at.
  destruct (memory (self st) !! a); [done|].
  simpl in Hv. by rewrite lookup_empty in Hv.
Qed.

Lemma valid_stored st a b :
  valid st → bucket_valid b → valid (with_memory (insert a b) st).
Proof.
  intros Hst Hb a' v e. destruct (decide (a = a')) as [<-|Hne].
  - rewrite entry_at_stored. apply Hb.
  - rewrite entry_at_stored_ne by done. apply Hst.
Qed.

Lemma final_store a r st :
  final (store a r st) = with_memory (insert a r.2) st.
Proof. unfold store. by destruct r.1. Qed.

(** A record is skipped, or it passes the checks. *)
Lemma apply_action_cases now act st :
  apply_action now act st = Done tt st ∨
  ∃ action a v, is_record act action a v.
Proof.
  unfold apply_action, is_record.
  destruct (Py.truthy (act !! "action")) as [action|]; [|by left].
  destruct (Py.truthy (act !! "aspect")) as [a|]; [|by left].
  destruct (Py.truthy (act !! "value")) as [v0|]; [|by left].
  destruct (decide (a ∈ ASPECTS)) as [Hin|Hout].
  - right. exists action, a, (Py.lower v0). split_and!; eauto.
  - left. by rewrite (bool_decide_eq_false_2 _ Hout).
Qed.

(** [valid] is an invariant of the loop body, also when it raises. *)
Lemma apply_action_valid now act st :
  valid st → valid (final (apply_action now act st)).
Proof.
  intros Hst.
  destruct (apply_action_cases now act st)
    as [-> | (action & a & v & Hrec)]; [done|].
  rewrite (apply_action_record _ _ _ _ _ _ Hrec), final_store.
  apply valid_stored; [done|]. apply bucket_step_valid. by apply valid_default.
Qed.

(** One record never lowers the evidence of an entry that it keeps. *)
Lemma apply_action_evidence now act st a v e e' :
  valid st →
  entry_at st a v = Some e →
  entry_at (final (apply_action now act st)) a v = Some e' →
  (evidence e ≤ evidence e')%Z.
Proof.
  intros Hst He.
  destruct (apply_action_cases now act st)
    as [-> | (action & a0 & v0 & Hrec)].
  { simpl. intros He'. replace e' with e by congruence. lia. }
  rewrite (apply_action_record _ _ _ _ _ _ Hrec), final_store.
  destruct (decide (a0 = a)) as [->|Hne].
  - rewrite entry_at_stored. apply bucket_step_evidence.
    + by apply valid_default.
    + unfold entry_at in He. by destruct (memory (self st) !! a).
  - rewrite entry_at_stored_ne by done.
    intros He'. replace e' with e by congruence. lia.
Qed.

Lemma for_each_valid now actions : ∀ st,
  valid st → valid (final (for_each (apply_action now) actions st)).
Proof.
  induction actions as [|act actions IH]; intros st Hst; [done|]. simpl.
  pose proof (apply_action_valid now act st Hst) as H1.
  unfold mbind, M_bind, bind.
  destruct (apply_action now act st) as [[] st1|x st1]; [by apply IH | done].
Qed.

Lemma for_each_evidence now actions a v : ∀ st e,
  valid st →
  entry_at st a v = Some e →
  (∀ k, is_Some (entry_at
                   (final (for_each (apply_action now) (take k actions) st))
                   a v)) →
  ∃ e', entry_at (final (for_each (apply_action now) actions st)) a v
          = Some e' ∧
        (evidence e ≤ evidence e')%Z.
Proof.
  induction actions as [|act actions IH]; intros st e Hst He Hkept.
  { exists e. split; [done | lia]. }
  pose proof (apply_action_valid now act st Hst) as Hst1.
  pose proof (apply_action_evidence now act st a v e) as Hstep.
  pose proof (Hkept 1%nat) as [e1 He1].
  assert (∀ k, for_each (apply_action now) (take (S k) (act :: actions)) st =
               match apply_action now act st with
               | Done _ st1 => for_each (apply_action now) (take k actions) st1
               | Raised x st1 => Raised x st1
               end) as Hcons.
  { intros k. simpl. unfold mbind, M_bind, bind.
    by destruct (apply_action now act st) as [[]|]. }
  rewrite (Hcons 0%nat) in He1.
  assert (∀ k, is_Some
                 (entry_at
                    (final
                       match apply_action now act st with
                       | Done _ st1 =>
                           for_each (apply_action now) (take k actions) st1
                       | Raised x st1 => Raised x st1
                       end) a v)) as Hkept'.
  { intros k. rewrite <- Hcons. apply Hkept. }
  clear Hkept Hcons.
  assert (for_each (apply_action now) (act :: actions) st =
          match apply_action now act st with
          | Done _ st1 => for_each (apply_action now) actions st1
          | Raised x st1 => Raised x st1
          end) as ->.
  { simpl. unfold mbind, M_bind, bind.
    by destruct (apply_action now act st) as [[]|]. }
  destruct (apply_action now act st) as [[] st1|x st1]; simpl in *.
  - specialize (Hstep e1 Hst He He1).
    destruct (IH st1 e1 Hst1 He1 Hkept') as (e' & He' & Hle).
    exists e'. split; [done | lia].
  - exists e1. split; [done|]. by apply Hstep.
Qed.

(** [valid] holds of a fresh profile and is kept by both operations. *)
Lemma init_valid uid n : valid {| self := init uid; ticks := n |}.
Proof. intros a v e. unfold entry_at. simpl. by rewrite lookup_empty. Qed.

Lemma apply_actions_valid actions st :
  valid st → valid (final (apply_actions actions st)).
Proof. intros Hst. rewrite apply_actions_unfold. by apply for_each_valid. Qed.

Lemma ingest_pref_valid pref st :
  valid st → valid (final (ingest_pref pref st)).
Proof.
  intros Hst. unfold ingest_pref, subscript.
  destruct (pref !! "aspect") as [a|]; [|done].
  erewrite bind_Done by reflexivity.
  destruct (pref !! "value") as [v|]; [|done].
  erewrite bind_Done by reflexivity.
  destruct (pref !! "strength") as [label|]; [|done].
  erewrite bind_Done by reflexivity.
  rewrite (bind_Done _ _ _ _ _ (setdefault_run _ _)).
  pose proof (valid_default st a Hst) as Hb.
  destruct (STRENGTH_TO_CONF !! label) as [q|].
  - do 2 (erewrite bind_Done by reflexivity).
    erewrite setitem_run by apply lookup_insert_eq. simpl.
    apply (valid_stored (tick (with_memory _ st))).
    + by apply valid_stored.
    + intros v' e [[_ <-]|[_ H]]%lookup_insert_Some; [done | eauto].
  - erewrite bind_Raised by reflexivity. simpl. by apply valid_stored.
Qed.

Lemma ingest_valid payload st :
  valid st → valid (final (ingest_extracted_preferences payload st)).
Proof.
  rewrite ingest_items. generalize (items payload). intros prefs. revert st.
  induction prefs as [|pref prefs IH]; intros st Hst; [done|]. simpl.
  pose proof (ingest_pref_valid pref st Hst) as H1.
  unfold mbind, M_bind, bind.
  destruct (ingest_pref pref st) as [[] st1|x st1]; [by apply IH | done].
Qed.

(** A property kept by every iteration, also by one that raises, holds of
    the state in which the loop ends. *)
Lemma for_each_final {A} (P : State → Prop) (body : A → M unit) (l : list A) :
  (∀ x st, x ∈ l → P st → P (final (body x st))) →
  ∀ st, P st → P (final (for_each body l st)).
Proof.
  induction l as [|x l IH]; intros Hbody st Hst; [done|]. simpl.
  pose proof (Hbody x st (list_elem_of_here _ _) Hst) as H1.
  unfold mbind, M_bind, bind.
  destruct (body x st) as [[] st1|y st1]; [|done].
  apply IH; [|done]. intros z st' Hz. apply Hbody.
  by apply list_elem_of_further.
Qed.

Lemma entry_at_default st a v :
  default ∅ (memory (self st) !! a) !! v = entry_at st a v.
Proof. unfold entry_at. by destruct (memory (self st) !! a). Qed.

(** One item, in whatever shape, changes no entry but the one it names. *)
Lemma ingest_pref_frame pref st a v :
  (∀ v0, pref !! "aspect" = Some a → pref !! "value" = Some v0 →
         Py.lower v0 ≠ v) →
  entry_at (final (ingest_pref pref st)) a v = entry_at st a v.
Proof.
  intros Hother. unfold ingest_pref, subscript.
  destruct (pref !! "aspect") as [a0|] eqn:Ha; [|done].
  erewrite bind_Done by reflexivity.
  destruct (pref !! "value") as [v0|] eqn:Hv; [|done].
  erewrite bind_Done by reflexivity.
  destruct (pref !! "strength") as [label|]; [|done].
  erewrite bind_Done by reflexivity.
  rewrite (bind_Done _ _ _ _ _ (setdefault_run _ _)).
  assert (entry_at
            (with_memory (insert a0 (default ∅ (memory (self st) !! a0))) st)
            a v = entry_at st a v) as Hsame.
  { destruct (decide (a0 = a)) as [->|Hne].
    - by rewrite entry_at_stored, entry_at_default.
    - by rewrite entry_at_stored_ne. }
  destruct (STRENGTH_TO_CONF !! label) as [q|].
  - do 2 (erewrite bind_Done by reflexivity).
    erewrite setitem_run by apply lookup_insert_eq. simpl.
    destruct (decide (a0 = a)) as [->|Hne].
    + rewrite entry_at_stored, lookup_insert_ne by (by apply Hother).
      by rewrite entry_at_default.
    + unfold entry_at. simpl. by rewrite !lookup_insert_ne.
  - erewrite bind_Raised by reflexivity. simpl. apply Hsame.
Qed.

(** One item leaves an entry as it was, or writes it with evidence 1. *)
Lemma ingest_pref_evidence pref st a v e' :
  entry_at (final (ingest_pref pref st)) a v = Some e' →
  entry_at st a v = Some e' ∨ evidence e' = 1%Z.
Proof.
  unfold ingest_pref, subscript.
  destruct (pref !! "aspect") as [a0|]; [|by left].
  erewrite bind_Done by reflexivity.
  destruct (pref !! "value") as [v0|]; [|by left].
  erewrite bind_Done by reflexivity.
  destruct (pref !! "strength") as [label|]; [|by left].
  erewrite bind_Done by reflexivity.
  rewrite (bind_Done _ _ _ _ _ (setdefault_run _ _)).
  destruct (STRENGTH_TO_CONF !! label) as [q|].
  - do 2 (erewrite bind_Done by reflexivity).
    erewrite setitem_run by apply lookup_insert_eq. simpl.
    destruct (decide (a0 = a)) as [->|Hne].
    + rewrite entry_at_stored.
      destruct (decide (Py.lower v0 = v)) as [<-|Hv].
      * rewrite lookup_insert_eq. intros [= <-]. by right.
      * rewrite lookup_insert_ne, entry_at_default by done. by left.
    + unfold entry_at. simpl. rewrite !lookup_insert_ne by done. by left.
  - erewrite bind_Raised by reflexivity. simpl.
    destruct (decide (a0 = a)) as [->|Hne].
    + rewrite entry_at_stored, entry_at_default. by left.
    + rewrite entry_at_stored_ne by done. by left.
Qed.

(** C3 (amended). For an entry that is present before an operation of the
    store.
    - [apply_actions], on a memory whose evidence counts are all at least
      1: if the entry is present after each record of the list has been
      applied, then at the end its evidence is greater than or equal to
      the evidence it had before.
    - [ingest_extracted_preferences]: if no item of the payload has the
      aspect of the entry and a value that lower-cases to its value, the
      entry is the same afterwards, so its evidence is kept.  Whatever the
      payload, if the entry is present afterwards it is the entry as it
      was, or it has evidence 1.  After a well-formed payload with an item
      that names the entry, the call has succeeded and the evidence of the
      entry is 1. *)
Theorem evidence_across_operations st a v e :
  entry_at st a v = Some e →
  (∀ actions,
     valid st →
     (∀ k, is_Some
             (entry_at (final (apply_actions (take k actions) st)) a v)) →
     ∃ e', entry_at (final (apply_actions actions st)) a v = Some e' ∧
           (evidence e ≤ evidence e')%Z) ∧
  (∀ payload,
     (∀ pref v0, pref ∈ items payload →
        pref !! "aspect" = Some a → pref !! "value" = Some v0 →
        Py.lower v0 ≠ v) →
     entry_at (final (ingest_extracted_preferences payload st)) a v
       = Some e) ∧
  (∀ payload e',
     entry_at (final (ingest_extracted_preferences payload st)) a v
       = Some e' →
     e' = e ∨ evidence e' = 1%Z) ∧
  (∀ payload pref v0,
     well_formed payload →
     pref ∈ items payload →
     pref !! "aspect" = Some a → pref !! "value" = Some v0 →
     Py.lower v0 = v →
     ∃ st', ingest_extracted_preferences payload st = Done tt st' ∧
            evidence <$> entry_at st' a v = Some 1%Z).
Proof.
  intros He. split_and!.
  - intros actions Hst Hkept. rewrite apply_actions_unfold.
    apply for_each_evidence; [done | done |].
    intros k. specialize (Hkept k). by rewrite apply_actions_unfold in Hkept.
  - intros payload Hother. rewrite ingest_items, <- He.
    apply (for_each_final (λ st', entry_at st' a v = entry_at st a v));
      [|done].
    intros pref st' Hpref <-. apply ingest_pref_frame. eauto.
  - intros payload. rewrite ingest_items.
    apply (for_each_final
             (λ st', ∀ e', entry_at st' a v = Some e' →
                           e' = e ∨ evidence e' = 1%Z)).
    + intros pref st' _ IH e' [H|H]%ingest_pref_evidence; [eauto | by right].
    + intros e' He'. left. congruence.
  - intros payload pref v0 Hwf Hin Ha Hv <-.
    destruct (well_formed_parsed _ Hwf) as [l Hl].
    destruct (ingest_learns _ _ Hl st) as (st1 & Hrun1 & Hb1).
    exists st1. rewrite ingest_items. split; [done|].
    destruct (parsed_item _ _ _ _ _ Hl Hin Ha Hv) as [q Hq].
    destruct (learnt_evidence l (beliefs st) _ _ _ Hq) as [q1 H1].
    rewrite <- Hb1 in H1. by eapply evidence_of_belief.
Qed.

End Properties.

(** ** The statements on the sample configuration *)

Section Scenarios.

Import Sample.

Local Abbreviation run_actions :=
  (apply_actions ASPECTS STRENGTH_TO_CONF utcnow).
Local Abbreviation run_ingest :=
  (ingest_extracted_preferences STRENGTH_TO_CONF utcnow).

(** Closes [is_record] and [is_merge] goals on concrete records. *)
Ltac concrete_record :=
  repeat split;
  first [ reflexivity
        | by apply (bool_decide_unpack _)
        | eexists; split; reflexivity ].

(** C6 on the sample: an [add] for the aspect "mood", which is not in the
    vocabulary, leaves a one-entry memory as it is. *)
Lemma apply_actions_foreign_aspects_witness :
  (∀ act a, act ∈ [record "add" "mood" "Happy"] →
            act !! "aspect" = Some a → a ∉ ASPECTS) ∧
  run_actions [record "add" "mood" "Happy"] (state_of italian_only)
    = Done tt (tick (state_of italian_only)) ∧
  memory (self (final (run_actions [record "add" "mood" "Happy"]
                         (state_of italian_only)))) = italian_only.
Proof.
  assert (∀ act a, act ∈ [record "add" "mood" "Happy"] →
                   act !! "aspect" = Some a → a ∉ ASPECTS) as H.
  { intros act a ->%list_elem_of_singleton [= <-].
    by apply (bool_decide_unpack _). }
  split; [exact H|].
  exact (apply_actions_foreign_aspects ASPECTS STRENGTH_TO_CONF utcnow
           _ (state_of italian_only) H).
Defined.

(** C9 on the sample: [ignore] on a fresh profile. *)
Lemma noop_record_creates_bucket_witness :
  is_record ASPECTS (record "ignore" "cuisine" "Sushi")
    "ignore" "cuisine" "sushi" ∧
  "ignore" ≠ "add" ∧
  memory (self fresh) !! "cuisine" = None ∧
  has_memory (self (final (run_actions [record "ignore" "cuisine" "Sushi"]
                             fresh))) = true ∧
  get_memory_view (self (final (run_actions
                                  [record "ignore" "cuisine" "Sushi"] fresh)))
    !! "cuisine" = None.
Proof.
  assert (is_record ASPECTS (record "ignore" "cuisine" "Sushi")
            "ignore" "cuisine" "sushi") as H1 by concrete_record.
  assert ("ignore" ≠ "add") as H2 by discriminate.
  assert (memory (self fresh) !! "cuisine" = None) as H3 by reflexivity.
  split_and!; [exact H1 | exact H2 | exact H3 | |];
    apply (noop_record_creates_bucket ASPECTS STRENGTH_TO_CONF utcnow
             _ _ _ _ fresh H1 H2 H3).
Defined.

(** C1 on the sample: the merge scenario of the specification. *)
Lemma merge_absorbs_value_witness :
  is_merge ASPECTS
    (record_with "merge" "cuisine" "Italian" "target" "Mediterranean")
    "cuisine" "italian" "mediterranean" ∧
  entry_at (state_of two_cuisines) "cuisine" "mediterranean"
    = Some (entry (1#2) 2) ∧
  entry_at (state_of two_cuisines) "cuisine" "italian"
    = Some (entry (4#5) 1) ∧
  "italian" ≠ "mediterranean" ∧
  ∃ st',
    run_actions
      [record_with "merge" "cuisine" "Italian" "target" "Mediterranean"]
      (state_of two_cuisines) = Done tt st' ∧
    entry_at st' "cuisine" "mediterranean"
      = Some {| confidence := 4#5; evidence := 3; last_seen := utcnow 0 |} ∧
    entry_at st' "cuisine" "italian" = None.
Proof.
  assert (is_merge ASPECTS
            (record_with "merge" "cuisine" "Italian" "target" "Mediterranean")
            "cuisine" "italian" "mediterranean") as H1 by concrete_record.
  assert (entry_at (state_of two_cuisines) "cuisine" "mediterranean"
            = Some (entry (1#2) 2)) as H2 by reflexivity.
  assert (entry_at (state_of two_cuisines) "cuisine" "italian"
            = Some (entry (4#5) 1)) as H3 by reflexivity.
  assert ("italian" ≠ "mediterranean") as H4 by discriminate.
  split_and!; [exact H1 | exact H2 | exact H3 | exact H4 |].
  destruct (merge_absorbs_value ASPECTS STRENGTH_TO_CONF utcnow
              _ _ _ _ _ _ _ H1 H2 H3 H4) as (st' & Hrun & Ht & _ & Hv).
  exists st'. split_and!; [exact Hrun | exact Ht | exact Hv].
Defined.

(** C1 fails when value and target are the same key: the entry is deleted
    at line 92 and the statement of line 94 raises [KeyError], so that
    afterwards there is no target entry at all. *)
Lemma merge_same_key_counterexample :
  is_merge ASPECTS (record_with "merge" "cuisine" "Italian" "target" "italian")
    "cuisine" "italian" "italian" ∧
  entry_at (state_of italian_only) "cuisine" "italian"
    = Some (entry (3#5) 1) ∧
  run_actions [record_with "merge" "cuisine" "Italian" "target" "italian"]
    (state_of italian_only)
    = Raised KeyError (with_memory (insert "cuisine" ∅)
                         (tick (state_of italian_only))) ∧
  ¬ ∃ e', entry_at
            (final (run_actions
                      [record_with "merge" "cuisine" "Italian"
                         "target" "italian"]
                      (state_of italian_only)))
            "cuisine" "italian" = Some e'.
Proof.
  split_and!.
  - concrete_record.
  - reflexivity.
  - vm_compute. reflexivity.
  - intros [e' He']. vm_compute in He'. discriminate He'.
Qed.

(** C2 on the sample: merging "mediterranean" into itself. *)
Lemma self_merge_deletes_target_witness :
  is_merge ASPECTS
    (record_with "merge" "cuisine" "Mediterranean" "target" "mediterranean")
    "cuisine" "mediterranean" "mediterranean" ∧
  entry_at (state_of two_cuisines) "cuisine" "mediterranean"
    = Some (entry (1#2) 2) ∧
  ∃ st',
    run_actions
      [record_with "merge" "cuisine" "Mediterranean" "target" "mediterranean"]
      (state_of two_cuisines) = Raised KeyError st' ∧
    entry_at st' "cuisine" "mediterranean" = None ∧
    S (value_count st' "cuisine") = value_count (state_of two_cuisines) "cuisine".
Proof.
  assert (is_merge ASPECTS
            (record_with "merge" "cuisine" "Mediterranean"
               "target" "mediterranean")
            "cuisine" "mediterranean" "mediterranean") as H1
    by concrete_record.
  assert (entry_at (state_of two_cuisines) "cuisine" "mediterranean"
            = Some (entry (1#2) 2)) as H2 by reflexivity.
  split_and!; [exact H1 | exact H2 |].
  exact (self_merge_deletes_target ASPECTS STRENGTH_TO_CONF utcnow
           _ _ _ _ _ H1 H2).
Defined.

(** C4 on the sample: the reinforce scenario of the specification, from
    [(0.6, 1)] with strength 0.9 to [(0.75, 2)]; here the three roundings
    give 0.75 exactly. *)
Lemma reinforce_weighted_mean_witness :
  is_record ASPECTS
    (record_with "reinforce" "cuisine" "Italian" "strength" "strong")
    "reinforce" "cuisine" "italian" ∧
  entry_at (state_of italian_only) "cuisine" "italian"
    = Some (entry (3#5) 1) ∧
  (0 ≤ evidence (entry (3#5) 1) < 2 ^ 53)%Z ∧
  (0 <= B64.round (confidence (entry (3#5) 1)))%Q ∧
  (B64.round (confidence (entry (3#5) 1)) <= 1)%Q ∧
  (0 <= B64.round
          (resolve_strength STRENGTH_TO_CONF
             (record_with "reinforce" "cuisine" "Italian"
                "strength" "strong")))%Q ∧
  (B64.round
     (resolve_strength STRENGTH_TO_CONF
        (record_with "reinforce" "cuisine" "Italian" "strength" "strong"))
   <= 1)%Q ∧
  ∃ st' e',
    run_actions
      [record_with "reinforce" "cuisine" "Italian" "strength" "strong"]
      (state_of italian_only) = Done tt st' ∧
    entry_at st' "cuisine" "italian" = Some e' ∧
    confidence e' = (3#4)%Q ∧
    evidence e' = 2%Z ∧
    (B64.round (3#5) * (1 - B64.pow2 (-50)) <= confidence e')%Q ∧
    (confidence e' <= B64.round (9#10) * (1 + B64.pow2 (-50)))%Q.
Proof.
  assert (is_record ASPECTS
            (record_with "reinforce" "cuisine" "Italian" "strength" "strong")
            "reinforce" "cuisine" "italian") as H1 by concrete_record.
  assert (entry_at (state_of italian_only) "cuisine" "italian"
            = Some (entry (3#5) 1)) as H2 by reflexivity.
  assert (0 ≤ evidence (entry (3#5) 1) < 2 ^ 53)%Z as H3 by (simpl; lia).
  assert (0 <= B64.round (confidence (entry (3#5) 1)))%Q as H4
    by (by vm_compute).
  assert (B64.round (confidence (entry (3#5) 1)) <= 1)%Q as H5
    by (by vm_compute).
  assert (0 <= B64.round
                 (resolve_strength STRENGTH_TO_CONF
                    (record_with "reinforce" "cuisine" "Italian"
                       "strength" "strong")))%Q as H6
    by (by vm_compute).
  assert (B64.round
            (resolve_strength STRENGTH_TO_CONF
               (record_with "reinforce" "cuisine" "Italian"
                  "strength" "strong")) <= 1)%Q as H7
    by (by vm_compute).
  split; [exact H1|]. split; [exact H2|]. split; [exact H3|].
  split; [exact H4|]. split; [exact H5|]. split; [exact H6|].
  split; [exact H7|].
  destruct (reinforce_weighted_mean ASPECTS STRENGTH_TO_CONF utcnow
              _ _ _ _ _ H1 H2 H3 H4 H5 H6 H7)
    as (st' & e' & Hrun & He' & Hc & Hev & _ & _ & Hnear).
  exists st', e'.
  destruct Hnear as [Hlow Hhigh]; [by vm_compute | by vm_compute |].
  split_and!; [exact Hrun | exact He' | | exact Hev | |].
  - rewrite Hc. vm_compute. reflexivity.
  - eapply Qle_trans; [|exact Hlow]. by vm_compute.
  - eapply Qle_trans; [exact Hhigh|]. by vm_compute.
Defined.

(** C4 fails as stated.  An entry added with the default strength 0.6 and
    reinforced five times with it still has confidence 0.6, now with
    evidence 6; the next reinforce computes [(0.6*6 + 0.6)/7] and stores
    0.59999999999999987, which is below both 0.6 and 0.6.  The last two
    lines evaluate the same expression in the binary64 arithmetic of the
    processor: it agrees with the value that the state holds. *)
Lemma reinforce_below_min_counterexample :
  let act := record "reinforce" "cuisine" "Italian" in
  let st :=
    final (run_actions
             [record "add" "cuisine" "Italian"; act; act; act; act; act]
             fresh) in
  resolve_strength STRENGTH_TO_CONF act = (3#5)%Q ∧
  (B64.round (3#5) == 5404319552844595 # 9007199254740992)%Q ∧
  ∃ e e',
    entry_at st "cuisine" "italian" = Some e ∧
    confidence e = B64.round (3#5) ∧
    evidence e = 6%Z ∧
    run_actions [act] st
      = Done tt (final (run_actions [act] st)) ∧
    entry_at (final (run_actions [act] st)) "cuisine" "italian" = Some e' ∧
    evidence e' = 7%Z ∧
    (confidence e' == 5404319552844594 # 9007199254740992)%Q ∧
    (confidence e'
     < Qmin (B64.round (confidence e))
            (B64.round (resolve_strength STRENGTH_TO_CONF act)))%Q ∧
    B64.of_float
      ((0x1.3333333333333p-1 * 6 + 0x1.3333333333333p-1) / 7)%float
      = Some (confidence e') ∧
    PrimFloat.ltb
      ((0x1.3333333333333p-1 * 6 + 0x1.3333333333333p-1) / 7)%float
      0x1.3333333333333p-1%float = true.
Proof.
  split_and!; [reflexivity | by vm_compute |].
  do 2 eexists.
  split_and!; [vm_compute; reflexivity ..| by vm_compute | by vm_compute
              | vm_compute; reflexivity | vm_compute; reflexivity ].
Qed.

(** C5 on the sample: the weaken scenario of the specification, from 0.1
    to 0.06, and on to the floor. *)
Lemma weaken_floor_witness :
  is_record ASPECTS (record "weaken" "cuisine" "Italian")
    "weaken" "cuisine" "italian" ∧
  entry_at (state_of faint) "cuisine" "italian" = Some (entry (1#10) 1) ∧
  (∃ st' e',
     run_actions [record "weaken" "cuisine" "Italian"] (state_of faint)
       = Done tt st' ∧
     entry_at st' "cuisine" "italian" = Some e' ∧
     confidence e' = ((1#10) * (3#5))%Q ∧
     evidence e' = 1%Z) ∧
  (∃ N, ∀ n, (N ≤ n)%nat → Nat.iter n weakened (1#10)%Q = (1#20)%Q).
Proof.
  assert (is_record ASPECTS (record "weaken" "cuisine" "Italian")
            "weaken" "cuisine" "italian") as H1 by concrete_record.
  assert (entry_at (state_of faint) "cuisine" "italian"
            = Some (entry (1#10) 1)) as H2 by reflexivity.
  split_and!; [exact H1 | exact H2 | |];
    destruct (weaken_floor ASPECTS STRENGTH_TO_CONF utcnow _ _ _ _ _ H1 H2)
      as (Hrun & _ & _ & _ & Hconv & _).
  - exact (Hrun 0%nat).
  - exact Hconv.
Defined.

(** C3 fails as stated.  Ingesting again resets the evidence of a
    reinforced entry from 2 to 1; and within one action list, an entry that
    is merged away and then added again restarts at evidence 1. *)
Lemma evidence_decreases_counterexample :
  (evidence <$>
     entry_at
       (final (run_actions
                 [record_with "reinforce" "cuisine" "Italian"
                    "strength" "strong"]
                 (final (run_ingest (hard [pref "cuisine" "Italian" "strong"])
                           fresh))))
       "cuisine" "italian" = Some 2%Z ∧
   evidence <$>
     entry_at
       (final (run_ingest (hard [pref "cuisine" "Italian" "strong"])
                 (final (run_actions
                           [record_with "reinforce" "cuisine" "Italian"
                              "strength" "strong"]
                           (final (run_ingest
                                     (hard [pref "cuisine" "Italian" "strong"])
                                     fresh))))))
       "cuisine" "italian" = Some 1%Z) ∧
  (evidence <$> entry_at (state_of well_known) "cuisine" "italian"
     = Some 3%Z ∧
   evidence <$>
     entry_at
       (final (run_actions
                 [record_with "merge" "cuisine" "Italian"
                    "target" "Mediterranean";
                  record "add" "cuisine" "Italian"]
                 (state_of well_known)))
       "cuisine" "italian" = Some 1%Z).
Proof. split_and!; vm_compute; reflexivity. Qed.

(** C3 on the sample, for the only entry of a memory: reinforcing it,
    ingesting an item for another value, and ingesting an item for it. *)
Lemma evidence_across_operations_witness :
  entry_at (state_of italian_only) "cuisine" "italian"
    = Some (entry (3#5) 1) ∧
  valid (state_of italian_only) ∧
  (∀ k, is_Some
          (entry_at
             (final (run_actions
                       (take k [record "reinforce" "cuisine" "Italian"])
                       (state_of italian_only)))
             "cuisine" "italian")) ∧
  (∀ p v0, p ∈ items (hard [pref "cuisine" "Sushi" "strong"]) →
     p !! "aspect" = Some "cuisine" → p !! "value" = Some v0 →
     Py.lower v0 ≠ "italian") ∧
  well_formed STRENGTH_TO_CONF (hard [pref "cuisine" "Italian" "strong"]) ∧
  (∃ e',
     entry_at
       (final (run_actions [record "reinforce" "cuisine" "Italian"]
                 (state_of italian_only)))
       "cuisine" "italian" = Some e' ∧
     (1 ≤ evidence e')%Z) ∧
  entry_at
    (final (run_ingest (hard [pref "cuisine" "Sushi" "strong"])
              (state_of italian_only)))
    "cuisine" "italian" = Some (entry (3#5) 1) ∧
  (∃ st',
     run_ingest (hard [pref "cuisine" "Italian" "strong"])
       (state_of italian_only) = Done tt st' ∧
     evidence <$> entry_at st' "cuisine" "italian" = Some 1%Z).
Proof.
  assert (entry_at (state_of italian_only) "cuisine" "italian"
            = Some (entry (3#5) 1)) as H1 by reflexivity.
  assert (valid (state_of italian_only)) as H2.
  { intros a v e. unfold entry_at, state_of, italian_only. simpl.
    intros (b & [<- <-]%lookup_singleton_Some & [<- <-]%lookup_singleton_Some)
             %bind_Some.
    simpl. lia. }
  assert (∀ k, is_Some
                 (entry_at
                    (final (run_actions
                              (take k [record "reinforce" "cuisine" "Italian"])
                              (state_of italian_only)))
                    "cuisine" "italian")) as H3.
  { intros [|k].
    - eexists. reflexivity.
    - replace (take (S k) [record "reinforce" "cuisine" "Italian"])
        with [record "reinforce" "cuisine" "Italian"]
        by (simpl; by rewrite take_nil).
      eexists. vm_compute. reflexivity. }
  assert (∀ p v0, p ∈ items (hard [pref "cuisine" "Sushi" "strong"]) →
            p !! "aspect" = Some "cuisine" → p !! "value" = Some v0 →
            Py.lower v0 ≠ "italian") as H4.
  { intros p v0.
    change (items (hard [pref "cuisine" "Sushi" "strong"]))
      with [pref "cuisine" "Sushi" "strong"].
    intros ->%list_elem_of_singleton _ [= <-]. discriminate. }
  assert (well_formed STRENGTH_TO_CONF
            (hard [pref "cuisine" "Italian" "strong"])) as H5.
  { unfold well_formed.
    change (items (hard [pref "cuisine" "Italian" "strong"]))
      with [pref "cuisine" "Italian" "strong"].
    repeat constructor. eexists. reflexivity. }
  destruct (evidence_across_operations ASPECTS STRENGTH_TO_CONF utcnow
              _ _ _ _ H1) as (Hact & Hframe & _ & Hreset).
  split; [exact H1|]. split; [exact H2|]. split; [exact H3|].
  split; [exact H4|]. split; [exact H5|].
  split; [exact (Hact _ H2 H3)|]. split; [exact (Hframe _ H4)|].
  apply (Hreset _ (pref "cuisine" "Italian" "strong") "Italian" H5);
    [apply list_elem_of_here | reflexivity | reflexivity | reflexivity].
Defined.

(** C7 on the sample: the ingestion scenario of the specification, run
    twice. *)
Lemma ingest_twice_overwrites_witness :
  well_formed STRENGTH_TO_CONF (hard [pref "cuisine" "Italian" "strong"]) ∧
  ∃ st1 st2,
    run_ingest (hard [pref "cuisine" "Italian" "strong"]) fresh
      = Done tt st1 ∧
    run_ingest (hard [pref "cuisine" "Italian" "strong"]) st1
      = Done tt st2 ∧
    evidence <$> entry_at st1 "cuisine" "italian" = Some 1%Z ∧
    evidence <$> entry_at st2 "cuisine" "italian" = Some 1%Z ∧
    beliefs st2 = beliefs st1.
Proof.
  assert (well_formed STRENGTH_TO_CONF
            (hard [pref "cuisine" "Italian" "strong"])) as H1.
  { unfold well_formed.
    change (items (hard [pref "cuisine" "Italian" "strong"]))
      with [pref "cuisine" "Italian" "strong"].
    repeat constructor. eexists. reflexivity. }
  split; [exact H1|].
  destruct (ingest_twice_overwrites STRENGTH_TO_CONF utcnow _ fresh H1)
    as (st1 & st2 & Hrun1 & Hrun2 & Hev & Hb & _).
  exists st1, st2.
  destruct (Hev (pref "cuisine" "Italian" "strong") "cuisine" "Italian")
    as [Hev1 Hev2]; [apply list_elem_of_here | reflexivity | reflexivity |].
  split_and!; [exact Hrun1 | exact Hrun2 | exact Hev1 | exact Hev2 | exact Hb].
Defined.

(** C8 fails as stated for a record without a strength key: it gets the
    table entry of "medium", here 0.5, and an added entry is stored with
    that confidence. *)
Lemma medium_default_counterexample :
  record "add" "cuisine" "Sushi" !! "strength" = None ∧
  resolve_strength HALF_MEDIUM (record "add" "cuisine" "Sushi") = (1#2)%Q ∧
  ¬ (resolve_strength HALF_MEDIUM (record "add" "cuisine" "Sushi")
       == 3#5)%Q ∧
  confidence <$>
    entry_at
      (final (apply_actions ASPECTS HALF_MEDIUM utcnow
                [record "add" "cuisine" "Sushi"] fresh))
      "cuisine" "sushi" = Some (1#2)%Q.
Proof.
  split_and!; [reflexivity | reflexivity | | vm_compute; reflexivity].
  intros H. vm_compute in H. discriminate H.
Qed.

(** C10 (what the code does on the failing input). With a strength label
    that is not in the table, [ingest_extracted_preferences] raises
    [KeyError] and stores no entry, only the empty bucket of the aspect;
    the same label in an [add] record of [apply_actions] is given the
    default 0.6. *)
Theorem ingest_unknown_strength_raises :
  STRENGTH_TO_CONF !! "very strong" = None ∧
  run_ingest (hard [pref "cuisine" "Italian" "very strong"]) fresh
    = Raised KeyError (with_memory (insert "cuisine" ∅) fresh) ∧
  entry_at
    (final (run_ingest (hard [pref "cuisine" "Italian" "very strong"]) fresh))
    "cuisine" "italian" = None ∧
  confidence <$>
    entry_at
      (final (run_actions
                [record_with "add" "cuisine" "Italian"
                   "strength" "very strong"] fresh))
      "cuisine" "italian" = Some (3#5)%Q.
Proof. split_and!; vm_compute; reflexivity. Qed.

End Scenarios.


(** ** More on the step on a bucket *)

Section BucketStepMore.

Implicit Types (b : gmap string MemoryEntry) (e : MemoryEntry) (v : string)
  (act : gmap string string).

(** Case analysis on the action tag and on the lookups of [bucket_step]. *)
Ltac tags action :=
  repeat match goal with
         | |- context [String.eqb action ?s] =>
             destruct (String.eqb_spec action s) as [->|?]; simpl
         end.

(** [bucket_step] raises only at a merge of a present value into itself,
    when the evidence counts are valid. *)
Lemma bucket_step_raises now act action v s b x :
  bucket_valid b →
  (bucket_step now act action v s b).1 = Some x →
  x = KeyError ∧ action = "merge" ∧ is_Some (b !! v) ∧
  ∃ t0, Py.truthy (act !! "target") = Some t0 ∧ Py.lower t0 = v.
Proof.
  intros Hb. unfold bucket_step.
  destruct (b !! v) as [e|] eqn:Hv; simpl; tags action; try done.
  - destruct (Z.eqb_spec (evidence e + 1) 0) as [H0|_]; [|done].
    apply Hb in Hv. lia.
  - destruct (Py.truthy (act !! "target")) as [t0|]; [|done]. simpl.
    destruct (b !! Py.lower t0); [|done].
    case_decide as Heq; [|done]. intros [= <-]. eauto 6.
  - destruct (Py.truthy (act !! "target")) as [t0|]; [|done]. simpl.
    by destruct (b !! Py.lower t0).
Qed.

(** What [bucket_step] returns when it does not raise, by tag. *)
Lemma bucket_step_result now act action v s b :
  (bucket_step now act action v s b).2 =
  if decide (action = "add") then
    match b !! v with
    | None => <[v := {| confidence := s; evidence := 1; last_seen := now |}]> b
    | Some _ => b
    end
  else if decide (action = "reinforce") then
    match b !! v with
    | Some e =>
        if (evidence e + 1 =? 0)%Z then b
        else <[v := {| confidence := reinforced (confidence e) (evidence e) s;
                       evidence := evidence e + 1; last_seen := now |}]> b
    | None => b
    end
  else if decide (action = "weaken") then
    match b !! v with
    | Some e => <[v := {| confidence := weakened (confidence e);
                          evidence := evidence e; last_seen := now |}]> b
    | None => b
    end
  else if decide (action = "merge") then
    match Py.truthy (act !! "target") with
    | Some t0 =>
        match b !! Py.lower t0, b !! v with
        | None, _ => b
        | Some t, None => <[Py.lower t0 := set_last_seen now t]> b
        | Some t, Some e =>
            if decide (v = Py.lower t0) then delete v b
            else <[Py.lower t0 :=
                     {| confidence := Py.max (confidence t) (confidence e);
                        evidence := evidence t + evidence e;
                        last_seen := now |}]> (delete v b)
        end
    | None => b
    end
  else b.
Proof.
  unfold bucket_step.
  destruct (b !! v) as [e|] eqn:Hv; simpl; tags action;
    repeat case_decide; try done.
  - by destruct (evidence e + 1 =? 0)%Z.
  - destruct (Py.truthy (act !! "target")) as [t0|]; [|done]. simpl.
    destruct (b !! Py.lower t0); [|done]. by case_decide.
  - destruct (Py.truthy (act !! "target")) as [t0|]; [|done]. simpl.
    by destruct (b !! Py.lower t0).
Qed.

End BucketStepMore.

Section BucketStepFacts.

Implicit Types (b : gmap string MemoryEntry) (e : MemoryEntry) (v : string)
  (act : gmap string string).

(** Only [add] creates a key, and only the key it names. *)
Lemma bucket_step_created now act action v s b v' :
  b !! v' = None →
  is_Some ((bucket_step now act action v s b).2 !! v') →
  action = "add" ∧ v' = v.
Proof.
  intros Hnone. rewrite bucket_step_result. intros [e' He'].
  repeat case_decide; subst.
  - destruct (b !! v) eqn:Hv; [congruence|].
    apply lookup_insert_Some in He' as [[<- _]|[_ He']]; [done | congruence].
  - destruct (b !! v) as [e|] eqn:Hv; [|congruence].
    destruct (evidence e + 1 =? 0)%Z; [congruence|].
    apply lookup_insert_Some in He' as [[<- _]|[_ He']]; congruence.
  - destruct (b !! v) as [e|] eqn:Hv; [|congruence].
    apply lookup_insert_Some in He' as [[<- _]|[_ He']]; congruence.
  - destruct (Py.truthy (act !! "target")) as [t0|]; [|congruence].
    destruct (b !! Py.lower t0) as [t|] eqn:Ht; [|congruence].
    destruct (b !! v) as [e|] eqn:Hv.
    + case_decide.
      * apply lookup_delete_Some in He' as [_ He']. congruence.
      * apply lookup_insert_Some in He' as [[<- _]|[_ He']]; [congruence|].
        apply lookup_delete_Some in He' as [_ He']. congruence.
    + apply lookup_insert_Some in He' as [[<- _]|[_ He']]; congruence.
  - congruence.
Qed.

(** Only [merge] removes a key, and only the value it names. *)
Lemma bucket_step_deleted now act action v s b v' :
  is_Some (b !! v') →
  (bucket_step now act action v s b).2 !! v' = None →
  action = "merge" ∧ v' = v.
Proof.
  intros [e0 He0]. rewrite bucket_step_result. intros Hnone.
  repeat case_decide; subst.
  - destruct (b !! v) eqn:Hv; [congruence|].
    apply lookup_insert_None in Hnone as [? _]. congruence.
  - destruct (b !! v) as [e|] eqn:Hv; [|congruence].
    destruct (evidence e + 1 =? 0)%Z; [congruence|].
    apply lookup_insert_None in Hnone as [? _]. congruence.
  - destruct (b !! v) as [e|] eqn:Hv; [|congruence].
    apply lookup_insert_None in Hnone as [? _]. congruence.
  - split; [done|].
    destruct (Py.truthy (act !! "target")) as [t0|]; [|congruence].
    destruct (b !! Py.lower t0) as [t|] eqn:Ht; [|congruence].
    destruct (b !! v) as [e|] eqn:Hv.
    + case_decide.
      * apply lookup_delete_None in Hnone as [?|?]; [done | congruence].
      * apply lookup_insert_None in Hnone as [Hnone _].
        apply lookup_delete_None in Hnone as [?|?]; [done | congruence].
    + apply lookup_insert_None in Hnone as [? _]. congruence.
  - congruence.
Qed.

End BucketStepFacts.

(** ** The total evidence of a memory *)

Section EvidenceTotals.

Implicit Types (b : gmap string MemoryEntry) (e : MemoryEntry) (v a : string).

Lemma bucket_evidence_empty : bucket_evidence ∅ = 0%Z.
Proof. unfold bucket_evidence. by rewrite map_fold_empty. Qed.

Lemma bucket_evidence_fresh b v e :
  b !! v = None →
  bucket_evidence (<[v := e]> b) = (evidence e + bucket_evidence b)%Z.
Proof.
  intros H. unfold bucket_evidence.
  rewrite map_fold_insert_L; [done | intros; lia | done].
Qed.

Lemma bucket_evidence_delete b v e :
  b !! v = Some e →
  bucket_evidence b = (evidence e + bucket_evidence (delete v b))%Z.
Proof.
  intros H. rewrite <- (insert_delete_id b v e H) at 1.
  apply bucket_evidence_fresh, lookup_delete_eq.
Qed.

Lemma bucket_evidence_insert b v e0 e :
  b !! v = Some e0 →
  bucket_evidence (<[v := e]> b)
  = (evidence e - evidence e0 + bucket_evidence b)%Z.
Proof.
  intros H. rewrite <- insert_delete_eq.
  rewrite bucket_evidence_fresh by apply lookup_delete_eq.
  rewrite (bucket_evidence_delete b v e0 H). lia.
Qed.

Lemma bucket_evidence_entry b v e :
  bucket_valid b → b !! v = Some e → (evidence e ≤ bucket_evidence b)%Z.
Proof.
  revert v e. induction b as [|k x b Hk IH] using map_ind; intros v e Hb Hv.
  - by rewrite lookup_empty in Hv.
  - rewrite bucket_evidence_fresh by done.
    assert (bucket_valid b) as Hb'.
    { intros k' e' H'. apply (Hb k'). rewrite lookup_insert_ne; [done|].
      intros ->. congruence. }
    assert (0 ≤ bucket_evidence b)%Z as Hpos.
    { clear -Hb'. induction b as [|k x b Hk IH] using map_ind.
      - by rewrite bucket_evidence_empty.
      - rewrite bucket_evidence_fresh by done.
        assert (1 ≤ evidence x)%Z by (apply (Hb' k); apply lookup_insert_eq).
        assert (bucket_valid b).
        { intros k' e' H'. apply (Hb' k'). rewrite lookup_insert_ne; [done|].
          intros ->. congruence. }
        specialize (IH H0). lia. }
    apply lookup_insert_Some in Hv as [[_ <-]|[_ Hv]].
    + lia.
    + specialize (IH v e Hb' Hv).
      assert (1 ≤ evidence x)%Z by (apply (Hb k); apply lookup_insert_eq).
      lia.
Qed.

Lemma bucket_evidence_nonneg b : bucket_valid b → (0 ≤ bucket_evidence b)%Z.
Proof.
  induction b as [|k x b Hk IH] using map_ind; intros Hb.
  - by rewrite bucket_evidence_empty.
  - rewrite bucket_evidence_fresh by done.
    assert (1 ≤ evidence x)%Z by (apply (Hb k); apply lookup_insert_eq).
    assert (bucket_valid b) as Hb'.
    { intros k' e' H'. apply (Hb k'). rewrite lookup_insert_ne; [done|].
      intros ->. congruence. }
    specialize (IH Hb'). lia.
Qed.

(** One step adds at most 1 to the evidence of a bucket, and a merge that
    absorbs adds nothing. *)
Lemma bucket_step_total now act action v s b :
  bucket_valid b →
  (bucket_evidence (bucket_step now act action v s b).2
   ≤ bucket_evidence b + 1)%Z.
Proof.
  intros Hb. rewrite bucket_step_result.
  pose proof (bucket_evidence_nonneg b Hb) as Hpos.
  repeat case_decide; subst; try lia.
  - destruct (b !! v) eqn:Hv; [lia|].
    rewrite bucket_evidence_fresh by done. simpl. lia.
  - destruct (b !! v) as [e|] eqn:Hv; [|lia].
    destruct (evidence e + 1 =? 0)%Z; [lia|].
    rewrite (bucket_evidence_insert _ _ _ _ Hv). simpl. lia.
  - destruct (b !! v) as [e|] eqn:Hv; [|lia].
    rewrite (bucket_evidence_insert _ _ _ _ Hv). simpl. lia.
  - destruct (Py.truthy (act !! "target")) as [t0|]; [|lia].
    destruct (b !! Py.lower t0) as [t|] eqn:Ht; [|lia].
    destruct (b !! v) as [e|] eqn:Hv.
    + pose proof (Hb _ _ Hv). rewrite (bucket_evidence_delete _ _ _ Hv) in *.
      case_decide; [lia|].
      assert (delete v b !! Py.lower t0 = Some t) as Ht'
        by (by rewrite lookup_delete_ne).
      rewrite (bucket_evidence_insert _ _ _ _ Ht'). simpl. lia.
    + rewrite (bucket_evidence_insert _ _ _ _ Ht). simpl. lia.
Qed.

Lemma total_evidence_stored st a b :
  total_evidence (with_memory (insert a b) st)
  = (total_evidence st - bucket_evidence (default ∅ (memory (self st) !! a))
     + bucket_evidence b)%Z.
Proof.
  unfold total_evidence. simpl.
  destruct (memory (self st) !! a) as [b0|] eqn:Ha; simpl.
  - rewrite <- insert_delete_eq.
    rewrite map_fold_insert_L; [| intros; lia | apply lookup_delete_eq].
    rewrite <- (insert_delete_id (memory (self st)) a b0 Ha) at 2.
    rewrite map_fold_insert_L; [| intros; lia | apply lookup_delete_eq].
    lia.
  - rewrite map_fold_insert_L; [| intros; lia | done].
    rewrite bucket_evidence_empty. lia.
Qed.

Lemma valid_buckets st a b :
  valid st → memory (self st) !! a = Some b → bucket_valid b.
Proof.
  intros Hst Hb v e Hv. apply (Hst a v). unfold entry_at. by rewrite Hb.
Qed.

Lemma total_evidence_bucket (m : gmap string (gmap string MemoryEntry)) a b :
  (∀ a' b', m !! a' = Some b' → bucket_valid b') →
  m !! a = Some b →
  (0 ≤ map_fold (λ _ b n, (bucket_evidence b + n)%Z) 0%Z m)%Z ∧
  (bucket_evidence b ≤ map_fold (λ _ b n, (bucket_evidence b + n)%Z) 0%Z m)%Z.
Proof.
  revert a b. induction m as [|k x m Hk IH] using map_ind; intros a b Hall Hb.
  - by rewrite lookup_empty in Hb.
  - rewrite map_fold_insert_L; [| intros; lia | done].
    assert (∀ a' b', m !! a' = Some b' → bucket_valid b') as Hall'.
    { intros a' b' H'. apply (Hall a'). rewrite lookup_insert_ne; [done|].
      intros ->. congruence. }
    pose proof (bucket_evidence_nonneg x (Hall k x (lookup_insert_eq _ _ _)))
      as Hx.
    assert (0 ≤ map_fold (λ _ b n, (bucket_evidence b + n)%Z) 0%Z m)%Z
      as Hpos.
    { destruct (map_choose_or_empty m) as [(a' & b' & H')| ->].
      - by destruct (IH a' b' Hall' H').
      - by rewrite map_fold_empty. }
    apply lookup_insert_Some in Hb as [[_ <-]|[_ Hb]].
    + lia.
    + destruct (IH a b Hall' Hb). lia.
Qed.

Lemma total_evidence_entry st a v e :
  valid st → entry_at st a v = Some e → (evidence e ≤ total_evidence st)%Z.
Proof.
  intros Hst. unfold entry_at.
  intros (b & Hb & Hv)%bind_Some.
  pose proof (bucket_evidence_entry b v e (valid_buckets _ _ _ Hst Hb) Hv).
  destruct (total_evidence_bucket (memory (self st)) a b) as [_ H1];
    [intros a' b'; by apply valid_buckets | done |].
  unfold total_evidence. lia.
Qed.

End EvidenceTotals.

(** ** More properties of the engine *)

Section MoreProperties.

Variable ASPECTS : list string.
Variable STRENGTH_TO_CONF : gmap string Q.
Variable utcnow : nat → Z.

Local Abbreviation apply_action := (apply_action ASPECTS STRENGTH_TO_CONF).
Local Abbreviation apply_actions :=
  (apply_actions ASPECTS STRENGTH_TO_CONF utcnow).
Local Abbreviation resolve_strength := (resolve_strength STRENGTH_TO_CONF).
Local Abbreviation is_record := (is_record ASPECTS).
Local Abbreviation is_merge := (is_merge ASPECTS).
Local Abbreviation parse_pref := (parse_pref STRENGTH_TO_CONF).
Local Abbreviation well_formed := (well_formed STRENGTH_TO_CONF).
Local Abbreviation ingest_pref := (ingest_pref STRENGTH_TO_CONF utcnow).
Local Abbreviation ingest_extracted_preferences :=
  (ingest_extracted_preferences STRENGTH_TO_CONF utcnow).

Implicit Types (st : State) (m : gmap string (gmap string MemoryEntry))
  (b : gmap string MemoryEntry) (e : MemoryEntry) (a v : string)
  (act : gmap string string) (actions : list (gmap string string)).

(** *** Loops *)

(** A loop that raises does so in one of its iterations, started in a state
    that satisfies every property the iterations keep. *)
Lemma for_each_raised {A} (P : State → Prop) (body : A → M unit) (l : list A) :
  (∀ x st, x ∈ l → P st → P (final (body x st))) →
  ∀ st y st', P st →
    for_each body l st = Raised y st' →
    ∃ x st0, x ∈ l ∧ P st0 ∧ body x st0 = Raised y st'.
Proof.
  induction l as [|x l IH]; intros Hbody st y st' Hst; [done|]. simpl.
  pose proof (Hbody x st (list_elem_of_here _ _) Hst) as H1.
  unfold mbind, M_bind, bind.
  destruct (body x st) as [[] st1|y1 st1] eqn:Hx.
  - intros Hrest.
    destruct (IH (λ z st0 Hz, Hbody z st0 (list_elem_of_further _ _ _ Hz))
                st1 y st' H1 Hrest) as (z & st0 & Hz & Hst0 & Hrun).
    exists z, st0. split; [by apply list_elem_of_further | done].
  - intros [= <- <-]. exists x, st. split; [apply list_elem_of_here | done].
Qed.

(** The entries after one record that passes the checks. *)
Lemma entry_at_after_record now act action a0 v0 st a v :
  is_record act action a0 v0 →
  entry_at (final (apply_action now act st)) a v =
  if decide (a0 = a)
  then (bucket_step now act action v0 (resolve_strength act)
          (default ∅ (memory (self st) !! a0))).2 !! v
  else entry_at st a v.
Proof.
  intros Hrec.
  rewrite (apply_action_record _ _ _ _ _ _ _ _ Hrec), final_store.
  case_decide as Ha; [subst; apply entry_at_stored|].
  by apply entry_at_stored_ne.
Qed.

(** *** Records that are dropped *)

(** X1. A list in which every record lacks one of [action], [aspect],
    [value], or has it empty, is applied without error and leaves the
    profile as it was. *)
Theorem apply_actions_malformed actions st :
  (∀ act, act ∈ actions →
     Py.truthy (act !! "action") = None ∨
     Py.truthy (act !! "aspect") = None ∨
     Py.truthy (act !! "value") = None) →
  apply_actions actions st = Done tt (tick st).
Proof.
  intros H. rewrite apply_actions_unfold. apply for_each_skip.
  intros act Hact. unfold apply_action.
  destruct (H act Hact) as [-> | [-> | ->]]; [done | |].
  - by destruct (Py.truthy (act !! "action")).
  - by destruct (Py.truthy (act !! "action")), (Py.truthy (act !! "aspect")).
Qed.

Lemma for_each_cons_Done {A} (body : A → M unit) x l st st1 :
  body x st = Done tt st1 →
  for_each body (x :: l) st = for_each body l st1.
Proof. intros H. simpl. by rewrite (bind_Done _ _ _ _ _ H). Qed.

(** *** Records that change no entry *)

Lemma apply_action_add_present now act a v e st :
  is_record act "add" a v →
  entry_at st a v = Some e →
  apply_action now act st = Done tt st.
Proof.
  intros Hrec He. rewrite (apply_action_record _ _ _ _ _ _ _ _ Hrec).
  unfold entry_at in He.
  destruct (memory (self st) !! a) as [b|] eqn:Hb; [|done]. simpl in *.
  unfold bucket_step. simpl. rewrite He. simpl.
  unfold store. simpl. by rewrite stored_id.
Qed.

Lemma apply_action_add now act a v st :
  is_record act "add" a v →
  ∃ st1,
    apply_action now act st = Done tt st1 ∧
    is_Some (entry_at st1 a v).
Proof.
  intros Hrec. destruct (entry_at st a v) as [e|] eqn:He.
  - exists st. split; [by eapply apply_action_add_present | by rewrite He].
  - rewrite (apply_action_record _ _ _ _ _ _ _ _ Hrec).
    rewrite bucket_step_add by (by rewrite entry_at_default).
    unfold store. simpl. eexists. split; [done|].
    rewrite entry_at_stored, lookup_insert_eq. eauto.
Qed.

(** X2. [add] is first-writer-wins: for a value that is already present it
    changes nothing, neither the entry (confidence, evidence, last_seen) nor
    anything else of the profile. *)
Theorem add_present_unchanged act a v e st :
  is_record act "add" a v →
  entry_at st a v = Some e →
  apply_actions [act] st = Done tt (tick st).
Proof.
  intros Hrec He. rewrite apply_actions_single.
  by eapply apply_action_add_present.
Qed.

(** X3. Applying the same [add] record twice in one list leaves the state
    that applying it once leaves. *)
Theorem add_idempotent act a v st :
  is_record act "add" a v →
  apply_actions [act; act] st = apply_actions [act] st.
Proof.
  intros Hrec. rewrite !apply_actions_unfold.
  destruct (apply_action_add (utcnow (ticks st)) act a v (tick st) Hrec)
    as (st1 & Hrun & [e He]).
  rewrite !(for_each_cons_Done _ _ _ _ _ Hrun).
  rewrite (for_each_cons_Done _ _ _ _ st1); [done|].
  by eapply apply_action_add_present.
Qed.

(** X4. A record whose tag is none of [add], [reinforce], [weaken],
    [merge] (for instance [ignore]), and a [reinforce] or [weaken] of a value
    that is absent, is applied without error and changes no entry. *)
Theorem noop_record_keeps_entries act action a v st :
  is_record act action a v →
  action ≠ "add" →
  action ≠ "merge" →
  (action = "reinforce" ∨ action = "weaken" → entry_at st a v = None) →
  apply_actions [act] st =
    Done tt (with_memory (insert a (default ∅ (memory (self st) !! a)))
               (tick st)) ∧
  ∀ a' v', entry_at (final (apply_actions [act] st)) a' v' = entry_at st a' v'.
Proof.
  intros Hrec Hadd Hmerge Habs.
  assert (bucket_step (utcnow (ticks st)) act action v (resolve_strength act)
            (default ∅ (memory (self st) !! a))
          = (None, default ∅ (memory (self st) !! a))) as Hstep.
  { unfold bucket_step.
    apply String.eqb_neq in Hadd, Hmerge. rewrite Hadd, Hmerge. simpl.
    destruct (String.eqb_spec action "reinforce") as [->|_]; simpl.
    { by rewrite entry_at_default, (Habs (or_introl eq_refl)). }
    destruct (String.eqb_spec action "weaken") as [->|_]; simpl; [|done].
    by rewrite entry_at_default, (Habs (or_intror eq_refl)). }
  assert (apply_actions [act] st =
          Done tt (with_memory (insert a (default ∅ (memory (self st) !! a)))
                     (tick st))) as Hrun.
  { rewrite apply_actions_single, (apply_action_record _ _ _ _ _ _ _ _ Hrec).
    change (memory (self (tick st))) with (memory (self st)).
    by rewrite Hstep. }
  split; [done|]. intros a' v'. rewrite Hrun. simpl.
  destruct (decide (a = a')) as [<-|Hne].
  - by rewrite entry_at_stored, entry_at_default.
  - by rewrite entry_at_stored_ne.
Qed.

(** *** Merge without absorption *)

(** X5. A [merge] record without a truthy target, or whose target is not a
    key of the bucket, is applied without error and changes no entry: the
    value it names, if present, stays as it is. *)
Theorem merge_without_target act a v st :
  is_record act "merge" a v →
  (∀ t0, Py.truthy (act !! "target") = Some t0 →
         entry_at st a (Py.lower t0) = None) →
  apply_actions [act] st =
    Done tt (with_memory (insert a (default ∅ (memory (self st) !! a)))
               (tick st)) ∧
  ∀ a' v', entry_at (final (apply_actions [act] st)) a' v' = entry_at st a' v'.
Proof.
  intros Hrec Htarget.
  assert (apply_actions [act] st =
          Done tt (with_memory (insert a (default ∅ (memory (self st) !! a)))
                     (tick st))) as Hrun.
  { rewrite apply_actions_single, (apply_action_record _ _ _ _ _ _ _ _ Hrec).
    change (memory (self (tick st))) with (memory (self st)).
    unfold bucket_step. simpl.
    destruct (Py.truthy (act !! "target")) as [t0|]; [|done]. simpl.
    by rewrite entry_at_default, (Htarget t0 eq_refl). }
  split; [done|]. intros a' v'. rewrite Hrun. simpl.
  destruct (decide (a = a')) as [<-|Hne].
  - by rewrite entry_at_stored, entry_at_default.
  - by rewrite entry_at_stored_ne.
Qed.

(** X6. A [merge] record whose target is present while its value is absent
    absorbs nothing: it only sets the [last_seen] of the target to the time
    of the call, and every other entry stays as it is. *)
Theorem merge_touches_target act a v tg t st :
  is_merge act a v tg →
  entry_at st a tg = Some t →
  entry_at st a v = None →
  ∃ st',
    apply_actions [act] st = Done tt st' ∧
    entry_at st' a tg = Some (set_last_seen (utcnow (ticks st)) t) ∧
    ∀ a' v', (a', v') ≠ (a, tg) → entry_at st' a' v' = entry_at st a' v'.
Proof.
  intros Hm Ht Hv. pose proof Hm as [Hrec _]. unfold entry_at in Ht, Hv.
  destruct (memory (self st) !! a) as [b|] eqn:Hb; [|done]. simpl in Ht, Hv.
  rewrite (apply_actions_record _ _ _ _ _ _ _ _ _ Hrec Hb).
  rewrite (bucket_step_merge _ _ _ _ _ _ _ _ Hm), Ht, Hv.
  unfold store. simpl. eexists. split; [done|]. split.
  - by rewrite entry_at_stored, lookup_insert_eq.
  - intros a' v' Hne. destruct (decide (a = a')) as [<-|Ha].
    + rewrite entry_at_stored, lookup_insert_ne by congruence.
      unfold entry_at. simpl. by rewrite Hb.
    + by rewrite entry_at_stored_ne.
Qed.

(** *** What a run of [apply_actions] can and cannot do *)

(** The aspect of a record that passes the checks is the one under its
    key. *)
Lemma is_record_aspect act action a v :
  is_record act action a v → act !! "aspect" = Some a.
Proof. intros (_ & Ha & _). by apply truthy_Some in Ha as [Ha _]. Qed.

Lemma is_record_action act action a v :
  is_record act action a v → act !! "action" = Some action.
Proof. intros (Hact & _). by apply truthy_Some in Hact as [Hact _]. Qed.

Lemma is_record_value act action a v :
  is_record act action a v →
  ∃ v0, act !! "value" = Some v0 ∧ Py.lower v0 = v.
Proof.
  intros (_ & _ & _ & v0 & Hv & <-). exists v0.
  by apply truthy_Some in Hv as [Hv _].
Qed.

(** X7. [apply_actions] changes only the buckets of the aspects that its
    records name: the bucket of any other aspect, and whether it exists, is
    the same afterwards, also when the run raises. *)
Theorem apply_actions_frame actions st a :
  (∀ act, act ∈ actions → act !! "aspect" ≠ Some a) →
  memory (self (final (apply_actions actions st))) !! a
  = memory (self st) !! a.
Proof.
  intros Hother. rewrite apply_actions_unfold.
  apply (for_each_final
           (λ st', memory (self st') !! a = memory (self st) !! a)); [|done].
  intros act st' Hact Hst'.
  destruct (apply_action_cases ASPECTS STRENGTH_TO_CONF
              (utcnow (ticks st)) act st')
    as [-> | (action & a0 & v0 & Hrec)]; [done|].
  rewrite (apply_action_record _ _ _ _ _ _ _ _ Hrec), final_store. simpl.
  rewrite lookup_insert_ne; [done|].
  intros ->. by apply (Hother act Hact), (is_record_aspect _ _ _ _ Hrec).
Qed.

(** X8. No aspect is ever dropped: every aspect that has a bucket before
    [apply_actions] has one afterwards, so that [has_memory], once true,
    stays true. *)
Theorem apply_actions_keeps_aspects actions st :
  dom (memory (self st)) ⊆ dom (memory (self (final (apply_actions actions st)))) ∧
  (has_memory (self st) = true →
   has_memory (self (final (apply_actions actions st))) = true).
Proof.
  assert (dom (memory (self st))
            ⊆ dom (memory (self (final (apply_actions actions st))))) as Hdom.
  { rewrite apply_actions_unfold.
    apply (for_each_final
             (λ st', dom (memory (self st)) ⊆ dom (memory (self st'))));
      [|done].
    intros act st' _ Hst'.
    destruct (apply_action_cases ASPECTS STRENGTH_TO_CONF
                (utcnow (ticks st)) act st')
      as [-> | (action & a0 & v0 & Hrec)]; [done|].
    rewrite (apply_action_record _ _ _ _ _ _ _ _ Hrec), final_store. simpl.
    rewrite dom_insert_L. set_solver. }
  split; [done|]. unfold has_memory.
  rewrite !negb_true_iff, !bool_decide_eq_false. intros Hne Hempty.
  apply Hne. apply dom_empty_iff_L. rewrite Hempty, dom_empty_L in Hdom.
  set_solver.
Qed.

(** One record raises only as a merge of a present value into itself, when
    the evidence counts are valid. *)
Lemma apply_action_raised now act st x st' :
  valid st →
  apply_action now act st = Raised x st' →
  x = KeyError ∧
  ∃ a v, is_merge act a v v ∧ is_Some (entry_at st a v).
Proof.
  intros Hst.
  destruct (apply_action_cases ASPECTS STRENGTH_TO_CONF now act st)
    as [-> | (action & a & v & Hrec)]; [done|].
  rewrite (apply_action_record _ _ _ _ _ _ _ _ Hrec). unfold store.
  destruct (bucket_step _ _ _ _ _ _).1 as [y|] eqn:Hy; [|done].
  intros [= <- <-].
  apply bucket_step_raises in Hy
    as (-> & -> & Hv & t0 & Ht0 & Hlow); [|by apply valid_default].
  split; [done|]. exists a, v. rewrite entry_at_default in Hv.
  split; [|done]. split; [done|]. eauto.
Qed.

(** X9. On a memory whose evidence counts are all at least 1,
    [apply_actions] raises nothing but [KeyError], and only when one of its
    records is a merge whose value and target are the same key.  The bound
    on the total evidence keeps the counts that a [reinforce] converts to
    floats within the range of binary64, beyond which the interpreter
    raises [OverflowError]: a record adds at most 1 to the total and no
    count exceeds the total ([for_each_total], [total_evidence_entry]). *)
Theorem apply_actions_raises_only_at_self_merge actions st x st' :
  valid st →
  (total_evidence st + Z.of_nat (length actions) < 2 ^ 1000)%Z →
  apply_actions actions st = Raised x st' →
  x = KeyError ∧
  ∃ act a v, act ∈ actions ∧ is_merge act a v v.
Proof.
  intros Hst _. rewrite apply_actions_unfold. intros Hrun.
  destruct (for_each_raised valid _ actions
              (λ act st0 _, apply_action_valid _ _ _ act st0)
              (tick st) x st' Hst Hrun)
    as (act & st0 & Hact & Hst0 & Hraise).
  destruct (apply_action_raised _ _ _ _ _ Hst0 Hraise)
    as (-> & a & v & Hm & _).
  split; [done|]. by exists act, a, v.
Qed.

(** X10. Hence permissive degradation: on such a memory, a list in which no
    merge record has the same lower-cased value and target is applied
    without error, whatever else is wrong with its records. *)
Theorem apply_actions_succeeds actions st :
  valid st →
  (total_evidence st + Z.of_nat (length actions) < 2 ^ 1000)%Z →
  (∀ act v0 t0, act ∈ actions →
     act !! "action" = Some "merge" →
     act !! "value" = Some v0 → act !! "target" = Some t0 →
     Py.lower v0 ≠ Py.lower t0) →
  ∃ st', apply_actions actions st = Done tt st'.
Proof.
  intros Hst _ Hno.
  destruct (apply_actions actions st) as [[] st'|x st'] eqn:Hrun; [eauto|].
  rewrite apply_actions_unfold in Hrun.
  destruct (for_each_raised valid _ actions
              (λ act st0 _, apply_action_valid _ _ _ act st0)
              (tick st) x st' Hst Hrun)
    as (act & st0 & Hact & Hst0 & Hraise).
  destruct (apply_action_raised _ _ _ _ _ Hst0 Hraise)
    as (_ & a & v & [Hrec (t0 & Ht0 & Hlow)] & _).
  destruct (is_record_value _ _ _ _ Hrec) as (v0 & Hv0 & Hlow').
  apply truthy_Some in Ht0 as [Ht0 _].
  destruct (Hno act v0 t0 Hact (is_record_action _ _ _ _ Hrec) Hv0 Ht0).
  congruence.
Qed.

(** *** The total evidence *)

Lemma apply_action_total now act st :
  valid st →
  (total_evidence (final (apply_action now act st))
   ≤ total_evidence st + 1)%Z.
Proof.
  intros Hst.
  destruct (apply_action_cases ASPECTS STRENGTH_TO_CONF now act st)
    as [-> | (action & a & v & Hrec)]; [simpl; lia|].
  rewrite (apply_action_record _ _ _ _ _ _ _ _ Hrec), final_store.
  rewrite total_evidence_stored.
  pose proof (bucket_step_total now act action v (resolve_strength act)
                (default ∅ (memory (self st) !! a))
                (valid_default _ _ Hst)).
  simpl in *. lia.
Qed.

Lemma for_each_total now actions : ∀ st,
  valid st →
  (total_evidence (final (for_each (apply_action now) actions st))
   ≤ total_evidence st + Z.of_nat (length actions))%Z.
Proof.
  induction actions as [|act actions IH]; intros st Hst; [simpl; lia|].
  pose proof (apply_action_total now act st Hst) as H1.
  pose proof (apply_action_valid ASPECTS STRENGTH_TO_CONF now act st Hst)
    as Hst1.
  cbn [for_each length]. unfold mbind, M_bind, bind.
  destruct (apply_action now act st) as [[] st1|x st1]; simpl in *.
  - specialize (IH st1 Hst1). lia.
  - lia.
Qed.

(** X11. On a memory whose evidence counts are all at least 1, a call of
    [apply_actions] adds to the total evidence at most the number of its
    records, also when it raises; every evidence count stays between 1 and
    that bound. *)
Theorem apply_actions_total_evidence actions st :
  valid st →
  (total_evidence (final (apply_actions actions st))
   ≤ total_evidence st + Z.of_nat (length actions))%Z ∧
  ∀ a v e,
    entry_at (final (apply_actions actions st)) a v = Some e →
    (1 ≤ evidence e ≤ total_evidence st + Z.of_nat (length actions))%Z.
Proof.
  intros Hst.
  pose proof (apply_actions_valid ASPECTS STRENGTH_TO_CONF utcnow actions st
                Hst) as Hfin.
  assert (total_evidence (final (apply_actions actions st))
          ≤ total_evidence st + Z.of_nat (length actions))%Z as Hle.
  { rewrite apply_actions_unfold. by apply (for_each_total _ _ (tick st)). }
  split; [done|]. intros a v e He.
  pose proof (Hfin a v e He). pose proof (total_evidence_entry _ _ _ _ Hfin He).
  lia.
Qed.

(** X12. A merge that absorbs conserves evidence: when the value and the
    target are present under different keys, the total evidence of the
    memory is the same after the merge. *)
Theorem merge_conserves_evidence act a v tg t e st :
  is_merge act a v tg →
  entry_at st a tg = Some t →
  entry_at st a v = Some e →
  v ≠ tg →
  total_evidence (final (apply_actions [act] st)) = total_evidence st.
Proof.
  intros Hm Ht Hv Hne. pose proof Hm as [Hrec _]. unfold entry_at in Ht, Hv.
  destruct (memory (self st) !! a) as [b|] eqn:Hb; [|done]. simpl in Ht, Hv.
  rewrite (apply_actions_record _ _ _ _ _ _ _ _ _ Hrec Hb).
  rewrite (bucket_step_merge _ _ _ _ _ _ _ _ Hm), Ht, Hv.
  rewrite decide_False by done. unfold store. simpl.
  rewrite total_evidence_stored. simpl. rewrite Hb. simpl.
  assert (delete v b !! tg = Some t) as Ht' by (by rewrite lookup_delete_ne).
  rewrite (bucket_evidence_insert _ _ _ _ Ht'). simpl.
  rewrite (bucket_evidence_delete b v e Hv).
  change (total_evidence (tick st)) with (total_evidence st). lia.
Qed.

(** *** Confidences stay between 0 and 1 *)

Lemma bounded_default st a :
  bounded st → bucket_bounded (default ∅ (memory (self st) !! a)).
Proof.
  intros Hst v e Hv. apply (Hst a v). by rewrite <- entry_at_default.
Qed.

Lemma bounded_stored st a b :
  bounded st → bucket_bounded b → bounded (with_memory (insert a b) st).
Proof.
  intros Hst Hb a' v e. destruct (decide (a = a')) as [<-|Hne].
  - rewrite entry_at_stored. apply Hb.
  - rewrite entry_at_stored_ne by done. apply Hst.
Qed.

(** X13. When every confidence of the strength table lies between 0 and 1,
    [ingest_extracted_preferences] keeps all confidences of the memory
    between 0 and 1 and all evidence counts at least 1, for every payload,
    also when it raises. *)
Theorem ingest_keeps_bounds payload st :
  (∀ label q, STRENGTH_TO_CONF !! label = Some q → (0 <= q)%Q ∧ (q <= 1)%Q) →
  valid st → bounded st →
  valid (final (ingest_extracted_preferences payload st)) ∧
  bounded (final (ingest_extracted_preferences payload st)).
Proof.
  intros Htable Hval Hbnd. split; [by apply ingest_valid|].
  rewrite ingest_items.
  apply (for_each_final bounded); [|done].
  intros pref st' _ Hst'. unfold ingest_pref, subscript.
  destruct (pref !! "aspect") as [a|]; [|done].
  erewrite bind_Done by reflexivity.
  destruct (pref !! "value") as [v|]; [|done].
  erewrite bind_Done by reflexivity.
  destruct (pref !! "strength") as [label|]; [|done].
  erewrite bind_Done by reflexivity.
  rewrite (bind_Done _ _ _ _ _ (setdefault_run _ _)).
  pose proof (bounded_default st' a Hst') as Hb.
  destruct (STRENGTH_TO_CONF !! label) as [q|] eqn:Hq.
  - do 2 (erewrite bind_Done by reflexivity).
    erewrite setitem_run by apply lookup_insert_eq. simpl.
    apply (bounded_stored (tick (with_memory _ st'))).
    + by apply bounded_stored.
    + intros v' e [[_ <-]|[_ H]]%lookup_insert_Some; [simpl; eauto | eauto].
  - erewrite bind_Raised by reflexivity. simpl. by apply bounded_stored.
Qed.

(** *** Where entries come from and where they go *)

(** X14. [apply_actions] creates entries only by [add]: an entry that is
    absent before and present after (or when the run raises) is named, by
    aspect and lower-cased value, by an [add] record of the list. *)
Theorem created_only_by_add actions st a v :
  entry_at st a v = None →
  is_Some (entry_at (final (apply_actions actions st)) a v) →
  ∃ act, act ∈ actions ∧ is_record act "add" a v.
Proof.
  intros Hnone Hsome. rewrite apply_actions_unfold in Hsome.
  assert (entry_at (final (for_each (apply_action (utcnow (ticks st)))
                             actions (tick st))) a v = None ∨
          ∃ act, act ∈ actions ∧ is_record act "add" a v) as [H|H];
    [|by rewrite H in Hsome; destruct Hsome|done].
  apply (for_each_final
           (λ st', entry_at st' a v = None ∨
                   ∃ act, act ∈ actions ∧ is_record act "add" a v));
    [|by left].
  intros act st' Hact [Hst'|?]; [|by right].
  destruct (apply_action_cases ASPECTS STRENGTH_TO_CONF
              (utcnow (ticks st)) act st')
    as [-> | (action & a0 & v0 & Hrec)]; [by left|].
  destruct (entry_at (final (apply_action _ act st')) a v) as [e|] eqn:He;
    [|by left].
  right. exists act. split; [done|].
  rewrite (entry_at_after_record _ _ _ _ _ _ _ _ Hrec) in He.
  case_decide as Ha; [subst a0|congruence].
  assert (action = "add" ∧ v = v0) as [-> ->]; [|done].
  eapply bucket_step_created; [|by rewrite He]. by rewrite entry_at_default.
Qed.

(** X15. [apply_actions] removes entries only by [merge]: an entry that is
    present before and absent after (or when the run raises) is named, by
    aspect and lower-cased value, as the value of a [merge] record of the
    list. *)
Theorem deleted_only_by_merge actions st a v :
  is_Some (entry_at st a v) →
  entry_at (final (apply_actions actions st)) a v = None →
  ∃ act, act ∈ actions ∧ is_record act "merge" a v.
Proof.
  intros Hsome Hnone. rewrite apply_actions_unfold in Hnone.
  assert (is_Some (entry_at (final (for_each (apply_action (utcnow (ticks st)))
                                      actions (tick st))) a v) ∨
          ∃ act, act ∈ actions ∧ is_record act "merge" a v) as [H|H];
    [|by rewrite Hnone in H; destruct H|done].
  apply (for_each_final
           (λ st', is_Some (entry_at st' a v) ∨
                   ∃ act, act ∈ actions ∧ is_record act "merge" a v));
    [|by left].
  intros act st' Hact [Hst'|?]; [|by right].
  destruct (apply_action_cases ASPECTS STRENGTH_TO_CONF
              (utcnow (ticks st)) act st')
    as [-> | (action & a0 & v0 & Hrec)]; [by left|].
  destruct (entry_at (final (apply_action _ act st')) a v) as [e|] eqn:He;
    [left; eauto|].
  right. exists act. split; [done|].
  rewrite (entry_at_after_record _ _ _ _ _ _ _ _ Hrec) in He.
  case_decide as Ha; [subst a0|by rewrite He in Hst'; destruct Hst'].
  assert (action = "merge" ∧ v = v0) as [-> ->]; [|done].
  eapply bucket_step_deleted; [|exact He]. by rewrite entry_at_default.
Qed.

(** *** More on ingestion *)

(** A run of well-formed items succeeds and reads the clock once per
    item. *)
Lemma ingest_well_formed_run prefs :
  Forall (λ pref, is_Some (parse_pref pref)) prefs →
  ∀ st, ∃ st',
    for_each ingest_pref prefs st = Done tt st' ∧
    ticks st' = (ticks st + length prefs)%nat.
Proof.
  induction 1 as [|pref prefs [[[a v] q] Hp] _ IH]; intros st.
  - exists st. split; [done | simpl; lia].
  - rewrite (for_each_cons_Done _ _ _ _ _ (ingest_pref_run _ _ _ _ _ _ _ Hp)).
    destruct (IH (with_memory
                    (insert a (<[v := {| confidence := q; evidence := 1;
                                         last_seen := utcnow (ticks st) |}]>
                                 (default ∅ (memory (self st) !! a))))
                    (tick st))) as (st' & Hrun & Hticks).
    exists st'. split; [done|]. rewrite Hticks. simpl. lia.
Qed.

(** X16. The last item wins: after ingesting a well-formed payload, the
    entry named by an item that no later item names again has the
    confidence of that item's strength label, evidence 1, and as
    [last_seen] the clock reading made for that item. *)
Theorem ingest_last_writer payload (l1 l2 : list (gmap string string))
    pref a v q st :
  well_formed payload →
  items payload = (l1 ++ pref :: l2)%list →
  parse_pref pref = Some (a, v, q) →
  (∀ pref' v0, pref' ∈ l2 →
     pref' !! "aspect" = Some a → pref' !! "value" = Some v0 →
     Py.lower v0 ≠ v) →
  ∃ st',
    ingest_extracted_preferences payload st = Done tt st' ∧
    entry_at st' a v =
      Some {| confidence := q; evidence := 1;
              last_seen := utcnow (ticks st + length l1) |}.
Proof.
  intros Hwf Hitems Hp Hlater. unfold well_formed in Hwf.
  rewrite ingest_items, Hitems, for_each_app in *.
  apply Forall_app in Hwf as [Hwf1 Hwf2].
  apply Forall_cons in Hwf2 as [_ Hwf2].
  destruct (ingest_well_formed_run l1 Hwf1 st) as (st1 & Hrun1 & Hticks1).
  rewrite (bind_Done _ _ _ _ _ Hrun1).
  rewrite (for_each_cons_Done _ _ _ _ _ (ingest_pref_run _ _ _ _ _ _ _ Hp)).
  set (st2 := with_memory _ (tick st1)).
  destruct (ingest_well_formed_run l2 Hwf2 st2) as (st' & Hrun2 & _).
  exists st'. split; [done|].
  assert (entry_at (final (for_each ingest_pref l2 st2)) a v
          = entry_at st2 a v) as Hkept.
  { apply (for_each_final (λ st0, entry_at st0 a v = entry_at st2 a v));
      [|done].
    intros pref' st0 Hpref' <-. apply ingest_pref_frame. eauto. }
  rewrite Hrun2 in Hkept. simpl in Hkept. rewrite Hkept.
  unfold st2. rewrite entry_at_stored, lookup_insert_eq. by rewrite Hticks1.
Qed.

(** X17. Ingestion is not atomic: when the first item that is not
    well-formed (a key is missing, or the strength label is not in the
    table) comes after the items [l1], the call raises [KeyError] with the
    items of [l1] ingested and no other entry changed. *)
Theorem ingest_stops_at_bad_item payload (l1 l2 : list (gmap string string))
    bad st :
  items payload = (l1 ++ bad :: l2)%list →
  Forall (λ pref, is_Some (parse_pref pref)) l1 →
  parse_pref bad = None →
  ∃ st1 st',
    ingest_extracted_preferences {[ "hard_preferences" := l1 ]} st
      = Done tt st1 ∧
    ingest_extracted_preferences payload st = Raised KeyError st' ∧
    ∀ a v, entry_at st' a v = entry_at st1 a v.
Proof.
  intros Hitems Hwf1 Hbad.
  destruct (ingest_well_formed_run l1 Hwf1 st) as (st1 & Hrun1 & _).
  assert (items {[ "hard_preferences" := l1 ]} = l1) as Hl1.
  { unfold items. rewrite lookup_singleton_eq, lookup_singleton_ne by done.
    apply app_nil_r. }
  rewrite !ingest_items, Hl1, Hitems, for_each_app.
  rewrite (bind_Done _ _ _ _ _ Hrun1). cbn [for_each].
  assert (∃ st', ingest_pref bad st1 = Raised KeyError st' ∧
                 ∀ a v, entry_at st' a v = entry_at st1 a v)
    as (st' & Hraise & Hsame).
  { unfold parse_pref in Hbad. unfold ingest_pref, subscript.
    destruct (bad !! "aspect") as [a0|]; [|by exists st1].
    erewrite bind_Done by reflexivity.
    destruct (bad !! "value") as [v0|]; [|by exists st1].
    erewrite bind_Done by reflexivity.
    destruct (bad !! "strength") as [label|]; [|by exists st1].
    erewrite bind_Done by reflexivity.
    rewrite (bind_Done _ _ _ _ _ (setdefault_run _ _)). simpl in Hbad.
    destruct (STRENGTH_TO_CONF !! label) as [q|]; [done|].
    erewrite bind_Raised by reflexivity. eexists. split; [done|].
    intros a v. destruct (decide (a0 = a)) as [->|Hne].
    - by rewrite entry_at_stored, entry_at_default.
    - by rewrite entry_at_stored_ne. }
  exists st1, st'. by rewrite (bind_Raised _ _ _ _ _ Hraise).
Qed.

(** *** The memory view *)

(** X18. [get_memory_view] lists, for an aspect, exactly the values that
    have an entry under it, each once; an aspect has a key in the view
    exactly when it has at least one entry, so that no list of the view is
    empty. *)
Theorem memory_view_lists_entries st a :
  (∀ ks, get_memory_view (self st) !! a = Some ks →
     ks ≠ [] ∧ NoDup ks ∧ ∀ v, v ∈ ks ↔ is_Some (entry_at st a v)) ∧
  (get_memory_view (self st) !! a = None ↔ ∀ v, entry_at st a v = None).
Proof.
  unfold get_memory_view, entry_at. rewrite lookup_omap.
  destruct (memory (self st) !! a) as [b|]; simpl; [|by split].
  assert (∀ v, v ∈ keys b ↔ is_Some (b !! v)) as Hkeys.
  { intros v. unfold keys. rewrite list_elem_of_fmap. split.
    - intros ([v' e] & -> & Hin). apply elem_of_map_to_list in Hin. eauto.
    - intros [e He]. exists (v, e). by rewrite elem_of_map_to_list. }
  case_decide as Hempty.
  - subst b. split; [done|]. split; [intros _ v; apply lookup_empty | done].
  - split.
    + intros ks [= <-]. split_and!; [| apply NoDup_fst_map_to_list | done].
      intros Hnil. apply Hempty, map_empty. intros v.
      apply eq_None_not_Some. rewrite <- Hkeys, Hnil. apply not_elem_of_nil.
    + split; [done|]. intros Hnone. destruct Hempty. by apply map_empty.
Qed.

(** *** One call or two *)

(** The exception that [bucket_step] raises, by tag. *)
Lemma bucket_step_exn now act action v s b :
  (bucket_step now act action v s b).1 =
  if decide (action = "reinforce") then
    match b !! v with
    | Some e => if (evidence e + 1 =? 0)%Z then Some ZeroDivisionError else None
    | None => None
    end
  else if decide (action = "merge") then
    match Py.truthy (act !! "target") with
    | Some t0 =>
        match b !! Py.lower t0, b !! v with
        | Some _, Some _ =>
            if decide (v = Py.lower t0) then Some KeyError else None
        | _, _ => None
        end
    | None => None
    end
  else None.
Proof.
  unfold bucket_step.
  destruct (b !! v) as [e|] eqn:Hv; simpl;
    repeat match goal with
           | |- context [String.eqb action ?t] =>
               destruct (String.eqb_spec action t) as [->|?]; simpl
           end;
    repeat case_decide; try done.
  - by destruct (evidence e + 1 =? 0)%Z.
  - destruct (Py.truthy (act !! "target")) as [t0|]; [|done]. simpl.
    destruct (b !! Py.lower t0); [|done]. by case_decide.
  - destruct (Py.truthy (act !! "target")) as [t0|]; [|done]. simpl.
    by destruct (b !! Py.lower t0).
Qed.

(** The timestamps left out: confidence and evidence. *)
Local Abbreviation facts := (λ e : MemoryEntry, (confidence e, evidence e)).

(** [bucket_step] treats two buckets that differ only in timestamps, at two
    different times, alike. *)
Lemma bucket_step_timeless now now' act action v s b b' :
  facts <$> b = facts <$> b' →
  (bucket_step now act action v s b).1
    = (bucket_step now' act action v s b').1 ∧
  facts <$> (bucket_step now act action v s b).2
    = facts <$> (bucket_step now' act action v s b').2.
Proof.
  intros Hbb.
  assert (∀ k, facts <$> b !! k = facts <$> b' !! k) as Hk.
  { intros k. by rewrite <- !lookup_fmap, Hbb. }
  assert (∀ k e e', facts e = facts e' →
            facts <$> <[k := e]> b = facts <$> <[k := e']> b') as Hins.
  { intros k e e' He. by rewrite !fmap_insert, He, Hbb. }
  rewrite !bucket_step_exn, !bucket_step_result.
  pose proof (Hk v) as Hv.
  destruct (decide (action = "add")) as [->|Hadd].
  { rewrite !decide_False by done.
    destruct (b !! v) as [e|], (b' !! v) as [e'|]; simpl in Hv; try done.
    split; [done|]. by apply Hins. }
  destruct (decide (action = "reinforce")) as [->|Hre].
  { destruct (b !! v) as [e|], (b' !! v) as [e'|]; simpl in Hv; try done.
    injection Hv as Hc He. rewrite He.
    destruct (evidence e' + 1 =? 0)%Z; [done|].
    split; [done|]. apply Hins. simpl. by rewrite Hc. }
  destruct (decide (action = "weaken")) as [->|Hwe].
  { rewrite !decide_False by done.
    destruct (b !! v) as [e|], (b' !! v) as [e'|]; simpl in Hv; try done.
    injection Hv as Hc He. split; [done|]. apply Hins. simpl.
    by rewrite Hc, He. }
  destruct (decide (action = "merge")) as [->|Hme]; [|done].
  destruct (Py.truthy (act !! "target")) as [t0|]; [|done].
  pose proof (Hk (Py.lower t0)) as Ht.
  destruct (b !! Py.lower t0) as [t|], (b' !! Py.lower t0) as [t'|];
    simpl in Ht; try done.
  injection Ht as Htc Hte.
  destruct (b !! v) as [e|], (b' !! v) as [e'|]; simpl in Hv; try done.
  - injection Hv as Hc He. case_decide.
    + split; [done|]. by rewrite !fmap_delete, Hbb.
    + split; [done|]. rewrite !fmap_insert, !fmap_delete, Hbb. simpl.
      by rewrite Hc, He, Htc, Hte.
  - split; [done|]. apply Hins. simpl. by rewrite Htc, Hte.
Qed.

Lemma beliefs_lookup st a :
  beliefs st !! a = fmap (M := gmap string) facts <$> memory (self st) !! a.
Proof. unfold beliefs. by rewrite lookup_fmap. Qed.

(** Whether a record is skipped depends on the record alone. *)
Lemma apply_action_skip_or_record act :
  (∀ now st, apply_action now act st = Done tt st) ∨
  ∃ action a v, is_record act action a v.
Proof.
  unfold apply_action, is_record.
  destruct (Py.truthy (act !! "action")) as [action|]; [|by left].
  destruct (Py.truthy (act !! "aspect")) as [a|]; [|by left].
  destruct (Py.truthy (act !! "value")) as [v0|]; [|by left].
  destruct (decide (a ∈ ASPECTS)) as [Hin|Hout].
  - right. exists action, a, (Py.lower v0). split_and!; eauto.
  - left. intros now st. by rewrite (bool_decide_eq_false_2 _ Hout).
Qed.

(** The loop body treats two states with the same beliefs, at two different
    times, alike. *)
Lemma apply_action_timeless now now' act st1 st2 :
  beliefs st1 = beliefs st2 →
  alike (apply_action now act st1) (apply_action now' act st2).
Proof.
  intros Hb.
  destruct (apply_action_skip_or_record act)
    as [Hskip | (action & a & v & Hrec)].
  - by rewrite !Hskip.
  - rewrite !(apply_action_record _ _ _ _ _ _ _ _ Hrec). unfold store.
    assert (facts <$> default ∅ (memory (self st1) !! a)
            = facts <$> default ∅ (memory (self st2) !! a)) as Hbb.
    { pose proof (f_equal (.!! a) Hb) as Ha. rewrite !beliefs_lookup in Ha.
      destruct (memory (self st1) !! a), (memory (self st2) !! a);
        simpl in *; try done. by injection Ha. }
    destruct (bucket_step_timeless now now' act action v
                (resolve_strength act) _ _ Hbb) as [H1 H2].
    rewrite <- H1.
    destruct (bucket_step now act action v _ _).1; simpl;
      [split; [done|]|]; by rewrite !beliefs_stored, H2, Hb.
Qed.

Lemma for_each_timeless now now' actions : ∀ st1 st2,
  beliefs st1 = beliefs st2 →
  alike (for_each (apply_action now) actions st1)
        (for_each (apply_action now') actions st2).
Proof.
  induction actions as [|act actions IH]; intros st1 st2 Hb; [done|].
  pose proof (apply_action_timeless now now' act st1 st2 Hb) as Hact.
  simpl. unfold mbind, M_bind, bind.
  destruct (apply_action now act st1) as [[] st1'|x st1'],
           (apply_action now' act st2) as [[] st2'|y st2']; try done.
  by apply IH.
Qed.

(** X19. Splitting a list of records over two calls changes nothing but
    timestamps: when the first part is applied without error, applying the
    second part in a second call ends like the single call on the whole
    list, with the same outcome (normal, or the same exception) and the
    same confidences, evidence counts and keys. *)
Theorem apply_actions_split actions1 actions2 st st1 :
  apply_actions actions1 st = Done tt st1 →
  alike (apply_actions (actions1 ++ actions2) st)
        (apply_actions actions2 st1).
Proof.
  rewrite !apply_actions_unfold, for_each_app. intros Hrun1.
  rewrite (bind_Done _ _ _ _ _ Hrun1).
  apply for_each_timeless. reflexivity.
Qed.

End MoreProperties.

(** ** Properties of the conversation parser *)

Section Parser.

Implicit Types (combined : gmap string (list string))
  (conversation : list (gmap string string)) (turn : gmap string string).

Lemma combine_turns_app combined conversation1 conversation2 :
  combine_turns combined (conversation1 ++ conversation2) =
  match combine_turns combined conversation1 with
  | Returned combined' => combine_turns combined' conversation2
  | Failed e => Failed e
  end.
Proof.
  revert combined. induction conversation1 as [|turn rest IH]; intros combined.
  - done.
  - simpl. destruct (combine_turn combined turn); [apply IH | done].
Qed.

Lemma texts_of_app u conversation1 conversation2 :
  texts_of u (conversation1 ++ conversation2) =
  (texts_of u conversation1 ++ texts_of u conversation2)%list.
Proof. apply omap_app. Qed.

(** The loop on complete turns: every user's list grows by that user's
    texts. *)
Lemma combine_turns_complete conversation : ∀ combined,
  Forall complete_turn conversation →
  ∃ d, combine_turns combined conversation = Returned d ∧
       ∀ u, default [] (d !! u) =
            (default [] (combined !! u) ++ texts_of u conversation)%list ∧
            (d !! u = None ↔
             combined !! u = None ∧ texts_of u conversation = []).
Proof.
  induction conversation as [|turn rest IH]; intros combined Hall.
  - exists combined. split; [done|]. intros u. rewrite app_nil_r.
    split; [done|]. split; [by intros -> | by intros [-> _]].
  - apply Forall_cons in Hall as [[[user Hu] [text Ht]] Hrest].
    cbn [combine_turns]. unfold combine_turn. rewrite Hu, Ht.
    destruct (IH (<[user := (default [] (combined !! user) ++ [text])%list]>
                    combined) Hrest) as (d & Hrun & Hd).
    exists d. split; [done|]. intros u. destruct (Hd u) as [Hdu Hnone].
    unfold texts_of in *. cbn [omap list_omap]. rewrite Hu.
    destruct (decide (user = u)) as [->|Hne].
    + rewrite decide_True by done. rewrite Ht. simpl.
      rewrite lookup_insert_eq in Hdu, Hnone. simpl in Hdu.
      split; [by rewrite Hdu, <- app_assoc|].
      rewrite Hnone. split; [by intros [? _] | by intros [_ ?]].
    + rewrite decide_False by congruence.
      rewrite lookup_insert_ne in Hdu, Hnone by done. done.
Qed.

(** X20. On a conversation whose turns all have a [user_id] and a [text],
    [parse_and_combine_by_user] returns a dict that maps every user to the
    texts of that user's turns, in the order of the conversation; a user
    without a turn has no key, so that no list of the dict is empty. *)
Theorem parse_groups_by_user conversation :
  Forall complete_turn conversation →
  ∃ d, parse_and_combine_by_user conversation = Returned d ∧
       ∀ u, match d !! u with
            | Some texts => texts = texts_of u conversation ∧ texts ≠ []
            | None => texts_of u conversation = []
            end.
Proof.
  intros Hall.
  destruct (combine_turns_complete conversation ∅ Hall) as (d & Hrun & Hd).
  exists d. split; [done|]. intros u. destruct (Hd u) as [Hdu Hnone].
  rewrite lookup_empty in Hdu, Hnone. simpl in Hdu.
  destruct (d !! u) as [texts|] eqn:Hu; simpl in Hdu.
  - split; [done|]. intros ->. destruct Hnone as [_ Hnone].
    by discriminate Hnone.
  - by apply Hnone.
Qed.

Lemma combine_turns_returned conversation : ∀ combined d,
  combine_turns combined conversation = Returned d →
  Forall complete_turn conversation.
Proof.
  induction conversation as [|turn rest IH]; intros combined d; [done|].
  cbn [combine_turns]. unfold combine_turn.
  destruct (turn !! "user_id") as [user|] eqn:Hu; [|done].
  destruct (turn !! "text") as [text|] eqn:Ht; [|done].
  intros Hrest. constructor; [split; eauto | by eapply IH].
Qed.

Lemma combine_turns_failure conversation : ∀ combined e,
  combine_turns combined conversation = Failed e → e = KeyError.
Proof.
  induction conversation as [|turn rest IH]; intros combined e; [done|].
  cbn [combine_turns]. unfold combine_turn.
  destruct (turn !! "user_id") as [user|]; [|congruence].
  destruct (turn !! "text") as [text|]; [|congruence].
  apply IH.
Qed.

(** X21. [parse_and_combine_by_user] raises exactly when some turn lacks
    [user_id] or [text], and what it raises is [KeyError]; in particular
    the empty conversation gives the empty dict. *)
Theorem parse_raises_iff conversation :
  (parse_and_combine_by_user conversation = Failed KeyError ↔
   ¬ Forall complete_turn conversation) ∧
  (∀ e, parse_and_combine_by_user conversation = Failed e → e = KeyError) ∧
  parse_and_combine_by_user [] = Returned ∅.
Proof.
  split_and!; [split| |done].
  - intros He Hall.
    destruct (combine_turns_complete conversation ∅ Hall) as (d & Hrun & _).
    unfold parse_and_combine_by_user in He. congruence.
  - intros Hnot. unfold parse_and_combine_by_user.
    destruct (combine_turns ∅ conversation) as [d|e] eqn:Hrun.
    + destruct Hnot. by eapply combine_turns_returned.
    + by rewrite (combine_turns_failure _ _ _ Hrun).
  - intros e. apply combine_turns_failure.
Qed.

(** X22. Grouping distributes over concatenation: the texts of a user in two
    conversations put end to end are that user's texts in the first followed
    by those in the second. *)
Theorem parse_concatenation conversation1 conversation2 d1 d2 :
  parse_and_combine_by_user conversation1 = Returned d1 →
  parse_and_combine_by_user conversation2 = Returned d2 →
  ∃ d, parse_and_combine_by_user (conversation1 ++ conversation2)
         = Returned d ∧
       ∀ u, default [] (d !! u) =
            (default [] (d1 !! u) ++ default [] (d2 !! u))%list.
Proof.
  intros H1 H2.
  pose proof (combine_turns_returned _ _ _ H1) as Hc1.
  pose proof (combine_turns_returned _ _ _ H2) as Hc2.
  destruct (combine_turns_complete _ ∅ Hc1) as (d1' & Hr1 & Hd1).
  destruct (combine_turns_complete _ ∅ Hc2) as (d2' & Hr2 & Hd2).
  destruct (combine_turns_complete _ ∅ (proj2 (Forall_app _ _ _) (conj Hc1 Hc2)))
    as (d & Hr & Hd).
  unfold parse_and_combine_by_user in *.
  assert (d1' = d1) as -> by congruence.
  assert (d2' = d2) as -> by congruence.
  exists d. split; [done|]. intros u.
  rewrite (proj1 (Hd u)), (proj1 (Hd1 u)), (proj1 (Hd2 u)), lookup_empty.
  simpl. apply texts_of_app.
Qed.

(** The number of texts in a dict of lists grows by one with a turn. *)
Lemma count_texts_insert combined u text :
  sum_list_with length
    (map_to_list (<[u := (default [] (combined !! u) ++ [text])%list]>
                    combined)).*2
  = S (sum_list_with length (map_to_list combined).*2).
Proof.
  destruct (combined !! u) as [l|] eqn:Hu; simpl.
  - rewrite <- (insert_delete_eq combined).
    rewrite map_to_list_insert by apply lookup_delete_eq.
    rewrite <- (map_to_list_delete combined u l Hu). csimpl.
    rewrite length_app. simpl. lia.
  - rewrite map_to_list_insert by done. by csimpl.
Qed.

(** X23. No text is lost and none is duplicated: the lists of the returned
    dict hold, together, as many texts as the conversation has turns. *)
Theorem parse_keeps_every_text conversation d :
  parse_and_combine_by_user conversation = Returned d →
  sum_list_with length (map_to_list d).*2 = length conversation.
Proof.
  unfold parse_and_combine_by_user.
  assert (∀ combined,
            combine_turns combined conversation = Returned d →
            sum_list_with length (map_to_list d).*2 =
            (sum_list_with length (map_to_list combined).*2
             + length conversation)%nat) as Hgen.
  { induction conversation as [|turn rest IH]; intros combined.
    - intros [= ->]. simpl. lia.
    - cbn [combine_turns]. unfold combine_turn.
      destruct (turn !! "user_id") as [user|]; [|done].
      destruct (turn !! "text") as [text|]; [|done].
      intros Hrest. rewrite (IH _ Hrest), count_texts_insert. simpl. lia. }
  intros Hrun. rewrite (Hgen _ Hrun), map_to_list_empty. done.
Qed.

End Parser.

(** ** Properties of the search for the JSON text *)

Section Search.

Implicit Types (c o : ascii) (s text pre mid post m : string).

Lemma after_first_Some c s rest :
  after_first c s = Some rest ↔
  ∃ pre, s = pre ++ String c rest ∧ occurs c pre = false.
Proof.
  revert rest. induction s as [|x s IH]; intros rest; simpl.
  - split; [done|]. intros ([|??] & ? & _); done.
  - destruct (Ascii.eqb_spec x c) as [->|Hne].
    + split.
      * intros [= ->]. by exists "".
      * intros ([|y pre] & Heq & Hocc); simpl in *.
        -- by injection Heq as ->.
        -- injection Heq as -> _. by rewrite Ascii.eqb_refl in Hocc.
    + rewrite IH. split.
      * intros (pre & -> & Hocc). exists (String x pre). simpl.
        split; [done|]. by rewrite (proj2 (Ascii.eqb_neq _ _) Hne).
      * intros ([|y pre] & Heq & Hocc); simpl in *.
        -- injection Heq as -> _. done.
        -- injection Heq as -> ->. apply orb_false_iff in Hocc as [_ Hocc].
           eauto.
Qed.

Lemma after_first_None c s : after_first c s = None ↔ occurs c s = false.
Proof.
  induction s as [|x s IH]; simpl; [done|].
  destruct (Ascii.eqb x c); simpl; [split; discriminate | done].
Qed.

Lemma upto_last_None c s : upto_last c s = None ↔ occurs c s = false.
Proof.
  induction s as [|x s IH]; simpl; [done|].
  destruct (upto_last c s) as [r|].
  - split; [done|]. intros [_ H]%orb_false_iff. apply IH in H. done.
  - rewrite (proj1 IH eq_refl), orb_false_r.
    destruct (Ascii.eqb x c); split; done.
Qed.

Lemma upto_last_Some c s r :
  upto_last c s = Some r ↔
  ∃ mid post, s = mid ++ String c post ∧ r = mid ++ String c "" ∧
              occurs c post = false.
Proof.
  revert r. induction s as [|x s IH]; intros r; simpl.
  - split; [done|]. intros ([|??] & ? & ? & _); done.
  - destruct (upto_last c s) as [r'|] eqn:Hs.
    + split.
      * intros [= <-]. destruct (proj1 (IH r') eq_refl)
          as (mid & post & -> & -> & Hocc).
        by exists (String x mid), post.
      * intros (mid & post & Heq & -> & Hocc). f_equal.
        destruct mid as [|y mid]; simpl in *.
        -- injection Heq as -> ->.
           apply upto_last_None in Hocc. congruence.
        -- injection Heq as -> ->. f_equal.
           assert (Some r' = Some (mid ++ String c "")) as [= ->]; [|done].
           apply IH. eauto.
    + apply upto_last_None in Hs.
      destruct (Ascii.eqb_spec x c) as [->|Hne].
      * split.
        -- intros [= <-]. by exists "", s.
        -- intros (mid & post & Heq & -> & Hocc).
           destruct mid as [|y mid]; simpl in *; [done|].
           injection Heq as -> ->. exfalso. revert Hs. clear.
           induction mid as [|z mid IH]; simpl.
           ++ by rewrite Ascii.eqb_refl.
           ++ intros [_ H]%orb_false_iff. auto.
      * split; [done|]. intros (mid & post & Heq & -> & Hocc). exfalso.
        destruct mid as [|y mid]; simpl in *.
        -- injection Heq as -> _. done.
        -- injection Heq as -> ->. revert Hs. clear.
           induction mid as [|z mid IH]; simpl.
           ++ by rewrite Ascii.eqb_refl.
           ++ intros [_ H]%orb_false_iff. auto.
Qed.

(** X24. The search returns the span from the first opening character to
    the last closing character after it: the text before the span has no
    opening character and the text after it no closing character. *)
Theorem search_span_leftmost_longest o c text m :
  search_span o c text = Some m ↔
  ∃ pre mid post,
    text = pre ++ String o (mid ++ String c post) ∧
    m = String o (mid ++ String c "") ∧
    occurs o pre = false ∧ occurs c post = false.
Proof.
  unfold search_span. split.
  - destruct (after_first o text) as [rest|] eqn:Hrest; [|done]. simpl.
    destruct (upto_last c rest) as [body|] eqn:Hbody; [|done]. simpl.
    intros [= <-].
    apply after_first_Some in Hrest as (pre & -> & Hpre).
    apply upto_last_Some in Hbody as (mid & post & -> & -> & Hpost).
    by exists pre, mid, post.
  - intros (pre & mid & post & -> & -> & Hpre & Hpost).
    rewrite (proj2 (after_first_Some o _ (mid ++ String c post)))
      by (by exists pre). simpl.
    rewrite (proj2 (upto_last_Some c _ (mid ++ String c "")))
      by (by exists mid, post). done.
Qed.

Lemma occurs_app c s t : occurs c (s ++ t) = occurs c s || occurs c t.
Proof.
  induction s as [|x s IH]; [done|].
  change (Ascii.eqb x c || occurs c (s ++ t)
          = Ascii.eqb x c || occurs c s || occurs c t).
  by rewrite IH, orb_assoc.
Qed.

Lemma app_String_assoc s c t : (s ++ String c "") ++ t = s ++ String c t.
Proof.
  induction s as [|x s IH]; [done|]. exact (f_equal (String x) IH).
Qed.

Lemma after_first_suffix o pre t :
  ∃ u, after_first o (pre ++ String o t) = Some (u ++ t).
Proof.
  induction pre as [|x pre [u IH]]; simpl.
  - rewrite Ascii.eqb_refl. by exists "".
  - destruct (Ascii.eqb x o).
    + exists (pre ++ String o ""). by rewrite app_String_assoc.
    + by exists u.
Qed.

(** The search fails exactly when no opening character is followed,
    anywhere later, by a closing character. *)
Lemma search_span_None o c text :
  search_span o c text = None ↔
  ¬ ∃ pre mid post, text = pre ++ String o (mid ++ String c post).
Proof.
  split.
  - intros Hnone (pre & mid & post & ->). unfold search_span in Hnone.
    destruct (after_first_suffix o pre (mid ++ String c post)) as [u Hu].
    rewrite Hu in Hnone. simpl in Hnone.
    destruct (upto_last c (u ++ mid ++ String c post)) as [r|] eqn:Hr;
      [done|].
    apply upto_last_None in Hr. rewrite !occurs_app in Hr. simpl in Hr.
    rewrite Ascii.eqb_refl, !orb_true_r in Hr. done.
  - intros Hnot. unfold search_span.
    destruct (after_first o text) as [rest|] eqn:Hrest; [|done]. simpl.
    destruct (upto_last c rest) as [body|] eqn:Hbody; [|done]. exfalso.
    apply after_first_Some in Hrest as (pre & -> & _).
    apply upto_last_Some in Hbody as (mid & post & -> & _ & _).
    apply Hnot. by exists pre, mid, post.
Qed.

(** X25. [extract_preferences] raises the [ValueError] of line 22, before
    [json.loads] is reached, exactly when the output of the model has no
    "{" that is followed, anywhere later, by a "}";
    [suggest_memory_actions] that of line 21 likewise, with "[" and "]". *)
Theorem no_json_text_iff text :
  (json_object_text text = inl ValueError ↔
   ¬ ∃ pre mid post, text = pre ++ String "{" (mid ++ String "}" post)) ∧
  (json_array_text text = inl ValueError ↔
   ¬ ∃ pre mid post, text = pre ++ String "[" (mid ++ String "]" post)).
Proof.
  unfold json_object_text, json_array_text.
  split; rewrite <- search_span_None; by destruct (search_span _ _ text).
Qed.

(** X26. The search is idempotent: searching again in the text that it
    returned returns that text. *)
Theorem search_span_idempotent o c text m :
  search_span o c text = Some m → search_span o c m = Some m.
Proof.
  unfold search_span.
  destruct (after_first o text) as [rest|]; [|done]. simpl.
  destruct (upto_last c rest) as [body|] eqn:Hbody; [|done]. simpl.
  intros [= <-]. simpl. rewrite Ascii.eqb_refl. simpl.
  apply upto_last_Some in Hbody as (mid & post & _ & -> & _).
  by rewrite (proj2 (upto_last_Some c _ (mid ++ String c "")))
    by (by exists mid, "").
Qed.

End Search.

(** ** The further statements on sample data *)

Section MoreScenarios.

Import Sample Cases.

Local Abbreviation run_actions :=
  (apply_actions ASPECTS STRENGTH_TO_CONF utcnow).
Local Abbreviation run_ingest :=
  (ingest_extracted_preferences STRENGTH_TO_CONF utcnow).

Ltac concrete_record :=
  repeat split;
  first [ reflexivity
        | by apply (bool_decide_unpack _)
        | eexists; split; reflexivity ].

Lemma valid_italian_only : valid (state_of italian_only).
Proof.
  intros a v e. unfold entry_at, state_of, italian_only. simpl.
  intros (b & [<- <-]%lookup_singleton_Some & [<- <-]%lookup_singleton_Some)
           %bind_Some.
  simpl. lia.
Defined.

Lemma valid_two_cuisines : valid (state_of two_cuisines).
Proof.
  intros a v e. unfold entry_at, state_of, two_cuisines. simpl.
  intros (b & [<- <-]%lookup_singleton_Some & Hv)%bind_Some.
  apply lookup_insert_Some in Hv
    as [[_ <-]|[_ [_ <-]%lookup_singleton_Some]]; simpl; lia.
Defined.

Lemma bounded_fresh : bounded fresh.
Proof. intros a v e. unfold entry_at. simpl. by rewrite lookup_empty. Defined.

Lemma table_bounded label q :
  STRENGTH_TO_CONF !! label = Some q → (0 <= q)%Q ∧ (q <= 1)%Q.
Proof.
  unfold STRENGTH_TO_CONF.
  intros [[_ <-]|[_ [[_ <-]|[_ [_ <-]%lookup_singleton_Some]]
                       %lookup_insert_Some]]%lookup_insert_Some;
    split; by vm_compute.
Defined.

(** X1 on the sample: a record without value and a record with an empty
    action. *)
Lemma apply_actions_malformed_witness :
  (∀ act, act ∈ [no_value; empty_action] →
     Py.truthy (act !! "action") = None ∨
     Py.truthy (act !! "aspect") = None ∨
     Py.truthy (act !! "value") = None) ∧
  run_actions [no_value; empty_action] (state_of italian_only)
    = Done tt (tick (state_of italian_only)).
Proof.
  assert (∀ act, act ∈ [no_value; empty_action] →
            Py.truthy (act !! "action") = None ∨
            Py.truthy (act !! "aspect") = None ∨
            Py.truthy (act !! "value") = None) as H.
  { intros act [->|[->|[]%elem_of_nil]%elem_of_cons]%elem_of_cons.
    - right; right. reflexivity.
    - left. reflexivity. }
  split; [exact H|].
  exact (apply_actions_malformed ASPECTS STRENGTH_TO_CONF utcnow _ _ H).
Defined.

(** X2 on the sample: adding "italian" again. *)
Lemma add_present_unchanged_witness :
  is_record ASPECTS (record "add" "cuisine" "Italian")
    "add" "cuisine" "italian" ∧
  entry_at (state_of italian_only) "cuisine" "italian"
    = Some (entry (3#5) 1) ∧
  run_actions [record "add" "cuisine" "Italian"] (state_of italian_only)
    = Done tt (tick (state_of italian_only)).
Proof.
  assert (is_record ASPECTS (record "add" "cuisine" "Italian")
            "add" "cuisine" "italian") as H1 by concrete_record.
  assert (entry_at (state_of italian_only) "cuisine" "italian"
            = Some (entry (3#5) 1)) as H2 by reflexivity.
  split; [exact H1|]. split; [exact H2|].
  exact (add_present_unchanged ASPECTS STRENGTH_TO_CONF utcnow
           _ _ _ _ _ H1 H2).
Defined.

(** X3 on the sample: adding "italian" twice to a fresh profile. *)
Lemma add_idempotent_witness :
  is_record ASPECTS (record "add" "cuisine" "Italian")
    "add" "cuisine" "italian" ∧
  run_actions [record "add" "cuisine" "Italian";
               record "add" "cuisine" "Italian"] fresh
    = run_actions [record "add" "cuisine" "Italian"] fresh.
Proof.
  assert (is_record ASPECTS (record "add" "cuisine" "Italian")
            "add" "cuisine" "italian") as H1 by concrete_record.
  split; [exact H1|].
  exact (add_idempotent ASPECTS STRENGTH_TO_CONF utcnow _ _ _ fresh H1).
Defined.

(** X4 on the sample: reinforcing a value that is absent. *)
Lemma noop_record_keeps_entries_witness :
  is_record ASPECTS (record "reinforce" "cuisine" "Sushi")
    "reinforce" "cuisine" "sushi" ∧
  "reinforce" ≠ "add" ∧
  "reinforce" ≠ "merge" ∧
  ("reinforce" = "reinforce" ∨ "reinforce" = "weaken" →
   entry_at (state_of italian_only) "cuisine" "sushi" = None) ∧
  ∀ a' v',
    entry_at (final (run_actions [record "reinforce" "cuisine" "Sushi"]
                       (state_of italian_only))) a' v'
    = entry_at (state_of italian_only) a' v'.
Proof.
  assert (is_record ASPECTS (record "reinforce" "cuisine" "Sushi")
            "reinforce" "cuisine" "sushi") as H1 by concrete_record.
  assert ("reinforce" ≠ "add") as H2 by discriminate.
  assert ("reinforce" ≠ "merge") as H3 by discriminate.
  assert ("reinforce" = "reinforce" ∨ "reinforce" = "weaken" →
          entry_at (state_of italian_only) "cuisine" "sushi" = None) as H4
    by (intros _; reflexivity).
  split; [exact H1|]. split; [exact H2|]. split; [exact H3|].
  split; [exact H4|].
  exact (proj2 (noop_record_keeps_entries ASPECTS STRENGTH_TO_CONF utcnow
                  _ _ _ _ _ H1 H2 H3 H4)).
Defined.

(** X5 on the sample: a merge record without a target. *)
Lemma merge_without_target_witness :
  is_record ASPECTS (record "merge" "cuisine" "Italian")
    "merge" "cuisine" "italian" ∧
  (∀ t0, Py.truthy (record "merge" "cuisine" "Italian" !! "target") = Some t0 →
         entry_at (state_of italian_only) "cuisine" (Py.lower t0) = None) ∧
  ∀ a' v',
    entry_at (final (run_actions [record "merge" "cuisine" "Italian"]
                       (state_of italian_only))) a' v'
    = entry_at (state_of italian_only) a' v'.
Proof.
  assert (is_record ASPECTS (record "merge" "cuisine" "Italian")
            "merge" "cuisine" "italian") as H1 by concrete_record.
  assert (∀ t0, Py.truthy (record "merge" "cuisine" "Italian" !! "target")
                  = Some t0 →
                entry_at (state_of italian_only) "cuisine" (Py.lower t0)
                  = None) as H2.
  { intros t0 H. vm_compute in H. discriminate H. }
  split; [exact H1|]. split; [exact H2|].
  exact (proj2 (merge_without_target ASPECTS STRENGTH_TO_CONF utcnow
                  _ _ _ _ H1 H2)).
Defined.

(** X6 on the sample: merging the absent "sushi" into "italian". *)
Lemma merge_touches_target_witness :
  is_merge ASPECTS (record_with "merge" "cuisine" "Sushi" "target" "Italian")
    "cuisine" "sushi" "italian" ∧
  entry_at (state_of italian_only) "cuisine" "italian"
    = Some (entry (3#5) 1) ∧
  entry_at (state_of italian_only) "cuisine" "sushi" = None ∧
  ∃ st',
    run_actions [record_with "merge" "cuisine" "Sushi" "target" "Italian"]
      (state_of italian_only) = Done tt st' ∧
    entry_at st' "cuisine" "italian"
      = Some {| confidence := 3#5; evidence := 1; last_seen := utcnow 0 |}.
Proof.
  assert (is_merge ASPECTS
            (record_with "merge" "cuisine" "Sushi" "target" "Italian")
            "cuisine" "sushi" "italian") as H1 by concrete_record.
  assert (entry_at (state_of italian_only) "cuisine" "italian"
            = Some (entry (3#5) 1)) as H2 by reflexivity.
  assert (entry_at (state_of italian_only) "cuisine" "sushi" = None) as H3
    by reflexivity.
  split; [exact H1|]. split; [exact H2|]. split; [exact H3|].
  destruct (merge_touches_target ASPECTS STRENGTH_TO_CONF utcnow
              _ _ _ _ _ _ H1 H2 H3) as (st' & Hrun & Ht & _).
  exists st'. split; [exact Hrun | exact Ht].
Defined.

(** X7 on the sample: an [add] under "price" leaves the bucket of "cuisine"
    alone. *)
Lemma apply_actions_frame_witness :
  (∀ act, act ∈ [record "add" "price" "Cheap"] →
     act !! "aspect" ≠ Some "cuisine") ∧
  memory (self (final (run_actions [record "add" "price" "Cheap"]
                         (state_of italian_only)))) !! "cuisine"
  = memory (self (state_of italian_only)) !! "cuisine".
Proof.
  assert (∀ act, act ∈ [record "add" "price" "Cheap"] →
            act !! "aspect" ≠ Some "cuisine") as H.
  { intros act ->%list_elem_of_singleton. discriminate. }
  split; [exact H|].
  exact (apply_actions_frame ASPECTS STRENGTH_TO_CONF utcnow _ _ _ H).
Defined.

(** X9 on the sample: the self-merge of "italian". *)
Lemma apply_actions_raises_only_at_self_merge_witness :
  valid (state_of italian_only) ∧
  (total_evidence (state_of italian_only)
   + Z.of_nat
       (length [record_with "merge" "cuisine" "Italian" "target" "italian"])
   < 2 ^ 1000)%Z ∧
  run_actions [record_with "merge" "cuisine" "Italian" "target" "italian"]
    (state_of italian_only)
    = Raised KeyError (with_memory (insert "cuisine" ∅)
                         (tick (state_of italian_only))) ∧
  ∃ act a v,
    act ∈ [record_with "merge" "cuisine" "Italian" "target" "italian"] ∧
    is_merge ASPECTS act a v v.
Proof.
  assert (total_evidence (state_of italian_only)
          + Z.of_nat
              (length [record_with "merge" "cuisine" "Italian"
                         "target" "italian"])
          < 2 ^ 1000)%Z as H2 by (by vm_compute).
  assert (run_actions
            [record_with "merge" "cuisine" "Italian" "target" "italian"]
            (state_of italian_only)
          = Raised KeyError (with_memory (insert "cuisine" ∅)
                               (tick (state_of italian_only)))) as H3
    by (vm_compute; reflexivity).
  split; [exact valid_italian_only|]. split; [exact H2|]. split; [exact H3|].
  exact (proj2 (apply_actions_raises_only_at_self_merge
                  ASPECTS STRENGTH_TO_CONF utcnow _ _ _ _
                  valid_italian_only H2 H3)).
Defined.

(** X10 on the sample: a reinforce and a merge of the absent "sushi" into
    "italian". *)
Lemma apply_actions_succeeds_witness :
  valid (state_of italian_only) ∧
  (total_evidence (state_of italian_only)
   + Z.of_nat
       (length [record "reinforce" "cuisine" "Italian";
                record_with "merge" "cuisine" "Sushi" "target" "Italian"])
   < 2 ^ 1000)%Z ∧
  (∀ act v0 t0,
     act ∈ [record "reinforce" "cuisine" "Italian";
            record_with "merge" "cuisine" "Sushi" "target" "Italian"] →
     act !! "action" = Some "merge" →
     act !! "value" = Some v0 → act !! "target" = Some t0 →
     Py.lower v0 ≠ Py.lower t0) ∧
  ∃ st',
    run_actions [record "reinforce" "cuisine" "Italian";
                 record_with "merge" "cuisine" "Sushi" "target" "Italian"]
      (state_of italian_only) = Done tt st'.
Proof.
  assert (total_evidence (state_of italian_only)
          + Z.of_nat
              (length [record "reinforce" "cuisine" "Italian";
                       record_with "merge" "cuisine" "Sushi"
                         "target" "Italian"])
          < 2 ^ 1000)%Z as H2 by (by vm_compute).
  assert (∀ act v0 t0,
            act ∈ [record "reinforce" "cuisine" "Italian";
                   record_with "merge" "cuisine" "Sushi" "target" "Italian"] →
            act !! "action" = Some "merge" →
            act !! "value" = Some v0 → act !! "target" = Some t0 →
            Py.lower v0 ≠ Py.lower t0) as H3.
  { intros act v0 t0 [->|[->|[]%elem_of_nil]%elem_of_cons]%elem_of_cons.
    - intros H. vm_compute in H. discriminate H.
    - intros _ Hv Ht. vm_compute in Hv, Ht.
      injection Hv as <-. injection Ht as <-. discriminate. }
  split; [exact valid_italian_only|]. split; [exact H2|]. split; [exact H3|].
  exact (apply_actions_succeeds ASPECTS STRENGTH_TO_CONF utcnow _ _
           valid_italian_only H2 H3).
Defined.

(** X11 on the sample: a reinforce and an add raise the total from 1 to
    3. *)
Lemma apply_actions_total_evidence_witness :
  valid (state_of italian_only) ∧
  total_evidence (state_of italian_only) = 1%Z ∧
  total_evidence
    (final (run_actions [record "reinforce" "cuisine" "Italian";
                         record "add" "cuisine" "Sushi"]
              (state_of italian_only))) = 3%Z ∧
  (total_evidence
     (final (run_actions [record "reinforce" "cuisine" "Italian";
                          record "add" "cuisine" "Sushi"]
               (state_of italian_only)))
   ≤ total_evidence (state_of italian_only)
     + Z.of_nat (length [record "reinforce" "cuisine" "Italian";
                         record "add" "cuisine" "Sushi"]))%Z.
Proof.
  split; [exact valid_italian_only|].
  split; [vm_compute; reflexivity|]. split; [vm_compute; reflexivity|].
  exact (proj1 (apply_actions_total_evidence ASPECTS STRENGTH_TO_CONF utcnow
                  _ _ valid_italian_only)).
Defined.

(** X12 on the sample: the merge scenario of the specification keeps the
    total at 3. *)
Lemma merge_conserves_evidence_witness :
  is_merge ASPECTS
    (record_with "merge" "cuisine" "Italian" "target" "Mediterranean")
    "cuisine" "italian" "mediterranean" ∧
  entry_at (state_of two_cuisines) "cuisine" "mediterranean"
    = Some (entry (1#2) 2) ∧
  entry_at (state_of two_cuisines) "cuisine" "italian"
    = Some (entry (4#5) 1) ∧
  "italian" ≠ "mediterranean" ∧
  total_evidence (state_of two_cuisines) = 3%Z ∧
  total_evidence
    (final (run_actions
              [record_with "merge" "cuisine" "Italian"
                 "target" "Mediterranean"]
              (state_of two_cuisines)))
  = total_evidence (state_of two_cuisines).
Proof.
  assert (is_merge ASPECTS
            (record_with "merge" "cuisine" "Italian" "target" "Mediterranean")
            "cuisine" "italian" "mediterranean") as H1 by concrete_record.
  assert (entry_at (state_of two_cuisines) "cuisine" "mediterranean"
            = Some (entry (1#2) 2)) as H2 by reflexivity.
  assert (entry_at (state_of two_cuisines) "cuisine" "italian"
            = Some (entry (4#5) 1)) as H3 by reflexivity.
  assert ("italian" ≠ "mediterranean") as H4 by discriminate.
  split; [exact H1|]. split; [exact H2|]. split; [exact H3|].
  split; [exact H4|]. split; [vm_compute; reflexivity|].
  exact (merge_conserves_evidence ASPECTS STRENGTH_TO_CONF utcnow
           _ _ _ _ _ _ _ H1 H2 H3 H4).
Defined.

(** X13 on the sample: ingesting one item into a fresh profile. *)
Lemma ingest_keeps_bounds_witness :
  (∀ label q, STRENGTH_TO_CONF !! label = Some q →
     (0 <= q)%Q ∧ (q <= 1)%Q) ∧
  valid fresh ∧ bounded fresh ∧
  valid (final (run_ingest (hard [pref "cuisine" "Italian" "strong"]) fresh)) ∧
  bounded (final (run_ingest (hard [pref "cuisine" "Italian" "strong"])
                    fresh)).
Proof.
  split; [exact table_bounded|]. split; [exact (init_valid "u1" 0)|].
  split; [exact bounded_fresh|].
  exact (ingest_keeps_bounds STRENGTH_TO_CONF utcnow _ _
           table_bounded (init_valid "u1" 0) bounded_fresh).
Defined.

(** X14 on the sample: the entry that an [add] creates. *)
Lemma created_only_by_add_witness :
  entry_at fresh "cuisine" "italian" = None ∧
  is_Some (entry_at (final (run_actions [record "add" "cuisine" "Italian"]
                              fresh)) "cuisine" "italian") ∧
  ∃ act, act ∈ [record "add" "cuisine" "Italian"] ∧
         is_record ASPECTS act "add" "cuisine" "italian".
Proof.
  assert (entry_at fresh "cuisine" "italian" = None) as H1 by reflexivity.
  assert (is_Some (entry_at
                     (final (run_actions [record "add" "cuisine" "Italian"]
                               fresh)) "cuisine" "italian")) as H2
    by (eexists; vm_compute; reflexivity).
  split; [exact H1|]. split; [exact H2|].
  exact (created_only_by_add ASPECTS STRENGTH_TO_CONF utcnow _ _ _ _ H1 H2).
Defined.

(** X15 on the sample: the entry that a merge absorbs. *)
Lemma deleted_only_by_merge_witness :
  is_Some (entry_at (state_of two_cuisines) "cuisine" "italian") ∧
  entry_at
    (final (run_actions
              [record_with "merge" "cuisine" "Italian"
                 "target" "Mediterranean"]
              (state_of two_cuisines))) "cuisine" "italian" = None ∧
  ∃ act,
    act ∈ [record_with "merge" "cuisine" "Italian" "target" "Mediterranean"] ∧
    is_record ASPECTS act "merge" "cuisine" "italian".
Proof.
  assert (is_Some (entry_at (state_of two_cuisines) "cuisine" "italian"))
    as H1 by (eexists; reflexivity).
  assert (entry_at
            (final (run_actions
                      [record_with "merge" "cuisine" "Italian"
                         "target" "Mediterranean"]
                      (state_of two_cuisines))) "cuisine" "italian" = None)
    as H2 by (vm_compute; reflexivity).
  split; [exact H1|]. split; [exact H2|].
  exact (deleted_only_by_merge ASPECTS STRENGTH_TO_CONF utcnow _ _ _ _ H1 H2).
Defined.

Lemma well_formed_twice_italian :
  well_formed STRENGTH_TO_CONF twice_italian.
Proof.
  unfold well_formed.
  change (items twice_italian)
    with [pref "cuisine" "Italian" "weak"; pref "price" "Cheap" "medium";
          pref "cuisine" "ITALIAN" "strong"].
  repeat constructor; eexists; reflexivity.
Defined.

(** X16 on the sample: of two items for "italian", the later one, with
    strength "strong", is the one that stays. *)
Lemma ingest_last_writer_witness :
  well_formed STRENGTH_TO_CONF twice_italian ∧
  items twice_italian
    = ([pref "cuisine" "Italian" "weak"; pref "price" "Cheap" "medium"]
       ++ pref "cuisine" "ITALIAN" "strong" :: [])%list ∧
  parse_pref STRENGTH_TO_CONF (pref "cuisine" "ITALIAN" "strong")
    = Some ("cuisine", "italian", (9#10)%Q) ∧
  (∀ p v0, p ∈ @nil (gmap string string) →
     p !! "aspect" = Some "cuisine" → p !! "value" = Some v0 →
     Py.lower v0 ≠ "italian") ∧
  ∃ st',
    run_ingest twice_italian fresh = Done tt st' ∧
    entry_at st' "cuisine" "italian"
      = Some {| confidence := 9#10; evidence := 1; last_seen := utcnow 2 |}.
Proof.
  assert (items twice_italian
          = ([pref "cuisine" "Italian" "weak"; pref "price" "Cheap" "medium"]
             ++ pref "cuisine" "ITALIAN" "strong" :: [])%list) as H2
    by reflexivity.
  assert (parse_pref STRENGTH_TO_CONF (pref "cuisine" "ITALIAN" "strong")
          = Some ("cuisine", "italian", (9#10)%Q)) as H3 by reflexivity.
  assert (∀ p v0, p ∈ @nil (gmap string string) →
            p !! "aspect" = Some "cuisine" → p !! "value" = Some v0 →
            Py.lower v0 ≠ "italian") as H4.
  { intros p v0 Hin. by apply elem_of_nil in Hin. }
  split; [exact well_formed_twice_italian|]. split; [exact H2|].
  split; [exact H3|]. split; [exact H4|].
  exact (ingest_last_writer STRENGTH_TO_CONF utcnow _ _ _ _ _ _ _ fresh
           well_formed_twice_italian H2 H3 H4).
Defined.

(** X17 on the sample: the second item has no strength; the first is
    ingested, the third is not. *)
Lemma ingest_stops_at_bad_item_witness :
  items broken_payload
    = ([pref "cuisine" "Italian" "strong"]
       ++ {[ "aspect" := "price"; "value" := "Cheap" ]}
       :: [pref "dietary" "Vegan" "weak"])%list ∧
  Forall (λ p, is_Some (parse_pref STRENGTH_TO_CONF p))
    [pref "cuisine" "Italian" "strong"] ∧
  parse_pref STRENGTH_TO_CONF {[ "aspect" := "price"; "value" := "Cheap" ]}
    = None ∧
  ∃ st1 st',
    run_ingest {[ "hard_preferences" := [pref "cuisine" "Italian" "strong"] ]}
      fresh = Done tt st1 ∧
    run_ingest broken_payload fresh = Raised KeyError st' ∧
    (∀ a v, entry_at st' a v = entry_at st1 a v) ∧
    entry_at st' "dietary" "vegan" = None.
Proof.
  assert (items broken_payload
          = ([pref "cuisine" "Italian" "strong"]
             ++ {[ "aspect" := "price"; "value" := "Cheap" ]}
             :: [pref "dietary" "Vegan" "weak"])%list) as H1 by reflexivity.
  assert (Forall (λ p, is_Some (parse_pref STRENGTH_TO_CONF p))
            [pref "cuisine" "Italian" "strong"]) as H2
    by (repeat constructor; eexists; reflexivity).
  assert (parse_pref STRENGTH_TO_CONF
            {[ "aspect" := "price"; "value" := "Cheap" ]} = None) as H3
    by reflexivity.
  split; [exact H1|]. split; [exact H2|]. split; [exact H3|].
  destruct (ingest_stops_at_bad_item STRENGTH_TO_CONF utcnow _ _ _ _ fresh
              H1 H2 H3) as (st1 & st' & Hrun1 & Hrun & Hsame).
  exists st1, st'. split; [exact Hrun1|]. split; [exact Hrun|].
  split; [exact Hsame|].
  assert (st' = final (run_ingest broken_payload fresh)) as ->
    by (by rewrite Hrun).
  vm_compute. reflexivity.
Defined.

(** X19 on the sample: an [add] in a first call and a [reinforce] in a
    second, against both in one call. *)
Lemma apply_actions_split_witness :
  run_actions [record "add" "cuisine" "Italian"] fresh
    = Done tt (final (run_actions [record "add" "cuisine" "Italian"] fresh)) ∧
  alike
    (run_actions ([record "add" "cuisine" "Italian"]
                  ++ [record "reinforce" "cuisine" "Italian"]) fresh)
    (run_actions [record "reinforce" "cuisine" "Italian"]
       (final (run_actions [record "add" "cuisine" "Italian"] fresh))).
Proof.
  assert (run_actions [record "add" "cuisine" "Italian"] fresh
          = Done tt (final (run_actions [record "add" "cuisine" "Italian"]
                              fresh))) as H1
    by (vm_compute; reflexivity).
  split; [exact H1|].
  exact (apply_actions_split ASPECTS STRENGTH_TO_CONF utcnow _ _ _ _ H1).
Defined.

Lemma complete_dinner : Forall complete_turn dinner.
Proof. repeat constructor; eexists; reflexivity. Defined.

(** X20 on the sample: the three turns of the dinner conversation. *)
Lemma parse_groups_by_user_witness :
  Forall complete_turn dinner ∧
  ∃ d, parse_and_combine_by_user dinner = Returned d ∧
       d !! "ann" = Some ["I love sushi"; "Not too expensive"] ∧
       d !! "bob" = Some ["Nothing spicy"] ∧
       d !! "eve" = None.
Proof.
  split; [exact complete_dinner|].
  destruct (parse_groups_by_user dinner complete_dinner) as (d & Hrun & Hd).
  exists d. split; [exact Hrun|].
  assert (d = {[ "ann" := ["I love sushi"; "Not too expensive"];
                 "bob" := ["Nothing spicy"] ]}) as ->.
  { assert (Returned d
            = Returned {[ "ann" := ["I love sushi"; "Not too expensive"];
                          "bob" := ["Nothing spicy"] ]}) as [= ->]; [|done].
    rewrite <- Hrun. vm_compute. reflexivity. }
  split_and!; reflexivity.
Defined.

(** X22 on the sample: the dinner conversation, cut after its first
    turn. *)
Lemma parse_concatenation_witness :
  parse_and_combine_by_user [turn "ann" "I love sushi"]
    = Returned {[ "ann" := ["I love sushi"] ]} ∧
  parse_and_combine_by_user
    [turn "bob" "Nothing spicy"; turn "ann" "Not too expensive"]
    = Returned {[ "bob" := ["Nothing spicy"];
                  "ann" := ["Not too expensive"] ]} ∧
  ∃ d, parse_and_combine_by_user
         ([turn "ann" "I love sushi"]
          ++ [turn "bob" "Nothing spicy"; turn "ann" "Not too expensive"])
         = Returned d ∧
       default [] (d !! "ann") = ["I love sushi"; "Not too expensive"].
Proof.
  assert (parse_and_combine_by_user [turn "ann" "I love sushi"]
          = Returned {[ "ann" := ["I love sushi"] ]}) as H1
    by (vm_compute; reflexivity).
  assert (parse_and_combine_by_user
            [turn "bob" "Nothing spicy"; turn "ann" "Not too expensive"]
          = Returned {[ "bob" := ["Nothing spicy"];
                        "ann" := ["Not too expensive"] ]}) as H2
    by (vm_compute; reflexivity).
  split; [exact H1|]. split; [exact H2|].
  destruct (parse_concatenation _ _ _ _ H1 H2) as (d & Hrun & Hd).
  exists d. split; [exact Hrun|]. rewrite (Hd "ann"). reflexivity.
Defined.

(** X23 on the sample: three turns, three texts. *)
Lemma parse_keeps_every_text_witness :
  parse_and_combine_by_user dinner
    = Returned {[ "ann" := ["I love sushi"; "Not too expensive"];
                  "bob" := ["Nothing spicy"] ]} ∧
  sum_list_with length
    (map_to_list
       ({[ "ann" := ["I love sushi"; "Not too expensive"];
           "bob" := ["Nothing spicy"] ]} : gmap string (list string))).*2
  = length dinner.
Proof.
  assert (parse_and_combine_by_user dinner
          = Returned {[ "ann" := ["I love sushi"; "Not too expensive"];
                        "bob" := ["Nothing spicy"] ]}) as H1
    by (vm_compute; reflexivity).
  split; [exact H1|].
  exact (parse_keeps_every_text _ _ H1).
Defined.

(** X26 on the sample: the span of a chatty output. *)
Lemma search_span_idempotent_witness :
  search_span "{" "}" chatty = Some "{a} and {b}" ∧
  search_span "{" "}" "{a} and {b}" = Some "{a} and {b}".
Proof.
  assert (search_span "{" "}" chatty = Some "{a} and {b}") as H1
    by reflexivity.
  split; [exact H1|].
  exact (search_span_idempotent _ _ _ _ H1).
Defined.

End MoreScenarios.
